(** * cam_server: the beam-profile analysis functions

    A shallow embedding of [cam_server/pipeline/data_processing/functions.py]
    and the properties of its index locator, slicer, preprocessor,
    profile heuristics and curve fitters.

    Number models.
    - Indices and counters are Python integers: [Z].
    - Pixel samples are integers of a numpy integer type: [Z].  Where
      the code can leave the type of its array, in [subtract_background]
      and [get_tilt], the type and its wrap-around are written out; the
      sums of [get_x_y_profile] and [get_intensity] are taken exact, as
      they are while they fit 64 bits.
    - Axis and profile values that are only compared, negated or combined
      by exact operations are finite floats; comparison and negation of
      finite floats are exact, so they are rationals: [Q].  A
      not-a-number value is not among them: what is proved of
      [find_index] and of the functions that call it is proved of finite
      values.  The slice size of [calculate_slices] and the threshold of
      [get_good_region_profile], which the code rounds, are taken exact.
    - The curve fitters use rounding arithmetic, square roots, exponentials
      and not-a-number values; there the float operations are the members
      of the class [Float64], about which nothing is assumed. *)

From Stdlib Require Import List Sorted ZArith QArith Qabs Bool Lia Lqa.
From Stdlib Require String.
Import ListNotations.

Local Open Scope Z_scope.

(** ** Exceptions as results *)

Inductive exn : Type :=
| IndexError
| ValueError
| RuntimeError
| TypeError.

Inductive result (A : Type) : Type :=
| Ok (a : A)
| Raise (e : exn).

Arguments Ok {A} a.
Arguments Raise {A} e.

Definition bind {A B : Type} (r : result A) (k : A -> result B) : result B :=
  match r with
  | Ok a => k a
  | Raise e => Raise e
  end.

Notation "x <- r ;; k" := (bind r (fun x => k))
  (at level 61, r at next level, right associativity).

Definition raises {A : Type} (r : result A) : bool :=
  match r with
  | Ok _ => false
  | Raise _ => true
  end.

(** ** Python sequences *)

(** [len(l)]. *)
Definition len {A : Type} (l : list A) : Z := Z.of_nat (length l).

(** [l[i]]: a negative index counts from the end, an index outside the
    sequence raises [IndexError]. *)
Definition getitem {A : Type} (l : list A) (i : Z) : result A :=
  let j := if i <? 0 then i + len l else i in
  if (0 <=? j) && (j <? len l) then
    match nth_error l (Z.to_nat j) with
    | Some x => Ok x
    | None => Raise IndexError
    end
  else Raise IndexError.

(** ** Comparisons of finite floats *)

Definition Qlt_bool (x y : Q) : bool := negb (Qle_bool y x).

(** ** Index locator *)

(** Modelled from the spec: [numpy.searchsorted(a, v)] is library code; it
    is the binary search for the left insertion point.  The search keeps
    the window [lo, hi), probes its middle and moves [lo] past a probe
    that is smaller than [v]. *)
Fixpoint bisect_left (fuel : nat) (a : list Q) (v : Q) (lo hi : nat) : nat :=
  match fuel with
  | O => lo
  | S fuel' =>
      if (lo <? hi)%nat then
        let mid := (lo + (hi - lo) / 2)%nat in
        if Qlt_bool (nth mid a 0%Q) v
        then bisect_left fuel' a v (S mid) hi
        else bisect_left fuel' a v lo mid
      else lo
  end.

Definition searchsorted (a : list Q) (v : Q) : Z :=
  Z.of_nat (bisect_left (length a) a v 0 (length a)).

(** [find_index(axis, item)], lines 51-86, on finite floats: neither the
    axis nor the item holds a not-a-number value. *)
Definition find_index (axis : list Q) (item : Q) : result Z :=
  a0 <- getitem axis 0 ;;
  a1 <- getitem axis 1 ;;
  let left_bigger_right := Qlt_bool a1 a0 in
  if left_bigger_right then
    if Qlt_bool a0 item then Ok 0
    else
      a_last <- getitem axis (-1) ;;
      if Qlt_bool item a_last then Ok (len axis - 1)
      else Ok (searchsorted (map Qopp axis) (- item)%Q)
  else
    if Qlt_bool item a0 then Ok 0
    else
      a_last <- getitem axis (-1) ;;
      if Qlt_bool a_last item then Ok (len axis - 1)
      else
        let insert_index := searchsorted axis item in
        same <- (if insert_index <? len axis
                 then (a_ins <- getitem axis insert_index ;; Ok (Qeq_bool a_ins item))
                 else Ok false) ;;
        if same then Ok insert_index else Ok (insert_index - 1).

(** The in-range rule as section 4.1 of the specification words it, for
    both directions: take the insertion point (on the negated axis and
    value when the axis descends), return it when the axis value there
    equals the item, and the index one below it otherwise. *)
Definition find_index_spec_in_range (axis : list Q) (item : Q) : result Z :=
  a0 <- getitem axis 0 ;;
  a1 <- getitem axis 1 ;;
  let insert_index :=
    if Qlt_bool a1 a0 then searchsorted (map Qopp axis) (- item)%Q
    else searchsorted axis item in
  same <- (if insert_index <? len axis
           then (a_ins <- getitem axis insert_index ;; Ok (Qeq_bool a_ins item))
           else Ok false) ;;
  if same then Ok insert_index else Ok (insert_index - 1).

(** An axis is monotonic when it is strictly ascending or strictly
    descending (section 3 of the specification). *)
Definition ascending (axis : list Q) : Prop := StronglySorted Qlt axis.
Definition descending (axis : list Q) : Prop := StronglySorted (fun x y => y < x)%Q axis.
Definition monotonic (axis : list Q) : Prop := ascending axis \/ descending axis.

(** ** Slicer *)

(** The [while counter_slices > 0] loop of [calculate_slices], lines
    226-236.  Every pass lowers the counter by two or leaves the loop, so
    [counter_slices] passes are enough; [fuel] counts them. *)
Fixpoint outer_slices (fuel : nat) (n_pixel_slice number_of_elements_axis : Z)
    (start_index end_index counter_slices : Z) (list_slices_indexes : list Z)
    : list Z :=
  match fuel with
  | O => list_slices_indexes
  | S fuel' =>
      if counter_slices >? 0 then
        let start_index := start_index - n_pixel_slice in
        let end_index := end_index + n_pixel_slice in
        if (start_index <? 0) || (end_index >=? number_of_elements_axis)
        then list_slices_indexes
        else outer_slices fuel' n_pixel_slice number_of_elements_axis
               start_index end_index (counter_slices - 2)
               (start_index :: list_slices_indexes ++ [end_index])
      else list_slices_indexes
  end.

(** [calculate_slices(axis, center, standard_deviation, scaling,
    number_of_slices)], lines 186-238.  The result is
    [(list_slices_indexes, n_pixel_half_slice, slice_length)], with [None]
    for a [slice_length] that was never set. *)
Definition calculate_slices (axis : list Q) (center standard_deviation scaling : Q)
    (number_of_slices : Z) : result (list Z * Z * option Q) :=
  if number_of_slices mod 2 =? 0 then Raise ValueError
  else
    let size_slice := (scaling * standard_deviation / inject_Z number_of_slices)%Q in
    index_center <- find_index axis center ;;
    index_half_slice <- find_index axis (center + size_slice / 2)%Q ;;
    let n_pixel_half_slice := Z.abs (index_half_slice - index_center) in
    let n_pixel_half_slice := if n_pixel_half_slice <? 1 then 1 else n_pixel_half_slice in
    let n_pixel_slice := 2 * n_pixel_half_slice in
    let start_index := index_center - n_pixel_half_slice in
    let end_index := index_center + n_pixel_half_slice in
    let number_of_elements_axis := len axis in
    if (start_index >=? 0) && (end_index <? number_of_elements_axis) then
      a_start <- getitem axis start_index ;;
      a_end <- getitem axis end_index ;;
      let slice_length := Qabs (a_start - a_end) in
      let counter_slices := number_of_slices - 1 in
      Ok (outer_slices (Z.to_nat counter_slices) n_pixel_slice number_of_elements_axis
            start_index end_index counter_slices [start_index; end_index],
          n_pixel_half_slice, Some slice_length)
    else Ok ([], n_pixel_half_slice, None).

(** The boundaries [first, first + step, ..., first + (count - 1) * step]. *)
Definition progression (first step : Z) (count : nat) : list Z :=
  map (fun j => first + step * Z.of_nat j) (seq 0 count).

(** ** Images and slices of an image *)

(** A two-dimensional array of pixel counts, as its list of rows. *)
Definition image : Type := list (list Z).

(** The shape of an image with at least one row; an image without rows
    has no row to measure and is given the width 0. *)
Definition shape (im : image) : Z * Z :=
  (len im, match im with [] => 0 | row :: _ => len row end).

Definition rectangular (im : image) : Prop :=
  Forall (fun row => len row = snd (shape im)) im.

(** [l[a:b]]: a negative bound counts from the end and both bounds are
    clipped to the sequence. *)
Definition slice_bound {A : Type} (l : list A) (i : Z) : nat :=
  Z.to_nat (Z.min (len l) (Z.max 0 (if i <? 0 then i + len l else i))).

Definition pyslice {A : Type} (l : list A) (a b : Z) : list A :=
  firstn (slice_bound l b - slice_bound l a) (skipn (slice_bound l a) l).

(** The pairs [(list_slices[i], list_slices[i + 1])] for
    [i in range(len(list_slices) - 1)]. *)
Fixpoint adjacent_pairs (list_slices : list Z) : list (Z * Z) :=
  match list_slices with
  | a :: (b :: _) as rest => (a, b) :: adjacent_pairs rest
  | _ => []
  end.

(** The pairs that pass the guard of lines 253 and 283; the others are
    dropped. *)
Definition slice_windows (size : Z) (list_slices : list Z) : list (Z * Z) :=
  filter (fun w => (fst w <? size) && (snd w <? size)) (adjacent_pairs list_slices).

Fixpoint for_each {A B : Type} (body : A -> result B) (l : list A) : result (list B) :=
  match l with
  | [] => Ok []
  | a :: rest => b <- body a ;; bs <- for_each body rest ;; Ok (b :: bs)
  end.

(** [get_x_slices_data], lines 241-268.  [slice_statistics slice_n start
    n_pixel_half_slice] stands for lines 257-264, the statistics of one
    slice; the windows and the slices cut out of the image are as in the
    source. *)
Definition get_x_slices_data {A : Type} (slice_statistics : image -> Z -> Z -> result A)
    (im : image) (x_axis : list Q) (x_center x_standard_deviation scaling : Q)
    (number_of_slices : Z) : result (list A * option Q) :=
  r <- calculate_slices x_axis x_center x_standard_deviation scaling number_of_slices ;;
  let '(list_slices, n_pixel_half_slice, slice_length) := r in
  slice_data <- for_each
    (fun w => let slice_n := map (fun row => pyslice row (fst w) (snd w)) im in
              slice_statistics slice_n (fst w) n_pixel_half_slice)
    (slice_windows (snd (shape im)) list_slices) ;;
  Ok (slice_data, slice_length).

(** [get_y_slices_data], lines 271-298, with lines 287-294 as
    [slice_statistics]. *)
Definition get_y_slices_data {A : Type} (slice_statistics : image -> Z -> Z -> result A)
    (im : image) (y_axis : list Q) (y_center y_standard_deviation scaling : Q)
    (number_of_slices : Z) : result (list A * option Q) :=
  r <- calculate_slices y_axis y_center y_standard_deviation scaling number_of_slices ;;
  let '(list_slices, n_pixel_half_slice, slice_length) := r in
  slice_data <- for_each
    (fun w => let slice_n := pyslice im (fst w) (snd w) in
              slice_statistics slice_n (fst w) n_pixel_half_slice)
    (slice_windows (fst (shape im)) list_slices) ;;
  Ok (slice_data, slice_length).

(** ** Image preprocessor *)

(** The cast [astype("uint16")] of an integer. *)
Definition uint16 (z : Z) : Z := z mod 65536.

Fixpoint map2 {A B C : Type} (f : A -> B -> C) (l : list A) (m : list B) : list C :=
  match l, m with
  | a :: l', b :: m' => f a b :: map2 f l' m'
  | _, _ => []
  end.

Definition shape_eqb (s t : Z * Z) : bool :=
  (fst s =? fst t) && (snd s =? snd t).

(** The integer types of numpy arrays. *)
Inductive dtype : Type := U8 | U16 | U32 | U64 | I8 | I16 | I32 | I64.

Definition bits (dt : dtype) : Z :=
  match dt with
  | U8 | I8 => 8
  | U16 | I16 => 16
  | U32 | I32 => 32
  | U64 | I64 => 64
  end.

Definition signed (dt : dtype) : bool :=
  match dt with
  | I8 | I16 | I32 | I64 => true
  | U8 | U16 | U32 | U64 => false
  end.

(** The value an integer takes when it is stored in an array of type
    [dt]: arithmetic on integer arrays wraps around silently. *)
Definition wrap (dt : dtype) (z : Z) : Z :=
  if signed dt
  then (z + 2 ^ (bits dt - 1)) mod 2 ^ bits dt - 2 ^ (bits dt - 1)
  else z mod 2 ^ bits dt.

(** The values of the type [dt]. *)
Definition in_range (dt : dtype) (z : Z) : Prop :=
  if signed dt
  then - 2 ^ (bits dt - 1) <= z < 2 ^ (bits dt - 1)
  else 0 <= z < 2 ^ bits dt.

(** The type in which [sum] accumulates an integer array where the
    platform integer has 64 bits: the 64-bit type of the same
    signedness. *)
Definition sum_dtype (dt : dtype) : dtype := if signed dt then I64 else U64.

(** A two-dimensional integer array: its type, its number of columns
    (which an array without rows has too) and its rows. *)
Record ndarray : Type := {
  nd_dtype : dtype;
  nd_width : Z;
  nd_rows : image
}.

Definition nd_shape (a : ndarray) : Z * Z := (len (nd_rows a), nd_width a).

(** Every row has the width of the array and every entry is a value of
    its type. *)
Definition well_formed_array (a : ndarray) : Prop :=
  Forall (fun row => len row = nd_width a) (nd_rows a) /\
  Forall (Forall (in_range (nd_dtype a))) (nd_rows a).

(** numpy compares two integer arrays as integers, in a type that holds
    the values of both, unless one is a [uint64] array and the other a
    signed one: no integer type holds both, and how such a pair is
    compared depends on the version of numpy. *)
Definition compared_as_integers (s t : dtype) : bool :=
  match s, t with
  | U64, (I8 | I16 | I32 | I64) | (I8 | I16 | I32 | I64), U64 => false
  | _, _ => true
  end.

(** [subtract_background(image, background_image)], lines 16-26, on
    integer arrays.  The mask is taken before the buffer is overwritten,
    by the comparison of the integers; line 23 casts the background, and
    only the background, to [uint16] and stores the differences in the
    image buffer, which keeps its own type; the returned value is the
    buffer after the masked positions were zeroed. *)
Definition subtract_background (im background_image : ndarray) : result ndarray :=
  if negb (shape_eqb (nd_shape im) (nd_shape background_image)) then Raise RuntimeError
  else
    let mask_for_zeros :=
      map2 (map2 (fun b a => b >? a)) (nd_rows background_image) (nd_rows im) in
    let subtracted :=
      map2 (map2 (fun a b => wrap (nd_dtype im) (a - uint16 b)))
           (nd_rows im) (nd_rows background_image) in
    Ok {| nd_dtype := nd_dtype im;
          nd_width := nd_width im;
          nd_rows := map2 (map2 (fun (m : bool) v => if m then 0 else v))
                          mask_for_zeros subtracted |}.

(** The pixel at row [r] and column [c]. *)
Definition pixel (im : image) (r c : nat) : option Z :=
  match nth_error im r with
  | Some row => nth_error row c
  | None => None
  end.

(** ** Profile extractor *)

(** Modelled from the spec: the reductions [min()], [max()] and
    [argmax()] of a numpy array are library code; they raise on an empty
    array and [argmax] returns the first index of the maximum. *)
Definition np_min (l : list Q) : result Q :=
  match l with
  | [] => Raise ValueError
  | x :: rest => Ok (fold_left (fun m y => if Qlt_bool y m then y else m) rest x)
  end.

Definition np_max (l : list Q) : result Q :=
  match l with
  | [] => Raise ValueError
  | x :: rest => Ok (fold_left (fun m y => if Qlt_bool m y then y else m) rest x)
  end.

Fixpoint argmax_from (l : list Q) (i best_index : Z) (best : Q) : Z :=
  match l with
  | [] => best_index
  | y :: rest =>
      if Qlt_bool best y then argmax_from rest (i + 1) i y
      else argmax_from rest (i + 1) best_index best
  end.

Definition np_argmax (l : list Q) : result Z :=
  match l with
  | [] => Raise ValueError
  | x :: rest => Ok (argmax_from rest 1 0 x)
  end.

(** [range(start, stop)] and [range(start, stop, -1)]. *)
Definition range (start stop : Z) : list Z :=
  map (fun k => start + Z.of_nat k) (seq 0 (Z.to_nat (stop - start))).

Definition range_down (start stop : Z) : list Z :=
  map (fun k => start - Z.of_nat k) (seq 0 (Z.to_nat (start - stop))).

(** A [for i in indices: if profile[i] < threshold_value: bound = i; break]
    loop; [bound] is what the variable held before the loop. *)
Fixpoint first_below (profile : list Q) (threshold_value : Q) (indices : list Z)
    (bound : Z) : result Z :=
  match indices with
  | [] => Ok bound
  | i :: rest =>
      p <- getitem profile i ;;
      if Qlt_bool p threshold_value then Ok i
      else first_below profile threshold_value rest bound
  end.

(** Lines 90-107 of [get_good_region_profile]: the threshold value, the
    index of the maximum and the two bounds after the scans. *)
Definition good_region_core (profile : list Q) (threshold : Q) : result (Q * Z * Z * Z) :=
  profile_min <- np_min profile ;;
  profile_max <- np_max profile ;;
  let threshold_value := ((profile_max - profile_min) * threshold + profile_min)%Q in
  index_maximum <- np_argmax profile ;;
  index_start <- first_below profile threshold_value (range_down index_maximum 0) index_maximum ;;
  index_end <- first_below profile threshold_value (range index_maximum (len profile)) index_maximum ;;
  Ok (threshold_value, index_maximum, index_start, index_end).

(** [int(x)]: truncation towards zero. *)
Definition Qtrunc (x : Q) : Z := Z.quot (Qnum x) (Zpos (Qden x)).

(** [get_good_region_profile(profile, threshold, gfscale)], lines 89-118. *)
Definition get_good_region_profile (profile : list Q) (threshold gfscale : Q)
    : result (Z * Z) :=
  core <- good_region_core profile threshold ;;
  let '(_, _, index_start, index_end) := core in
  let gf_extend := (inject_Z (index_end - index_start) * gfscale
                    - inject_Z (index_end - index_start))%Q in
  let index_start := (inject_Z index_start - gf_extend / 2)%Q in
  let index_end := (inject_Z index_end + gf_extend / 2)%Q in
  let index_start := if Qlt_bool 0 index_start then index_start else 0%Q in
  let index_end := if Qlt_bool index_end (inject_Z (len profile - 1))
                   then index_end else inject_Z (len profile - 1) in
  Ok (Qtrunc index_start, Qtrunc index_end).

(** What the scan to the left is specified to find (section 4.3): the
    first index, going left from the maximum, whose value is below the
    threshold, and the index of the maximum when there is none. *)
Definition leftward_first_below (profile : list Q) (threshold_value : Q)
    (index_maximum : Z) : result Z :=
  first_below profile threshold_value (range_down index_maximum (-1)) index_maximum.

(** ** Float arithmetic of the curve fitters *)

(** The [float64] operations that the fitters and the tilt estimator use.
    [f_sum] is numpy's [sum] of a float array, [f_float32] the cast
    [astype("float32")], [f_of_Z] the conversion of an integer operand. *)
Class Float64 (F : Type) : Type := {
  f_zero : F;
  f_two : F;
  f_pi : F;
  f_add : F -> F -> F;
  f_sub : F -> F -> F;
  f_mul : F -> F -> F;
  f_div : F -> F -> F;
  f_neg : F -> F;
  f_abs : F -> F;
  f_sqrt : F -> F;
  f_exp : F -> F;
  f_float32 : F -> F;
  f_ltb : F -> F -> bool;
  f_eqb : F -> F -> bool;
  f_isnan : F -> bool;
  f_sum : list F -> F;
  f_of_Z : Z -> F
}.

(** Element-wise operation on two one-dimensional arrays: equal lengths,
    or an array of one element that is broadcast; other lengths raise. *)
Definition broadcast2 {A B C : Type} (f : A -> B -> C) (l : list A) (m : list B)
    : result (list C) :=
  if (length l =? length m)%nat then Ok (map2 f l m)
  else match l, m with
       | [a], _ => Ok (map (f a) m)
       | _, [b] => Ok (map (fun a => f a b) l)
       | _, _ => Raise ValueError
       end.

(** [a[mask]] for a boolean mask: the lengths must agree. *)
Fixpoint compress {A : Type} (mask : list bool) (l : list A) : list A :=
  match mask, l with
  | m :: mask', a :: l' => if m then a :: compress mask' l' else compress mask' l'
  | _, _ => []
  end.

Definition mask_select {A : Type} (l : list A) (mask : list bool) : result (list A) :=
  if (length l =? length mask)%nat then Ok (compress mask l) else Raise IndexError.

(** [a[indices]] for an integer index array. *)
Definition take {A : Type} (l : list A) (indices : list Z) : result (list A) :=
  for_each (getitem l) indices.

Section Fitters.

Context {F : Type} `{Float64 F}.

(** Modelled from the spec: the reductions of a float array are library
    code.  A not-a-number element is the minimum and the maximum of its
    array, and [argmax] returns the first index of the maximum. *)
Definition fmin_step (m y : F) : F :=
  if f_isnan m then m else if f_isnan y then y else if f_ltb y m then y else m.

Definition fmax_step (m y : F) : F :=
  if f_isnan m then m else if f_isnan y then y else if f_ltb m y then y else m.

Definition f_min (l : list F) : result F :=
  match l with
  | [] => Raise ValueError
  | x :: rest => Ok (fold_left fmin_step rest x)
  end.

Definition f_max (l : list F) : result F :=
  match l with
  | [] => Raise ValueError
  | x :: rest => Ok (fold_left fmax_step rest x)
  end.

Fixpoint f_argmax_from (l : list F) (i best_index : Z) (best : F) : Z :=
  match l with
  | [] => best_index
  | y :: rest =>
      if f_isnan best then best_index
      else if f_isnan y || f_ltb best y then f_argmax_from rest (i + 1) i y
      else f_argmax_from rest (i + 1) best_index best
  end.

Definition f_argmax (l : list F) : result Z :=
  match l with
  | [] => Raise ValueError
  | x :: rest => Ok (f_argmax_from rest 1 0 x)
  end.

(** Modelled from the spec: [numpy.trapz(y, x=x)] is library code, the
    trapezoid integral [sum(diff(x) * (y[1:] + y[:-1]) / 2.0)]. *)
Definition np_trapz (y x : list F) : result F :=
  let d := map2 (fun hi lo => f_sub hi lo) (tl x) (removelast x) in
  let s := map2 f_add (tl y) (removelast y) in
  terms <- broadcast2 (fun di si => f_div (f_mul di si) f_two) d s ;;
  Ok (f_sum terms).

(** [_gauss_function(x, offset, amplitude, center, standard_deviation)],
    lines 135-137, at one abscissa. *)
Definition _gauss_function (x offset amplitude center standard_deviation : F) : F :=
  f_add offset
    (f_mul amplitude
       (f_exp (f_div (f_neg (f_mul (f_sub x center) (f_sub x center)))
                     (f_mul f_two (f_mul standard_deviation standard_deviation))))).

(** The nonlinear least-squares solver [scipy.optimize.curve_fit]: given
    the model, the abscissas, the ordinates and the start values it
    returns the optimal parameters or raises. *)
Definition solver : Type :=
  (F -> F -> F -> F -> F -> F) -> list F -> list F -> F * F * F * F -> result (F * F * F * F).

(** [if center_of_mass:] on the optional argument: [None] and zero are
    false. *)
Definition truthy (center_of_mass : option F) : option F :=
  match center_of_mass with
  | None => None
  | Some c => if f_eqb c f_zero then None else Some c
  end.

(** The start values of lines 142-152. *)
Definition gauss_seed (axis profile : list F) (center_of_mass : option F)
    : result (F * F * F * F) :=
  offset <- f_min profile ;;
  profile_max <- f_max profile ;;
  let amplitude := f_sub profile_max offset in
  center <- (match truthy center_of_mass with
             | Some c => Ok c
             | None => i <- f_argmax profile ;; getitem axis i
             end) ;;
  surface <- np_trapz (map (fun p => f_sub p offset) profile) axis ;;
  let standard_deviation :=
    f_div surface (f_mul amplitude (f_sqrt (f_mul f_two f_pi))) in
  Ok (offset, amplitude, center, standard_deviation).

(** [_gauss_fit(axis, profile, center_of_mass=None)], lines 140-163: the
    [try] block catches whatever the solver raises. *)
Definition _gauss_fit (curve_fit : solver) (axis profile : list F)
    (center_of_mass : option F) : result (F * F * F * F) :=
  seed <- gauss_seed axis profile center_of_mass ;;
  match curve_fit _gauss_function axis (map f_float32 profile) seed with
  | Ok optimal_parameter => Ok optimal_parameter
  | Raise _ => Ok seed
  end.

(** The value [gauss_fit] returns: the fitted curve, offset, amplitude,
    center, standard deviation, center of mass and rms width. *)
Record fit_result : Type := {
  gauss_function : list F;
  fit_offset : F;
  fit_amplitude : F;
  fit_center : F;
  fit_standard_deviation : F;
  fit_center_of_mass : F;
  fit_rms : F
}.

(** [gauss_fit(profile, axis)], lines 121-132. *)
Definition gauss_fit (curve_fit : solver) (profile axis : list F) : result fit_result :=
  if negb (length axis =? length profile)%nat then Raise RuntimeError
  else
    axis_profile <- broadcast2 f_mul axis profile ;;
    let center_of_mass := f_div (f_sum axis_profile) (f_sum profile) in
    axis_axis <- broadcast2 f_mul axis axis ;;
    axis_axis_profile <- broadcast2 f_mul axis_axis profile ;;
    let center_of_mass_2 := f_div (f_sum axis_axis_profile) (f_sum profile) in
    let rms := f_sqrt (f_abs (f_sub center_of_mass_2 (f_mul center_of_mass center_of_mass))) in
    optimal <- _gauss_fit curve_fit axis profile None ;;
    let '(offset, amplitude, center, standard_deviation) := optimal in
    Ok {| gauss_function :=
            map (fun x => _gauss_function x offset amplitude center standard_deviation) axis;
          fit_offset := offset;
          fit_amplitude := amplitude;
          fit_center := center;
          fit_standard_deviation := f_abs standard_deviation;
          fit_center_of_mass := center_of_mass;
          fit_rms := rms |}.

(** *** Tilt estimator *)

(** Integer reductions of the pixel counts. *)
Definition z_sum (l : list Z) : Z := fold_left Z.add l 0.

Definition z_min (l : list Z) : result Z :=
  match l with
  | [] => Raise ValueError
  | x :: rest => Ok (fold_left Z.min rest x)
  end.

Fixpoint z_argmax_from (l : list Z) (i best_index best : Z) : Z :=
  match l with
  | [] => best_index
  | y :: rest =>
      if best <? y then z_argmax_from rest (i + 1) i y
      else z_argmax_from rest (i + 1) best_index best
  end.

Definition z_argmax (l : list Z) : result Z :=
  match l with
  | [] => Raise ValueError
  | x :: rest => Ok (z_argmax_from rest 1 0 x)
  end.

(** The columns of an image. *)
Definition columns (im : image) : list (list Z) :=
  match im with
  | [] => []
  | row :: _ => map (fun j => map (fun r => nth j r 0) im) (seq 0 (length row))
  end.

(** The weights that reach the polynomial fit: an integer array or a
    float array. *)
Inductive weights : Type :=
| int_weights (w : list Z)
| float_weights (w : list F).

(** [a ** w_order] for an integer array [a] of type [dt] and a Python
    int [w_order].  An exponent that is a non-negative value of [dt]
    gives an array of type [dt], the powers taken by wrapping
    multiplication.  Any other exponent is left to [other_power]: the
    outcome depends on the type and on the version of numpy (a negative
    power of signed integers raises, an exponent that is no value of
    [dt] raises or gives a float array). *)
Definition integer_power (other_power : list Z -> Z -> result weights) (dt : dtype)
    (a : list Z) (w_order : Z) : result weights :=
  if (0 <=? w_order) && (w_order <? 2 ^ (if signed dt then bits dt - 1 else bits dt))
  then Ok (int_weights (map (fun c => wrap dt (c ^ w_order)) a))
  else other_power a w_order.

(** The weighted polynomial fit [numpy.polyfit(x, y, deg, w=w)]: it
    returns the coefficients or raises. *)
Definition polynomial_fitter : Type :=
  list F -> list F -> Z -> weights -> result (list F).

(** [numpy.poly1d]: a polynomial given by its coefficients. *)
Record poly1d : Type := { coefficients : list F }.

(** [get_tilt(image, x_axis, y_axis, w_order, order)], lines 381-404, on
    an integer image, float axes and a Python int [w_order].  The sums
    along the columns are taken in the 64-bit type of the signedness of
    the image, and the differences and powers of lines 394 and 401 stay
    in that type. *)
Definition get_tilt (polyfit : polynomial_fitter)
    (other_power : list Z -> Z -> result weights) (im : ndarray)
    (x_axis y_axis : list F) (w_order order : Z) : result (poly1d * F) :=
  let acc := sum_dtype (nd_dtype im) in
  max_ <- (match nd_rows im with
           | [] => Raise ValueError
           | _ => for_each z_argmax (columns (nd_rows im))
           end) ;;
  mean_list <- take y_axis max_ ;;
  let not_nan := map (fun y => negb (f_isnan y)) mean_list in
  let projX := map (fun column => wrap acc (z_sum column)) (columns (nd_rows im)) in
  projX_min <- z_min projX ;;
  let projX_corrected := map (fun p => wrap acc (p - projX_min)) projX in
  weighted <- broadcast2 (fun c x => f_mul (f_of_Z c) x) projX_corrected x_axis ;;
  let mean_image :=
    f_div (f_sum weighted) (f_of_Z (wrap acc (z_sum projX_corrected))) in
  xx <- mask_select x_axis not_nan ;;
  yy <- mask_select mean_list not_nan ;;
  selected <- mask_select projX_corrected not_nan ;;
  corrected_min <- z_min projX_corrected ;;
  w <- integer_power other_power acc
         (map (fun c => wrap acc (c - corrected_min)) selected) w_order ;;
  fit <- polyfit (map (fun x => f_sub x mean_image) xx) yy order w ;;
  Ok ({| coefficients := fit |}, mean_image).

(** The tilt estimate as section 4.6 of the specification words it, on
    the integers and without the reductions of the code.  The sum, the
    least and the greatest element of a list: *)
Definition total (l : list Z) : Z := fold_right Z.add 0 l.

Definition minimum_of (l : list Z) : Z := fold_right Z.min (hd 0 l) l.

Definition maximum_of (l : list Z) : Z := fold_right Z.max (hd 0 l) l.

(** the first position of a value in a list: *)
Fixpoint first_index_of (v : Z) (l : list Z) : nat :=
  match l with
  | [] => 0
  | a :: rest => if a =? v then 0 else S (first_index_of v rest)
  end.

(** the row of the peak of a column, the first one when there are
    several: *)
Definition peak_row (column : list Z) : nat :=
  first_index_of (maximum_of column) column.

(** the column [j] of an image and the number of columns: *)
Definition column_of (im : image) (j : nat) : list Z := map (fun row => nth j row 0) im.

Definition column_count (im : image) : nat := length (hd [] im).

(** the column-sum profile, and the profile minus its own minimum: *)
Definition column_sum_profile (im : image) : list Z :=
  map (fun j => total (column_of im j)) (seq 0 (column_count im)).

Definition corrected_profile (im : image) : list Z :=
  map (fun p => p - minimum_of (column_sum_profile im)) (column_sum_profile im).

(** the mean x position weighted with a profile,
    [sum(profile * x_axis) / sum(profile)]: *)
Definition weighted_mean_position (profile : list Z) (x_axis : list F) : F :=
  f_div (f_sum (map2 (fun c x => f_mul (f_of_Z c) x) profile x_axis))
        (f_of_Z (total profile)).

(** one sample per column, its x position, its peak-y and its corrected
    intensity: *)
Record sample : Type := {
  sample_x : F;
  sample_peak_y : F;
  sample_intensity : Z
}.

Definition tilt_samples (im : image) (x_axis y_axis : list F) : list sample :=
  map (fun j => {| sample_x := nth j x_axis f_zero;
                   sample_peak_y := nth (peak_row (column_of im j)) y_axis f_zero;
                   sample_intensity := nth j (corrected_profile im) 0 |})
      (seq 0 (column_count im)).

(** the samples with a not-a-number peak-y discarded, each retained
    sample weighted by its corrected intensity to the power [w_order],
    and the weighted polynomial fit of [(x - mean_image, peak-y)]. *)
Definition get_tilt_spec (polyfit : polynomial_fitter) (im : image) (x_axis y_axis : list F)
    (w_order order : Z) : result (poly1d * F) :=
  let mean_image := weighted_mean_position (corrected_profile im) x_axis in
  let retained := filter (fun s => negb (f_isnan (sample_peak_y s)))
                         (tilt_samples im x_axis y_axis) in
  fit <- polyfit (map (fun s => f_sub (sample_x s) mean_image) retained)
                 (map sample_peak_y retained)
                 order
                 (int_weights (map (fun s => sample_intensity s ^ w_order) retained)) ;;
  Ok ({| coefficients := fit |}, mean_image).

End Fitters.

Arguments solver F : clear implicits.
Arguments polynomial_fitter F : clear implicits.
Arguments fit_result F : clear implicits.
Arguments poly1d F : clear implicits.
Arguments sample F : clear implicits.
Arguments weights F : clear implicits.

(** An executable instance for examples: exact rational arithmetic, square
    roots and exponentials to a few digits, no not-a-number value. *)
Definition q_sqrt (x : Q) : Q :=
  Z.sqrt (Qnum x * Zpos (Qden x) * 10 ^ 12) # (Qden x * 10 ^ 6).

Definition q_exp (x : Q) : Q :=
  (1 + x * (1 + x / 2 * (1 + x / 3 * (1 + x / 4 * (1 + x / 5 * (1 + x / 6))))))%Q.

#[export] Instance rational_floats : Float64 Q := {
  f_zero := 0%Q;
  f_two := 2%Q;
  f_pi := 355 # 113;
  f_add := Qplus;
  f_sub := Qminus;
  f_mul := Qmult;
  f_div := Qdiv;
  f_neg := Qopp;
  f_abs := Qabs;
  f_sqrt := q_sqrt;
  f_exp := q_exp;
  f_float32 := fun x => x;
  f_ltb := Qlt_bool;
  f_eqb := Qeq_bool;
  f_isnan := fun _ => false;
  f_sum := fun l => Qred (fold_left Qplus l 0%Q);
  f_of_Z := inject_Z
}.

Definition failing_solver : solver Q := fun _ _ _ _ => Raise RuntimeError.
Definition echo_solver : solver Q := fun _ _ _ seed => Ok seed.

(** A stand-in for the polynomial fit in examples: the constant
    polynomial of the weighted mean of [y]; it raises without samples. *)
Definition weighted_mean_fitter : polynomial_fitter Q :=
  fun x y deg w =>
    match y, w with
    | [], _ => Raise TypeError
    | _, int_weights w =>
        Ok [Qred (fold_left Qplus (map2 (fun wi yi => inject_Z wi * yi)%Q w y) 0%Q
                  / inject_Z (fold_left Z.add w 0))]
    | _, float_weights w =>
        Ok [Qred (fold_left Qplus (map2 Qmult w y) 0%Q / fold_left Qplus w 0%Q)]
    end.

(** A stand-in that returns the weights it was given. *)
Definition weights_fitter : polynomial_fitter Q :=
  fun x y deg w =>
    match w with
    | int_weights w => Ok (map inject_Z w)
    | float_weights w => Ok w
    end.

(** A stand-in for the powers that are left open: it raises. *)
Definition no_other_power : list Z -> Z -> result (weights Q) :=
  fun _ _ => Raise ValueError.

(** ** Predicates of the statements *)

(** [k] is the index of the largest axis value that is at most [item]. *)
Definition floor_index (axis : list Q) (item : Q) (k : Z) : Prop :=
  0 <= k < len axis /\
  exists x, getitem axis k = Ok x /\ (x <= item)%Q /\
            forall y, In y axis -> (y <= item)%Q -> (y <= x)%Q.

(** The half slice in pixels that [calculate_slices] derives from the two
    located indices: their distance, and one pixel when that is less. *)
Definition half_slice (index_center index_half_slice : Z) : Z :=
  Z.max 1 (Z.abs (index_half_slice - index_center)).

(** [j] pairs of outer boundaries are accepted around the central slice
    [index_center - n, index_center + n] on an axis of [L] elements when
    [number_of_slices] is [N]: the [j] pairs are in range, each was taken
    while slices were still missing, and either no slice is missing any
    more or the next pair is out of range. *)
Definition accepted_pairs (index_center n L N : Z) (j : nat) : Prop :=
  (forall i : nat, (1 <= i <= j)%nat ->
     0 <= index_center - n - 2 * n * Z.of_nat i /\
     index_center + n + 2 * n * Z.of_nat i < L) /\
  (j = 0%nat \/ 2 * Z.of_nat j <= N - 1) /\
  (N - 1 <= 2 * Z.of_nat j \/
   index_center - n - 2 * n * Z.of_nat (S j) < 0 \/
   L <= index_center + n + 2 * n * Z.of_nat (S j)).

(** No integer step of [get_tilt] leaves the type [sum_dtype dt] in
    which it is taken: the column sums, the corrected sums, their total
    and their powers are values of that type. *)
Definition no_overflow (dt : dtype) (im : image) (w_order : Z) : Prop :=
  Forall (in_range (sum_dtype dt)) (column_sum_profile im) /\
  Forall (in_range (sum_dtype dt)) (corrected_profile im) /\
  in_range (sum_dtype dt) (total (corrected_profile im)) /\
  Forall (fun c => in_range (sum_dtype dt) (c ^ w_order)) (corrected_profile im).

(** Every window ends where the next one starts. *)
Fixpoint contiguous (windows : list (Z * Z)) : Prop :=
  match windows with
  | w :: (w' :: _) as rest => snd w = fst w' /\ contiguous rest
  | _ => True
  end.

(** ** Further functions of the module *)

(** [get_region_of_interest(image, offset_x, size_x, offset_y, size_y)],
    lines 29-30: the slice [image[offset_y:offset_y + size_y,
    offset_x:offset_x + size_x]]. *)
Definition get_region_of_interest (im : image) (offset_x size_x offset_y size_y : Z)
    : image :=
  map (fun row => pyslice row offset_x (offset_x + size_x))
      (pyslice im offset_y (offset_y + size_y)).

(** [apply_threshold(image, threshold)], lines 33-34; the value is the
    image buffer after the assignment. *)
Definition apply_threshold (im : image) (threshold : Q) : image :=
  map (map (fun v => if v <? Qtrunc threshold then 0 else v)) im.

Definition z_max (l : list Z) : result Z :=
  match l with
  | [] => Raise ValueError
  | x :: rest => Ok (fold_left Z.max rest x)
  end.

(** [get_min_max(image)], lines 37-38, on an image of pixel counts, which
    holds no not-a-number: the reductions run over all pixels and raise
    on an image without pixels. *)
Definition get_min_max (im : image) : result (Z * Z) :=
  image_min <- z_min (concat im) ;;
  image_max <- z_max (concat im) ;;
  Ok (image_min, image_max).

(** [get_x_y_profile(image)], lines 41-44: the sums along the rows
    ([sum(0)], one per column) and along the columns ([sum(1)], one per
    row). *)
Definition get_x_y_profile (im : image) : list Z * list Z :=
  let x_profile := map z_sum (columns im) in
  let y_profile := map z_sum im in
  (x_profile, y_profile).

(** [get_intensity(profile)], lines 47-48. *)
Definition get_intensity (profile : list Z) : Z := z_sum profile.

(** The image of the shape of [im] that holds [v] everywhere. *)
Definition full_like (im : image) (v : Z) : image := map (map (fun _ => v)) im.

(** All pixels are values of a [uint16] buffer. *)
Definition uint16_image (im : image) : Prop :=
  Forall (Forall (fun v => 0 <= v < 65536)) im.

(** [numpy.zeros_like]: the all-zero array of the type and shape of [a]. *)
Definition zeros_like (a : ndarray) : ndarray :=
  {| nd_dtype := nd_dtype a; nd_width := nd_width a; nd_rows := full_like (nd_rows a) 0 |}.

(** The profile is at least the threshold at index [i]. *)
Definition not_below (profile : list Q) (threshold_value : Q) (i : Z) : Prop :=
  exists p, getitem profile i = Ok p /\ (threshold_value <= p)%Q.

(** The profile is below the threshold at index [i]. *)
Definition below (profile : list Q) (threshold_value : Q) (i : Z) : Prop :=
  exists p, getitem profile i = Ok p /\ (p < threshold_value)%Q.

(** ** Test helpers: the mock configuration storage *)

Module MockConfigStorage.

Import String.
Local Open Scope string_scope.

Inductive exn : Type :=
| KeyError (key : string)
| ValueError (message : string).

Inductive outcome (A : Type) : Type :=
| Return (a : A)
| Throw (e : exn).

Arguments Return {A} a.
Arguments Throw {A} e.

Section Storage.

(** The type of a stored configuration. *)
Variable config : Type.

(** A Python [dict] with string keys: the items in insertion order, every
    key once. *)
Definition dict : Type := list (string * config).

Fixpoint dict_get (d : dict) (key : string) : option config :=
  match d with
  | [] => None
  | (k, v) :: rest => if k =? key then Some v else dict_get rest key
  end.

(** [d[key] = value]: the value of a present key is replaced where it
    stands, a new key goes to the end. *)
Fixpoint dict_set (d : dict) (key : string) (value : config) : dict :=
  match d with
  | [] => [(key, value)]
  | (k, v) :: rest =>
      if k =? key then (k, value) :: rest else (k, v) :: dict_set rest key value
  end.

(** [del d[key]]: [None] when the key is missing. *)
Fixpoint dict_del (d : dict) (key : string) : option dict :=
  match d with
  | [] => None
  | (k, v) :: rest =>
      if k =? key then Some rest
      else match dict_del rest key with
           | Some rest' => Some ((k, v) :: rest')
           | None => None
           end
  end.

(** The object: its one attribute [configs]. *)
Record t : Type := { configs : dict }.

(** [__init__], lines 22-23. *)
Definition init : t := {| configs := [] |}.

(** [get_available_configs], lines 25-26. *)
Definition get_available_configs (self : t) : list string :=
  List.map fst (configs self).

(** The message ["Config '%s' does not exist." % config_name]. *)
Definition missing_message (config_name : string) : string :=
  "Config '" ++ config_name ++ "' does not exist.".

(** [get_config], lines 28-33. *)
Definition get_config (self : t) (config_name : string) : outcome config :=
  match dict_get (configs self) config_name with
  | None => Throw (ValueError (missing_message config_name))
  | Some configuration => Return configuration
  end.

(** [save_config], lines 35-36; the value is the object afterwards. *)
Definition save_config (self : t) (config_name : string) (configuration : config) : t :=
  {| configs := dict_set (configs self) config_name configuration |}.

(** [delete_config], lines 38-39; the value is the object afterwards. *)
Definition delete_config (self : t) (config_name : string) : outcome t :=
  match dict_del (configs self) config_name with
  | Some d => Return {| configs := d |}
  | None => Throw (KeyError config_name)
  end.

(** The keys of the dictionary are distinct. *)
Definition well_formed (self : t) : Prop := NoDup (get_available_configs self).

End Storage.

Arguments dict_get {config} d key.
Arguments dict_set {config} d key value.
Arguments dict_del {config} d key.
Arguments configs {config} _.
Arguments init {config}.
Arguments get_available_configs {config} self.
Arguments get_config {config} self config_name.
Arguments save_config {config} self config_name configuration.
Arguments delete_config {config} self config_name.
Arguments well_formed {config} self.

(** Names for the examples. *)
Definition camera : string := "camera".
Definition name_a : string := "a".
Definition name_b : string := "b".

End MockConfigStorage.

(** * Properties *)

(** ** Results, sequences and comparisons *)

Lemma Qlt_bool_iff (x y : Q) : Qlt_bool x y = true <-> (x < y)%Q.
Proof.
  unfold Qlt_bool. rewrite negb_true_iff. split; intro Hlt.
  - apply Qnot_le_lt. intro Hle. apply Qle_bool_iff in Hle. congruence.
  - destruct (Qle_bool y x) eqn:E; [|reflexivity].
    apply Qle_bool_iff in E. exfalso. apply (Qlt_not_le _ _ Hlt E).
Qed.

Lemma Qlt_bool_false_iff (x y : Q) : Qlt_bool x y = false <-> (y <= x)%Q.
Proof.
  unfold Qlt_bool. rewrite negb_false_iff. apply Qle_bool_iff.
Qed.

Lemma len_nonneg {A : Type} (l : list A) : 0 <= len l.
Proof. unfold len. lia. Qed.

Lemma getitem_nth {A : Type} (l : list A) (i : Z) (d : A) :
  0 <= i < len l -> getitem l i = Ok (nth (Z.to_nat i) l d).
Proof.
  intros Hi. unfold getitem.
  replace (i <? 0) with false by (symmetry; apply Z.ltb_ge; lia).
  replace ((0 <=? i) && (i <? len l)) with true
    by (symmetry; apply andb_true_iff; split; [apply Z.leb_le | apply Z.ltb_lt]; lia).
  destruct (nth_error l (Z.to_nat i)) as [x|] eqn:E.
  - f_equal. symmetry. apply nth_error_nth. exact E.
  - apply nth_error_None in E. unfold len in Hi. lia.
Qed.

Lemma last_nth {A : Type} (l : list A) (d : A) :
  last l d = nth (length l - 1) l d.
Proof.
  induction l as [|a l IH]; [reflexivity|].
  destruct l as [|b l]; [reflexivity|].
  change (last (a :: b :: l) d) with (last (b :: l) d). rewrite IH.
  simpl. rewrite Nat.sub_0_r. reflexivity.
Qed.

Lemma getitem_last {A : Type} (l : list A) (d : A) :
  l <> [] -> getitem l (-1) = Ok (last l d).
Proof.
  intros Hne. unfold getitem.
  assert (Hlen : 0 < len l).
  { destruct l; [congruence | unfold len; simpl; lia]. }
  change (-1 <? 0) with true. cbv iota.
  replace ((0 <=? -1 + len l) && (-1 + len l <? len l)) with true
    by (symmetry; apply andb_true_iff; split; [apply Z.leb_le | apply Z.ltb_lt]; lia).
  replace (Z.to_nat (-1 + len l)) with (length l - 1)%nat by (unfold len; lia).
  rewrite (last_nth l d).
  destruct (nth_error l (length l - 1)) as [x|] eqn:E.
  - f_equal. symmetry. apply nth_error_nth. exact E.
  - apply nth_error_None in E. unfold len in *. lia.
Qed.

Lemma getitem_in {A : Type} (l : list A) (i : Z) (x : A) :
  getitem l i = Ok x -> In x l.
Proof.
  unfold getitem.
  destruct ((0 <=? _) && _); [|discriminate].
  destruct (nth_error l _) eqn:E; [|discriminate].
  intros [= <-]. eapply nth_error_In, E.
Qed.

(** ** Sorted axes *)

Lemma sorted_nth (R : Q -> Q -> Prop) (a : list Q) :
  StronglySorted R a ->
  forall i j, (i < j < length a)%nat -> R (nth i a 0%Q) (nth j a 0%Q).
Proof.
  induction 1 as [|x l Hs IH Hall]; intros i j Hij; simpl in Hij; [lia|].
  destruct j as [|j]; [lia|]. destruct i as [|i]; simpl.
  - rewrite Forall_forall in Hall. apply Hall, nth_In. lia.
  - apply IH. lia.
Qed.

Lemma ascending_nth (a : list Q) :
  ascending a -> forall i j, (i < j < length a)%nat -> (nth i a 0 < nth j a 0)%Q.
Proof. intros Ha. exact (sorted_nth Qlt a Ha). Qed.

Lemma descending_nth (a : list Q) :
  descending a -> forall i j, (i < j < length a)%nat -> (nth j a 0 < nth i a 0)%Q.
Proof. intros Ha. exact (sorted_nth (fun x y => (y < x)%Q) a Ha). Qed.

Lemma ascending_nth_le (a : list Q) :
  ascending a -> forall i j, (i <= j < length a)%nat -> (nth i a 0 <= nth j a 0)%Q.
Proof.
  intros Ha i j Hij. destruct (Nat.eq_dec i j) as [->|Hne].
  - apply Qle_refl.
  - apply Qlt_le_weak, ascending_nth; [exact Ha | lia].
Qed.

Lemma descending_opp (a : list Q) : descending a -> ascending (map Qopp a).
Proof.
  unfold descending, ascending. induction 1 as [|x l Hs IH Hall]; simpl.
  - constructor.
  - constructor; [exact IH|].
    rewrite Forall_forall in Hall. apply Forall_forall.
    intros y Hy. apply in_map_iff in Hy.
    destruct Hy as [z [<- Hz]]. specialize (Hall z Hz). cbv beta in Hall. lra.
Qed.

Lemma nth_opp (a : list Q) (i : nat) : nth i (map Qopp a) 0%Q = (- nth i a 0)%Q.
Proof. change 0%Q with (- 0)%Q at 1. apply map_nth. Qed.

(** ** Binary search *)

Lemma bisect_left_step (fuel : nat) (a : list Q) (v : Q) (lo hi : nat) :
  bisect_left (S fuel) a v lo hi =
  if (lo <? hi)%nat then
    if Qlt_bool (nth (lo + (hi - lo) / 2) a 0%Q) v
    then bisect_left fuel a v (S (lo + (hi - lo) / 2)) hi
    else bisect_left fuel a v lo (lo + (hi - lo) / 2)
  else lo.
Proof. reflexivity. Qed.

(** On an ascending array the search window always encloses the insertion
    point: everything before the result is smaller than [v], nothing from
    the result on is. *)
Lemma bisect_left_spec (a : list Q) (v : Q) :
  ascending a ->
  forall fuel lo hi,
    (lo <= hi <= length a)%nat -> (hi - lo <= fuel)%nat ->
    (forall i, (i < lo)%nat -> (nth i a 0 < v)%Q) ->
    (forall i, (hi <= i < length a)%nat -> (v <= nth i a 0)%Q) ->
    (lo <= bisect_left fuel a v lo hi <= hi)%nat /\
    (forall i, (i < bisect_left fuel a v lo hi)%nat -> (nth i a 0 < v)%Q) /\
    (forall i, (bisect_left fuel a v lo hi <= i < length a)%nat -> (v <= nth i a 0)%Q).
Proof.
  intros Ha. induction fuel as [|fuel IH]; intros lo hi Hb Hf Hlo Hhi.
  - simpl. assert (lo = hi) by lia. subst hi. split; [lia | split; assumption].
  - rewrite bisect_left_step. destruct (lo <? hi)%nat eqn:Elt.
    + apply Nat.ltb_lt in Elt.
      assert (Hdiv : ((hi - lo) / 2 < hi - lo)%nat)
        by (apply Nat.div_lt; lia).
      set (mid := (lo + (hi - lo) / 2)%nat) in *.
      assert (Hmid : (lo <= mid < hi)%nat) by (unfold mid; lia).
      destruct (Qlt_bool (nth mid a 0%Q) v) eqn:Ecmp.
      * apply Qlt_bool_iff in Ecmp.
        assert (Hlo' : forall i, (i < S mid)%nat -> (nth i a 0 < v)%Q).
        { intros i Hi. apply Qle_lt_trans with (nth mid a 0%Q); [|exact Ecmp].
          apply ascending_nth_le; [exact Ha | lia]. }
        destruct (IH (S mid) hi) as [Hr [Hbelow Habove]];
          [lia | lia | exact Hlo' | exact Hhi |].
        split; [lia | split; assumption].
      * apply Qlt_bool_false_iff in Ecmp.
        assert (Hhi' : forall i, (mid <= i < length a)%nat -> (v <= nth i a 0)%Q).
        { intros i Hi. apply Qle_trans with (nth mid a 0%Q); [exact Ecmp|].
          apply ascending_nth_le; [exact Ha | lia]. }
        destruct (IH lo mid) as [Hr [Hbelow Habove]];
          [lia | lia | exact Hlo | exact Hhi' |].
        split; [lia | split; assumption].
    + apply Nat.ltb_ge in Elt. assert (lo = hi) by lia. subst hi.
      split; [lia | split; assumption].
Qed.

Lemma searchsorted_spec (a : list Q) (v : Q) :
  ascending a ->
  exists r : nat,
    searchsorted a v = Z.of_nat r /\ (r <= length a)%nat /\
    (forall i, (i < r)%nat -> (nth i a 0 < v)%Q) /\
    (forall i, (r <= i < length a)%nat -> (v <= nth i a 0)%Q).
Proof.
  intros Ha. exists (bisect_left (length a) a v 0 (length a)).
  destruct (bisect_left_spec a v Ha (length a) 0 (length a)) as [Hr [Hb Hab]].
  - lia.
  - lia.
  - intros i Hi. lia.
  - intros i Hi. lia.
  - split; [reflexivity | split; [lia | split; assumption]].
Qed.

(** The search never leaves the array, sorted or not. *)
Lemma bisect_left_range (a : list Q) (v : Q) :
  forall fuel lo hi, (lo <= hi)%nat ->
    (lo <= bisect_left fuel a v lo hi <= hi)%nat.
Proof.
  induction fuel as [|fuel IH]; intros lo hi Hb; [simpl; lia|].
  rewrite bisect_left_step.
  destruct (lo <? hi)%nat eqn:Elt; [|lia].
  apply Nat.ltb_lt in Elt.
  assert (Hdiv : ((hi - lo) / 2 < hi - lo)%nat) by (apply Nat.div_lt; lia).
  destruct (Qlt_bool _ v).
  - specialize (IH (S (lo + (hi - lo) / 2)) hi). lia.
  - specialize (IH lo (lo + (hi - lo) / 2)%nat). lia.
Qed.

(** The fuel of the search is enough on every array: any amount of at
    least the width of the window gives the same result. *)
Lemma bisect_left_fuel (a : list Q) (v : Q) :
  forall fuel fuel' lo hi,
    (hi - lo <= fuel)%nat -> (hi - lo <= fuel')%nat ->
    bisect_left fuel a v lo hi = bisect_left fuel' a v lo hi.
Proof.
  induction fuel as [|fuel IH]; intros fuel' lo hi Hf Hf'.
  - destruct fuel' as [|fuel']; [reflexivity|].
    rewrite bisect_left_step.
    replace (lo <? hi)%nat with false by (symmetry; apply Nat.ltb_ge; lia).
    reflexivity.
  - destruct fuel' as [|fuel'].
    + rewrite bisect_left_step.
      replace (lo <? hi)%nat with false by (symmetry; apply Nat.ltb_ge; lia).
      reflexivity.
    + rewrite !bisect_left_step.
      destruct (lo <? hi)%nat eqn:Elt; [|reflexivity].
      apply Nat.ltb_lt in Elt.
      assert (Hdiv : ((hi - lo) / 2 < hi - lo)%nat) by (apply Nat.div_lt; lia).
      destruct (Qlt_bool _ v); apply IH; lia.
Qed.

Lemma searchsorted_range (a : list Q) (v : Q) : 0 <= searchsorted a v <= len a.
Proof.
  unfold searchsorted, len.
  pose proof (bisect_left_range a v (length a) 0 (length a)). lia.
Qed.

(** ** Index locator *)

(** With two elements or more no subscript of [find_index] can fail, and
    the function reads as follows. *)
Lemma find_index_unfold (axis : list Q) (item : Q) :
  (2 <= length axis)%nat ->
  find_index axis item =
  if Qlt_bool (nth 1 axis 0%Q) (hd 0%Q axis) then
    if Qlt_bool (hd 0%Q axis) item then Ok 0
    else if Qlt_bool item (last axis 0%Q) then Ok (len axis - 1)
    else Ok (searchsorted (map Qopp axis) (- item)%Q)
  else
    if Qlt_bool item (hd 0%Q axis) then Ok 0
    else if Qlt_bool (last axis 0%Q) item then Ok (len axis - 1)
    else if (searchsorted axis item <? len axis)
            && Qeq_bool (nth (Z.to_nat (searchsorted axis item)) axis 0%Q) item
         then Ok (searchsorted axis item)
         else Ok (searchsorted axis item - 1).
Proof.
  intros Hlen. unfold find_index.
  assert (Hne : axis <> []) by (destruct axis; [simpl in Hlen; lia | discriminate]).
  rewrite (getitem_nth axis 0 0%Q) by (unfold len; lia).
  rewrite (getitem_nth axis 1 0%Q) by (unfold len; lia).
  rewrite (getitem_last axis 0%Q Hne). cbn [bind].
  replace (nth (Z.to_nat 0) axis 0%Q) with (hd 0%Q axis)
    by (destruct axis; reflexivity).
  change (Z.to_nat 1) with 1%nat.
  destruct (Qlt_bool (nth 1 axis 0%Q) (hd 0%Q axis)).
  - destruct (Qlt_bool (hd 0%Q axis) item); [reflexivity|].
    destruct (Qlt_bool item (last axis 0%Q)); reflexivity.
  - destruct (Qlt_bool item (hd 0%Q axis)); [reflexivity|].
    destruct (Qlt_bool (last axis 0%Q) item); [reflexivity|].
    destruct (searchsorted axis item <? len axis) eqn:Eins; cbn [andb bind].
    + apply Z.ltb_lt in Eins. pose proof (searchsorted_range axis item) as Hr.
      rewrite (getitem_nth axis _ 0%Q) by lia. cbn [bind]. reflexivity.
    + reflexivity.
Qed.

Lemma find_index_returns (axis : list Q) (item : Q) :
  (2 <= length axis)%nat -> exists k, find_index axis item = Ok k.
Proof.
  intros Hlen. rewrite (find_index_unfold axis item Hlen).
  repeat match goal with
         | |- context [if ?b then _ else _] => destruct b
         end; eexists; reflexivity.
Qed.

Lemma find_index_raises (axis : list Q) (item : Q) :
  (length axis < 2)%nat -> find_index axis item = Raise IndexError.
Proof.
  intros Hlen. destruct axis as [|a [|b axis]]; [reflexivity | reflexivity |].
  simpl in Hlen. lia.
Qed.

Lemma hd_nth (axis : list Q) : hd 0%Q axis = nth 0 axis 0%Q.
Proof. destruct axis; reflexivity. Qed.

(** The first two elements of a monotonic axis tell its direction. *)
Lemma ascending_direction (axis : list Q) :
  ascending axis -> (2 <= length axis)%nat ->
  Qlt_bool (nth 1 axis 0%Q) (hd 0%Q axis) = false.
Proof.
  intros Ha Hlen. apply Qlt_bool_false_iff. rewrite hd_nth.
  apply Qlt_le_weak, ascending_nth; [exact Ha | lia].
Qed.

Lemma descending_direction (axis : list Q) :
  descending axis -> (2 <= length axis)%nat ->
  Qlt_bool (nth 1 axis 0%Q) (hd 0%Q axis) = true.
Proof.
  intros Ha Hlen. apply Qlt_bool_iff. rewrite hd_nth.
  apply descending_nth; [exact Ha | lia].
Qed.

Lemma ascending_hd_le_last (axis : list Q) :
  ascending axis -> axis <> [] -> (hd 0 axis <= last axis 0)%Q.
Proof.
  intros Ha Hne. rewrite hd_nth, last_nth. apply ascending_nth_le; [exact Ha|].
  destruct axis; [congruence | simpl; lia].
Qed.

Lemma descending_last_le_hd (axis : list Q) :
  descending axis -> axis <> [] -> (last axis 0 <= hd 0 axis)%Q.
Proof.
  intros Ha Hne. rewrite hd_nth, last_nth.
  destruct (Nat.eq_dec 0 (length axis - 1)) as [E|E].
  - rewrite <- E. apply Qle_refl.
  - apply Qlt_le_weak, descending_nth; [exact Ha | lia].
Qed.

Lemma floor_index_intro (axis : list Q) (item : Q) (r : nat) :
  (r < length axis)%nat ->
  (nth r axis 0 <= item)%Q ->
  (forall j, (j < length axis)%nat -> (nth j axis 0 <= item)%Q ->
             (nth j axis 0 <= nth r axis 0)%Q) ->
  floor_index axis item (Z.of_nat r).
Proof.
  intros Hr Hle Hmax. split; [unfold len; lia|].
  exists (nth r axis 0%Q). split; [|split].
  - rewrite (getitem_nth axis _ 0%Q) by (unfold len; lia).
    rewrite Nat2Z.id. reflexivity.
  - exact Hle.
  - intros y Hy Hyle. destruct (In_nth axis y 0%Q Hy) as [j [Hj <-]].
    apply Hmax; assumption.
Qed.

(** In range on an ascending axis: the code follows the specified rule
    and returns the floor index. *)
Lemma find_index_ascending_in_range (axis : list Q) (item : Q) :
  ascending axis -> (2 <= length axis)%nat ->
  (hd 0 axis <= item)%Q -> (item <= last axis 0)%Q ->
  exists k, find_index axis item = Ok k /\ floor_index axis item k /\
            find_index_spec_in_range axis item = Ok k /\
            (k = searchsorted axis item \/ k = searchsorted axis item - 1).
Proof.
  intros Ha Hlen Hlo Hhi.
  assert (Hspec : find_index_spec_in_range axis item =
            if (searchsorted axis item <? len axis)
               && Qeq_bool (nth (Z.to_nat (searchsorted axis item)) axis 0%Q) item
            then Ok (searchsorted axis item) else Ok (searchsorted axis item - 1)).
  { unfold find_index_spec_in_range.
    rewrite (getitem_nth axis 0 0%Q) by (unfold len; lia).
    rewrite (getitem_nth axis 1 0%Q) by (unfold len; lia). cbn [bind].
    change (Z.to_nat 1) with 1%nat. change (Z.to_nat 0) with 0%nat.
    rewrite <- hd_nth, (ascending_direction axis Ha Hlen).
    destruct (searchsorted axis item <? len axis) eqn:Eins; cbn [andb bind].
    - apply Z.ltb_lt in Eins. pose proof (searchsorted_range axis item) as Hr.
      rewrite (getitem_nth axis _ 0%Q) by lia. reflexivity.
    - reflexivity. }
  rewrite Hspec, (find_index_unfold axis item Hlen),
    (ascending_direction axis Ha Hlen).
  replace (Qlt_bool item (hd 0%Q axis)) with false
    by (symmetry; apply Qlt_bool_false_iff; exact Hlo).
  replace (Qlt_bool (last axis 0%Q) item) with false
    by (symmetry; apply Qlt_bool_false_iff; exact Hhi).
  destruct (searchsorted_spec axis item Ha) as [r [Er [Hr [Hbelow Habove]]]].
  rewrite Er, Nat2Z.id.
  assert (Hrlt : (r < length axis)%nat).
  { destruct (Nat.eq_dec r (length axis)) as [->|]; [|lia].
    exfalso. specialize (Hbelow (length axis - 1)%nat).
    rewrite <- last_nth in Hbelow. apply (Qlt_not_le _ _ (Hbelow ltac:(lia)) Hhi). }
  replace (Z.of_nat r <? len axis) with true
    by (symmetry; apply Z.ltb_lt; unfold len; lia).
  cbn [andb].
  destruct (Qeq_bool (nth r axis 0%Q) item) eqn:Eeq.
  - apply Qeq_bool_iff in Eeq. exists (Z.of_nat r).
    split; [reflexivity | split; [|split; [reflexivity | left; reflexivity]]].
    apply floor_index_intro; [exact Hrlt | rewrite Eeq; apply Qle_refl |].
    intros j Hj Hjle. rewrite Eeq. exact Hjle.
  - assert (Hgt : (item < nth r axis 0)%Q).
    { pose proof (Habove r ltac:(lia)) as Hge.
      apply Qle_lt_or_eq in Hge as [Hlt|Heq]; [exact Hlt|].
      apply Qeq_sym, Qeq_bool_iff in Heq. congruence. }
    assert (Hpos : (0 < r)%nat).
    { destruct r; [|lia]. exfalso. rewrite <- hd_nth in Hgt.
      apply (Qlt_not_le _ _ Hgt Hlo). }
    exists (Z.of_nat r - 1).
    split; [reflexivity | split; [|split; [reflexivity | right; reflexivity]]].
    replace (Z.of_nat r - 1) with (Z.of_nat (r - 1)) by lia.
    apply floor_index_intro; [lia | apply Qlt_le_weak, Hbelow; lia |].
    intros j Hj Hjle.
    assert (Hjr : (j < r)%nat).
    { destruct (Nat.lt_ge_cases j r) as [|Hge]; [assumption|]. exfalso.
      assert (nth r axis 0 <= nth j axis 0)%Q
        by (apply ascending_nth_le; [exact Ha | lia]).
      lra. }
    apply ascending_nth_le; [exact Ha | lia].
Qed.

(** In range on a descending axis: the insertion point on the negated
    axis is returned as it is, and it is the floor index again. *)
Lemma find_index_descending_in_range (axis : list Q) (item : Q) :
  descending axis -> (2 <= length axis)%nat ->
  (last axis 0 <= item)%Q -> (item <= hd 0 axis)%Q ->
  find_index axis item = Ok (searchsorted (map Qopp axis) (- item)%Q) /\
  floor_index axis item (searchsorted (map Qopp axis) (- item)%Q).
Proof.
  intros Hd Hlen Hlo Hhi.
  rewrite (find_index_unfold axis item Hlen), (descending_direction axis Hd Hlen).
  replace (Qlt_bool (hd 0%Q axis) item) with false
    by (symmetry; apply Qlt_bool_false_iff; exact Hhi).
  replace (Qlt_bool item (last axis 0%Q)) with false
    by (symmetry; apply Qlt_bool_false_iff; exact Hlo).
  split; [reflexivity|].
  destruct (searchsorted_spec (map Qopp axis) (- item)%Q (descending_opp axis Hd))
    as [r [Er [Hr [Hbelow Habove]]]].
  rewrite length_map in Hr, Habove. rewrite Er.
  assert (Hrlt : (r < length axis)%nat).
  { destruct (Nat.eq_dec r (length axis)) as [->|]; [|lia].
    exfalso. specialize (Hbelow (length axis - 1)%nat ltac:(lia)).
    rewrite nth_opp, <- last_nth in Hbelow. lra. }
  apply floor_index_intro; [exact Hrlt | |].
  - specialize (Habove r ltac:(lia)). rewrite nth_opp in Habove. lra.
  - intros j Hj Hjle.
    destruct (Nat.lt_ge_cases j r) as [Hjr|Hge].
    + exfalso. specialize (Hbelow j Hjr). rewrite nth_opp in Hbelow. lra.
    + destruct (Nat.eq_dec j r) as [->|Hne]; [apply Qle_refl|].
      apply Qlt_le_weak, descending_nth; [exact Hd | lia].
Qed.

(** ** Slicer *)

Lemma progression_length (a d : Z) (m : nat) : length (progression a d m) = m.
Proof. unfold progression. rewrite length_map, length_seq. reflexivity. Qed.

Lemma progression_cons (a d : Z) (m : nat) :
  progression a d (S m) = a :: progression (a + d) d m.
Proof.
  unfold progression. cbn [seq map]. f_equal; [lia|].
  rewrite <- seq_shift, map_map. apply map_ext. intros j. lia.
Qed.

Lemma progression_snoc (a d : Z) (m : nat) :
  progression a d (S m) = progression a d m ++ [a + d * Z.of_nat m].
Proof.
  unfold progression. rewrite seq_S, map_app. reflexivity.
Qed.

Lemma progression_nth (a d : Z) (m i : nat) :
  (i < m)%nat -> nth i (progression a d m) 0 = a + d * Z.of_nat i.
Proof.
  intros Hi. unfold progression.
  rewrite (nth_indep _ 0 (a + d * Z.of_nat 0))
    by (rewrite length_map, length_seq; exact Hi).
  rewrite (map_nth (fun j => a + d * Z.of_nat j)), seq_nth by exact Hi.
  reflexivity.
Qed.

Lemma progression_in (a d : Z) (m : nat) (x : Z) :
  In x (progression a d m) <-> exists i, (i < m)%nat /\ x = a + d * Z.of_nat i.
Proof.
  unfold progression. rewrite in_map_iff. split.
  - intros [i [<- Hi]]. apply in_seq in Hi. exists i. split; [lia | reflexivity].
  - intros [i [Hi ->]]. exists i. split; [reflexivity | apply in_seq; lia].
Qed.

Lemma progression_sorted (a d : Z) (m : nat) :
  0 < d -> StronglySorted Z.lt (progression a d m).
Proof.
  intros Hd. revert a. induction m as [|m IH]; intros a.
  - constructor.
  - rewrite progression_cons. constructor; [apply IH|].
    apply Forall_forall. intros x Hx. apply progression_in in Hx.
    destruct Hx as [i [_ ->]]. nia.
Qed.

(** The loop of [calculate_slices] started on the boundaries
    [s, s + d, ..., s + (m + 1) * d]: it accepts [j] pairs, all of them in
    range and each taken while the counter was positive, and it stops
    because the counter is used up or the next pair is out of range. *)
Lemma outer_slices_shape (d L : Z) :
  0 < d ->
  forall (fuel : nat) (s : Z) (m : nat) (c : Z),
    (Z.to_nat c <= fuel)%nat ->
    exists j : nat,
      outer_slices fuel d L s (s + d * Z.of_nat (S m)) c (progression s d (S (S m)))
      = progression (s - d * Z.of_nat j) d (S (S m) + 2 * j) /\
      (forall i : nat, (1 <= i <= j)%nat ->
         0 <= s - d * Z.of_nat i /\ s + d * Z.of_nat (S m) + d * Z.of_nat i < L) /\
      (j = 0%nat \/ 2 * Z.of_nat j < c + 2) /\
      (c <= 2 * Z.of_nat j \/
       s - d * Z.of_nat (S j) < 0 \/ L <= s + d * Z.of_nat (S m) + d * Z.of_nat (S j)).
Proof.
  intros Hd. induction fuel as [|fuel IH]; intros s m c Hfuel.
  - exists 0%nat. cbn [outer_slices].
    replace (s - d * Z.of_nat 0) with s by lia.
    replace (S (S m) + 2 * 0)%nat with (S (S m)) by lia.
    split; [reflexivity | split; [intros i Hi; lia | split; [left; reflexivity | left; lia]]].
  - cbn [outer_slices]. destruct (c >? 0) eqn:Ec.
    + apply Z.gtb_lt in Ec.
      destruct ((s - d <? 0) || (s + d * Z.of_nat (S m) + d >=? L)) eqn:Eout.
      * exists 0%nat.
        replace (s - d * Z.of_nat 0) with s by lia.
        replace (S (S m) + 2 * 0)%nat with (S (S m)) by lia.
        split; [reflexivity | split; [intros i Hi; lia | split; [left; reflexivity|]]].
        right. apply orb_true_iff in Eout. destruct Eout as [E|E].
        -- apply Z.ltb_lt in E. left. lia.
        -- apply Z.geb_le in E. right. lia.
      * apply orb_false_iff in Eout. destruct Eout as [E1 E2].
        apply Z.ltb_ge in E1. rewrite Z.geb_leb in E2. apply Z.leb_gt in E2.
        assert (Hlist : (s - d) :: progression s d (S (S m)) ++ [s + d * Z.of_nat (S m) + d]
                        = progression (s - d) d (S (S (S (S m))))).
        { rewrite (progression_snoc (s - d) d (S (S (S m)))).
          rewrite (progression_cons (s - d) d (S (S m))).
          replace (s - d + d) with s by lia. cbn [app]. do 2 f_equal. f_equal. lia. }
        rewrite Hlist.
        replace (s + d * Z.of_nat (S m) + d) with (s - d + d * Z.of_nat (S (S (S m)))) by lia.
        destruct (IH (s - d) (S (S m)) (c - 2) ltac:(lia)) as [j [Hres [Hin [Hran Hstop]]]].
        exists (S j). rewrite Hres.
        split; [f_equal; lia|]. split; [|split].
        -- intros i Hi. destruct (Nat.eq_dec i 1) as [->|Hne]; [lia|].
           specialize (Hin (i - 1)%nat ltac:(lia)). lia.
        -- right. lia.
        -- lia.
    + exists 0%nat.
      replace (s - d * Z.of_nat 0) with s by lia.
      replace (S (S m) + 2 * 0)%nat with (S (S m)) by lia.
      split; [reflexivity | split; [intros i Hi; lia | split; [left; reflexivity|]]].
      left. destruct (Z.gtb_spec c 0); [discriminate | lia].
Qed.

(** The fuel of the loop is enough: any amount of at least the counter
    gives the same list. *)
Lemma outer_slices_fuel (d L : Z) :
  forall (fuel fuel' : nat) (s e c : Z) (l : list Z),
    (Z.to_nat c <= fuel)%nat -> (Z.to_nat c <= fuel')%nat ->
    outer_slices fuel d L s e c l = outer_slices fuel' d L s e c l.
Proof.
  induction fuel as [|fuel IH]; intros fuel' s e c l Hf Hf'.
  - destruct fuel' as [|fuel']; [reflexivity|]. cbn [outer_slices].
    destruct (Z.gtb_spec c 0); [lia | reflexivity].
  - destruct fuel' as [|fuel']; cbn [outer_slices].
    + destruct (Z.gtb_spec c 0); [lia | reflexivity].
    + destruct (Z.gtb_spec c 0); [|reflexivity].
      destruct ((s - d <? 0) || (e + d >=? L)); [reflexivity|].
      apply IH; lia.
Qed.

Lemma accepted_pairs_unique (ic n L N : Z) (j j' : nat) :
  accepted_pairs ic n L N j -> accepted_pairs ic n L N j' -> j = j'.
Proof.
  assert (Hlt : forall a b : nat, accepted_pairs ic n L N a ->
                  accepted_pairs ic n L N b -> (a < b)%nat -> False).
  { intros a b [_ [_ Hstop]] [Hin [Hran _]] Hab.
    specialize (Hin (S a) ltac:(lia)). lia. }
  intros Hj Hj'. destruct (Nat.lt_trichotomy j j') as [H|[H|H]].
  - exfalso. exact (Hlt j j' Hj Hj' H).
  - exact H.
  - exfalso. exact (Hlt j' j Hj' Hj H).
Qed.

(** What [calculate_slices] returns on an axis of two elements or more
    for an odd number of slices. *)
Lemma calculate_slices_shape (axis : list Q) (center standard_deviation scaling : Q)
    (number_of_slices : Z) :
  (2 <= length axis)%nat -> number_of_slices mod 2 <> 0 ->
  exists index_center index_half_slice,
    find_index axis center = Ok index_center /\
    find_index axis
      (center + scaling * standard_deviation / inject_Z number_of_slices / 2)%Q
      = Ok index_half_slice /\
    let n := half_slice index_center index_half_slice in
    ((index_center - n < 0 \/ len axis <= index_center + n) /\
     calculate_slices axis center standard_deviation scaling number_of_slices
     = Ok ([], n, None))
    \/
    (0 <= index_center - n /\ index_center + n < len axis /\
     exists (j : nat) (a_start a_end : Q),
       getitem axis (index_center - n) = Ok a_start /\
       getitem axis (index_center + n) = Ok a_end /\
       accepted_pairs index_center n (len axis) number_of_slices j /\
       calculate_slices axis center standard_deviation scaling number_of_slices
       = Ok (progression (index_center - n - 2 * n * Z.of_nat j) (2 * n) (2 + 2 * j),
             n, Some (Qabs (a_start - a_end)))).
Proof.
  intros Hlen Hodd.
  destruct (find_index_returns axis center Hlen) as [ic Hic].
  destruct (find_index_returns axis
              (center + scaling * standard_deviation / inject_Z number_of_slices / 2)%Q
              Hlen) as [ih Hih].
  exists ic, ih. split; [exact Hic | split; [exact Hih|]].
  unfold calculate_slices.
  replace (number_of_slices mod 2 =? 0) with false
    by (symmetry; apply Z.eqb_neq; exact Hodd).
  rewrite Hic, Hih. cbn [bind]. cbv zeta.
  replace (if Z.abs (ih - ic) <? 1 then 1 else Z.abs (ih - ic))
    with (half_slice ic ih)
    by (unfold half_slice; destruct (Z.ltb_spec (Z.abs (ih - ic)) 1); lia).
  assert (Hn : 1 <= half_slice ic ih) by (unfold half_slice; lia).
  set (n := half_slice ic ih) in *.
  destruct ((ic - n >=? 0) && (ic + n <? len axis)) eqn:Eguard.
  - right. apply andb_true_iff in Eguard. destruct Eguard as [E1 E2].
    rewrite Z.geb_leb in E1. apply Z.leb_le in E1. apply Z.ltb_lt in E2.
    split; [exact E1 | split; [exact E2|]].
    rewrite (getitem_nth axis (ic - n) 0%Q) by lia.
    rewrite (getitem_nth axis (ic + n) 0%Q) by lia. cbn [bind].
    destruct (outer_slices_shape (2 * n) (len axis) ltac:(lia)
                (Z.to_nat (number_of_slices - 1)) (ic - n) 0%nat
                (number_of_slices - 1) ltac:(lia))
      as [j [Hres [Hin [Hran Hstop]]]].
    exists j, (nth (Z.to_nat (ic - n)) axis 0%Q), (nth (Z.to_nat (ic + n)) axis 0%Q).
    split; [reflexivity | split; [reflexivity | split]].
    + split; [|split].
      * intros i Hi. specialize (Hin i Hi). lia.
      * destruct Hran as [->|Hran]; [left; reflexivity | right].
        assert (Hmod := Z.mod_pos_bound number_of_slices 2 ltac:(lia)).
        assert (Hdiv := Z.div_mod number_of_slices 2 ltac:(lia)). lia.
      * lia.
    + replace (ic - n + 2 * n * Z.of_nat 1) with (ic + n) in Hres by lia.
      assert (Hlist : progression (ic - n) (2 * n) 2 = [ic - n; ic + n]).
      { unfold progression. cbn [seq map]. f_equal; [lia | f_equal; lia]. }
      rewrite Hlist in Hres. rewrite Hres.
      replace (ic - n - 2 * n * Z.of_nat j) with (ic - n - 2 * n * Z.of_nat j) by lia.
      reflexivity.
  - left. split; [|reflexivity].
    apply andb_false_iff in Eguard. destruct Eguard as [E|E].
    + rewrite Z.geb_leb in E. apply Z.leb_gt in E. left. lia.
    + apply Z.ltb_ge in E. right. lia.
Qed.

Lemma odd_mod2 (n : Z) : Z.odd n = true -> n mod 2 <> 0.
Proof. intros Hodd. rewrite Zmod_odd, Hodd. discriminate. Qed.

Lemma even_mod2 (n : Z) : Z.odd n = false -> n mod 2 = 0.
Proof. intros Hodd. rewrite Zmod_odd, Hodd. reflexivity. Qed.

(** An even number of slices is refused before anything else is done. *)
Lemma calculate_slices_even (axis : list Q) (center standard_deviation scaling : Q)
    (number_of_slices : Z) :
  Z.odd number_of_slices = false ->
  calculate_slices axis center standard_deviation scaling number_of_slices
  = Raise ValueError.
Proof.
  intros Heven. unfold calculate_slices.
  rewrite (even_mod2 _ Heven). reflexivity.
Qed.

(** A result of [calculate_slices] means an odd number of slices and an
    axis on which both indices could be located. *)
Lemma calculate_slices_ok_inv (axis : list Q) (center standard_deviation scaling : Q)
    (number_of_slices : Z) (r : list Z * Z * option Q) :
  calculate_slices axis center standard_deviation scaling number_of_slices = Ok r ->
  Z.odd number_of_slices = true /\ (2 <= length axis)%nat.
Proof.
  intros Hok. split.
  - destruct (Z.odd number_of_slices) eqn:Eodd; [reflexivity|].
    rewrite (calculate_slices_even _ _ _ _ _ Eodd) in Hok. discriminate.
  - destruct (Nat.lt_ge_cases (length axis) 2) as [Hshort|Hlong]; [|exact Hlong].
    unfold calculate_slices in Hok.
    destruct (number_of_slices mod 2 =? 0); [discriminate|].
    rewrite (find_index_raises axis center Hshort) in Hok. discriminate.
Qed.

(** The boundary list of a result is empty or an arithmetic progression
    of an even number of in-range indices with step [2 * n]. *)
Lemma calculate_slices_boundaries_shape (axis : list Q)
    (center standard_deviation scaling : Q) (number_of_slices : Z)
    (l : list Z) (n : Z) (slice_length : option Q) :
  calculate_slices axis center standard_deviation scaling number_of_slices
  = Ok (l, n, slice_length) ->
  1 <= n /\
  (l = [] \/
   exists (first : Z) (j : nat),
     0 <= first /\ first + 2 * n * Z.of_nat (1 + 2 * j) < len axis /\
     l = progression first (2 * n) (2 + 2 * j)).
Proof.
  intros Hok. destruct (calculate_slices_ok_inv _ _ _ _ _ _ Hok) as [Hodd Hlen].
  destruct (calculate_slices_shape axis center standard_deviation scaling
              number_of_slices Hlen (odd_mod2 _ Hodd))
    as [ic [ih [_ [_ Hcases]]]].
  cbv zeta in Hcases.
  assert (Hn : 1 <= half_slice ic ih) by (unfold half_slice; lia).
  destruct Hcases as [[_ Hres] | [Hlo [Hhi [j [a_start [a_end [_ [_ [Hacc Hres]]]]]]]]];
    rewrite Hres in Hok; injection Hok as <- <- <-.
  - split; [exact Hn | left; reflexivity].
  - split; [exact Hn | right].
    exists (ic - half_slice ic ih - 2 * half_slice ic ih * Z.of_nat j), j.
    split; [|split; [|reflexivity]].
    + destruct j as [|j]; [lia|]. destruct Hacc as [Hin _].
      specialize (Hin (S j) ltac:(lia)). lia.
    + destruct j as [|j]; [lia|]. destruct Hacc as [Hin _].
      specialize (Hin (S j) ltac:(lia)). lia.
Qed.

(** ** Windows of the slices *)

Lemma adjacent_pairs_progression (a d : Z) (m : nat) :
  adjacent_pairs (progression a d (S (S m)))
  = (a, a + d) :: adjacent_pairs (progression (a + d) d (S m)).
Proof.
  rewrite (progression_cons a d (S m)).
  rewrite (progression_cons (a + d) d m). reflexivity.
Qed.

Lemma slice_windows_beyond (size a d : Z) (m : nat) :
  0 < d -> size <= a -> slice_windows size (progression a d m) = [].
Proof.
  intros Hd. revert a. induction m as [|m IH]; intros a Ha; [reflexivity|].
  destruct m as [|m]; [reflexivity|].
  unfold slice_windows. rewrite adjacent_pairs_progression. cbn [filter fst snd].
  replace (a <? size) with false by (symmetry; apply Z.ltb_ge; exact Ha).
  cbn [andb]. apply (IH (a + d)). lia.
Qed.

Lemma slice_windows_progression (size d : Z) :
  0 < d ->
  forall (m : nat) (a : Z),
    Forall (fun w => snd w - fst w = d /\ a <= fst w /\ snd w < size)
           (slice_windows size (progression a d m)) /\
    contiguous (slice_windows size (progression a d m)) /\
    (forall w rest, slice_windows size (progression a d m) = w :: rest -> fst w = a).
Proof.
  intros Hd. induction m as [|m IH]; intros a.
  - split; [constructor | split; [exact I | discriminate]].
  - destruct m as [|m].
    + split; [constructor | split; [exact I | discriminate]].
    + destruct (IH (a + d)) as [Hall [Hcont Hhead]].
      unfold slice_windows in *. rewrite adjacent_pairs_progression.
      cbn [filter fst snd].
      destruct ((a <? size) && (a + d <? size)) eqn:Eguard.
      * apply andb_true_iff in Eguard. destruct Eguard as [E1 E2].
        apply Z.ltb_lt in E1. apply Z.ltb_lt in E2.
        split; [|split].
        -- constructor; [cbn [fst snd]; lia|].
           eapply Forall_impl; [|exact Hall]. cbv beta. intros w Hw. lia.
        -- destruct (filter _ (adjacent_pairs (progression (a + d) d (S m))))
             as [|w' rest'] eqn:Erest; [exact I|].
           cbn [contiguous fst snd]. split; [|exact Hcont].
           symmetry. eapply Hhead. reflexivity.
        -- intros w rest [= <- _]. reflexivity.
      * assert (Hbeyond : size <= a + d).
        { apply andb_false_iff in Eguard. destruct Eguard as [E|E];
            apply Z.ltb_ge in E; lia. }
        pose proof (slice_windows_beyond size (a + d) d (S m) Hd Hbeyond) as Hnil.
        unfold slice_windows in Hnil. rewrite Hnil.
        split; [constructor | split; [exact I | discriminate]].
Qed.

Lemma pyslice_length {A : Type} (l : list A) (a b : Z) :
  0 <= a <= b -> b <= len l -> len (pyslice l a b) = b - a.
Proof.
  intros Hab Hb. unfold pyslice, slice_bound, len in *.
  rewrite length_firstn, length_skipn.
  destruct (Z.ltb_spec a 0); destruct (Z.ltb_spec b 0); lia.
Qed.

(** ** The claims on the index locator *)

(** C9.  On a monotonic axis of at least two elements [find_index] clamps
    a value outside the axis: on an ascending axis a value below the
    first element gives index 0 and a value above the last element gives
    the last index; on a descending axis a value above the first element
    gives index 0 and a value below the last element gives the last
    index. *)
Theorem find_index_clamps (axis : list Q) (item : Q) :
  monotonic axis -> (2 <= length axis)%nat ->
  (ascending axis ->
     ((item < hd 0 axis)%Q -> find_index axis item = Ok 0) /\
     ((last axis 0 < item)%Q -> find_index axis item = Ok (len axis - 1))) /\
  (descending axis ->
     ((hd 0 axis < item)%Q -> find_index axis item = Ok 0) /\
     ((item < last axis 0)%Q -> find_index axis item = Ok (len axis - 1))).
Proof.
  intros _ Hlen.
  assert (Hne : axis <> []) by (destruct axis; [simpl in Hlen; lia | discriminate]).
  split; intros Hdir; split; intros Hout; rewrite (find_index_unfold axis item Hlen).
  - rewrite (ascending_direction axis Hdir Hlen).
    apply Qlt_bool_iff in Hout. rewrite Hout. reflexivity.
  - rewrite (ascending_direction axis Hdir Hlen).
    pose proof (ascending_hd_le_last axis Hdir Hne) as Hle.
    replace (Qlt_bool item (hd 0%Q axis)) with false
      by (symmetry; apply Qlt_bool_false_iff; lra).
    apply Qlt_bool_iff in Hout. rewrite Hout. reflexivity.
  - rewrite (descending_direction axis Hdir Hlen).
    apply Qlt_bool_iff in Hout. rewrite Hout. reflexivity.
  - rewrite (descending_direction axis Hdir Hlen).
    pose proof (descending_last_le_hd axis Hdir Hne) as Hle.
    replace (Qlt_bool (hd 0%Q axis) item) with false
      by (symmetry; apply Qlt_bool_false_iff; lra).
    apply Qlt_bool_iff in Hout. rewrite Hout. reflexivity.
Qed.

Lemma ascending_6789 : ascending [6; 7; 8; 9]%Q.
Proof. unfold ascending. repeat constructor. Defined.

Lemma descending_9876 : descending [9; 8; 7; 6]%Q.
Proof. unfold descending. repeat constructor. Defined.

Lemma find_index_clamps_witness :
  find_index [6; 7; 8; 9]%Q 10 = Ok 3 /\ find_index [9; 8; 7; 6]%Q 10 = Ok 0.
Proof.
  split.
  - apply (proj2 (proj1 (find_index_clamps [6; 7; 8; 9]%Q 10
                           (or_introl ascending_6789) ltac:(simpl; lia))
                        ascending_6789)).
    reflexivity.
  - apply (proj1 (proj2 (find_index_clamps [9; 8; 7; 6]%Q 10
                           (or_intror descending_9876) ltac:(simpl; lia))
                        descending_9876)).
    reflexivity.
Defined.

(** C2, as the code has it.  For a strictly monotonic axis of at least
    two elements and a value within its range, [find_index] returns the
    index of the largest axis value that is at most the value.  On an
    ascending axis this is the specified rule: the insertion point when
    the axis value there equals the value, the index one below it
    otherwise.  On a descending axis the insertion point on the negated
    axis and value is returned as it is, with no test for equality and no
    step down. *)
Theorem find_index_in_range (axis : list Q) (item : Q) :
  (2 <= length axis)%nat ->
  (ascending axis -> (hd 0 axis <= item)%Q -> (item <= last axis 0)%Q ->
     exists k, find_index axis item = Ok k /\ floor_index axis item k /\
               find_index_spec_in_range axis item = Ok k) /\
  (descending axis -> (last axis 0 <= item)%Q -> (item <= hd 0 axis)%Q ->
     find_index axis item = Ok (searchsorted (map Qopp axis) (- item)%Q) /\
     floor_index axis item (searchsorted (map Qopp axis) (- item)%Q)).
Proof.
  intros Hlen. split.
  - intros Ha Hlo Hhi.
    destruct (find_index_ascending_in_range axis item Ha Hlen Hlo Hhi)
      as [k [Hk [Hfloor [Hspec _]]]].
    exists k. split; [exact Hk | split; [exact Hfloor | exact Hspec]].
  - intros Hd Hlo Hhi. exact (find_index_descending_in_range axis item Hd Hlen Hlo Hhi).
Qed.

Lemma find_index_in_range_witness :
  (exists k, find_index [6; 7; 8; 9]%Q (15 # 2) = Ok k /\
             floor_index [6; 7; 8; 9]%Q (15 # 2) k /\
             find_index_spec_in_range [6; 7; 8; 9]%Q (15 # 2) = Ok k) /\
  find_index [9; 8; 7; 6]%Q (15 # 2) = Ok 2.
Proof.
  split.
  - apply (proj1 (find_index_in_range [6; 7; 8; 9]%Q (15 # 2) ltac:(simpl; lia))).
    + exact ascending_6789.
    + discriminate.
    + discriminate.
  - apply (proj2 (find_index_in_range [9; 8; 7; 6]%Q (15 # 2) ltac:(simpl; lia))).
    + exact descending_9876.
    + discriminate.
    + discriminate.
Defined.

(** C2, as the claim states it, fails on a descending axis: the axis
    [9, 8, 7, 6] and the value 7.5 are in range, the insertion point on
    the negated axis is 2 and the axis value there is not 7.5, so the
    specified rule gives index 1; [find_index] returns 2. *)
Lemma find_index_descending_counterexample :
  descending [9; 8; 7; 6]%Q /\
  (last [9; 8; 7; 6] 0 <= 15 # 2)%Q /\ (15 # 2 <= hd 0 [9; 8; 7; 6])%Q /\
  searchsorted (map Qopp [9; 8; 7; 6]%Q) (- (15 # 2))%Q = 2 /\
  getitem [9; 8; 7; 6]%Q 2 = Ok 7%Q /\ ~ (7 == 15 # 2)%Q /\
  find_index_spec_in_range [9; 8; 7; 6]%Q (15 # 2) = Ok 1 /\
  find_index [9; 8; 7; 6]%Q (15 # 2) = Ok 2 /\
  find_index [9; 8; 7; 6]%Q (15 # 2) <> find_index_spec_in_range [9; 8; 7; 6]%Q (15 # 2).
Proof.
  split; [exact descending_9876|].
  repeat split; try reflexivity; try discriminate.
Qed.

(** ** The claims on the slicer *)

(** C4.  For an odd number of slices [calculate_slices] returns a result
    on every axis of at least two elements, monotonic or not, and the
    boundary list of any result has even length, is strictly increasing
    and holds only indices of the axis. *)
Theorem calculate_slices_boundaries (axis : list Q)
    (center standard_deviation scaling : Q) (number_of_slices : Z) :
  Z.odd number_of_slices = true ->
  ((2 <= length axis)%nat ->
   raises (calculate_slices axis center standard_deviation scaling number_of_slices)
   = false) /\
  forall (l : list Z) (n : Z) (slice_length : option Q),
    calculate_slices axis center standard_deviation scaling number_of_slices
    = Ok (l, n, slice_length) ->
    Nat.Even (length l) /\
    StronglySorted Z.lt l /\
    Forall (fun b => 0 <= b < len axis) l.
Proof.
  intros Hodd. split.
  - intros Hlen.
    destruct (calculate_slices_shape axis center standard_deviation scaling
                number_of_slices Hlen (odd_mod2 _ Hodd))
      as [ic [ih [_ [_ Hcases]]]].
    cbv zeta in Hcases.
    destruct Hcases as [[_ Hres] | [_ [_ [j [a_start [a_end [_ [_ [_ Hres]]]]]]]]];
      rewrite Hres; reflexivity.
  - intros l n slice_length Hok.
    destruct (calculate_slices_boundaries_shape _ _ _ _ _ _ _ _ Hok)
      as [Hn [-> | [first [j [Hfirst [Hlast ->]]]]]].
    + split; [exists 0%nat; reflexivity | split; constructor].
    + split; [|split].
      * rewrite progression_length. exists (1 + j)%nat. lia.
      * apply progression_sorted. lia.
      * apply Forall_forall. intros b Hb. apply progression_in in Hb.
        destruct Hb as [i [Hi ->]]. nia.
Qed.

Lemma calculate_slices_boundaries_witness :
  Nat.Even (length [0; 2; 4; 6; 8; 10]) /\
  StronglySorted Z.lt [0; 2; 4; 6; 8; 10] /\
  Forall (fun b => 0 <= b < len [0; 1; 2; 3; 4; 5; 6; 7; 8; 9; 10]%Q) [0; 2; 4; 6; 8; 10].
Proof.
  apply (proj2 (calculate_slices_boundaries [0; 1; 2; 3; 4; 5; 6; 7; 8; 9; 10]%Q
                  5 9 2 9 eq_refl)
           [0; 2; 4; 6; 8; 10] 1 (Some 2%Q)).
  vm_compute. reflexivity.
Defined.

(** C5.  With [index_center] and [index_half_slice] located and [n] the
    half slice in pixels: when the central slice
    [index_center - n, index_center + n] exceeds the axis, the result is
    the empty boundary list with no [slice_length], and nothing is
    raised; otherwise the boundaries are the central pair extended by [j]
    accepted pairs, each [2 * n] pixels outside the previous one, where
    [j] is the one number of pairs that are all in range and after which
    either all slices are placed or the next pair is out of range. *)
Theorem calculate_slices_truncation (axis : list Q)
    (center standard_deviation scaling : Q) (number_of_slices : Z)
    (index_center index_half_slice : Z) :
  Z.odd number_of_slices = true ->
  find_index axis center = Ok index_center ->
  find_index axis
    (center + scaling * standard_deviation / inject_Z number_of_slices / 2)%Q
    = Ok index_half_slice ->
  let n := half_slice index_center index_half_slice in
  1 <= n /\
  (index_center - n < 0 \/ len axis <= index_center + n ->
   calculate_slices axis center standard_deviation scaling number_of_slices
   = Ok ([], n, None)) /\
  (0 <= index_center - n -> index_center + n < len axis ->
   exists (j : nat) (a_start a_end : Q),
     getitem axis (index_center - n) = Ok a_start /\
     getitem axis (index_center + n) = Ok a_end /\
     accepted_pairs index_center n (len axis) number_of_slices j /\
     (forall j', accepted_pairs index_center n (len axis) number_of_slices j' -> j' = j) /\
     calculate_slices axis center standard_deviation scaling number_of_slices
     = Ok (progression (index_center - n - 2 * n * Z.of_nat j) (2 * n) (2 + 2 * j),
           n, Some (Qabs (a_start - a_end)))).
Proof.
  intros Hodd Hic Hih n.
  assert (Hlen : (2 <= length axis)%nat).
  { destruct (Nat.lt_ge_cases (length axis) 2) as [Hshort|Hlong]; [|exact Hlong].
    rewrite (find_index_raises axis center Hshort) in Hic. discriminate. }
  destruct (calculate_slices_shape axis center standard_deviation scaling
              number_of_slices Hlen (odd_mod2 _ Hodd))
    as [ic [ih [Hic' [Hih' Hcases]]]].
  rewrite Hic in Hic'. injection Hic' as <-.
  rewrite Hih in Hih'. injection Hih' as <-.
  cbv zeta in Hcases. fold n in Hcases.
  split; [unfold n, half_slice; lia|].
  destruct Hcases as [[Hout Hres] | [Hlo [Hhi [j [a_start [a_end [Hs [He [Hacc Hres]]]]]]]]].
  - split; [intros _; exact Hres | intros; lia].
  - split; [intros; lia | intros _ _].
    exists j, a_start, a_end.
    split; [exact Hs | split; [exact He | split; [exact Hacc | split; [|exact Hres]]]].
    intros j' Hacc'. exact (accepted_pairs_unique _ _ _ _ _ _ Hacc' Hacc).
Qed.

Lemma calculate_slices_truncation_witness :
  calculate_slices [0; 1; 2; 3]%Q 0 1 2 3 = Ok ([], 1, None) /\
  exists (j : nat) (a_start a_end : Q),
    getitem [0; 1; 2; 3; 4; 5; 6; 7; 8; 9; 10]%Q (5 - 1) = Ok a_start /\
    getitem [0; 1; 2; 3; 4; 5; 6; 7; 8; 9; 10]%Q (5 + 1) = Ok a_end /\
    accepted_pairs 5 1 11 9 j /\
    (forall j', accepted_pairs 5 1 11 9 j' -> j' = j) /\
    calculate_slices [0; 1; 2; 3; 4; 5; 6; 7; 8; 9; 10]%Q 5 9 2 9
    = Ok (progression (5 - 1 - 2 * 1 * Z.of_nat j) (2 * 1) (2 + 2 * j), 1,
          Some (Qabs (a_start - a_end))).
Proof.
  split.
  - apply (proj1 (proj2 (calculate_slices_truncation [0; 1; 2; 3]%Q 0 1 2 3 0 0
                           eq_refl eq_refl eq_refl))).
    left. reflexivity.
  - apply (proj2 (proj2 (calculate_slices_truncation
                           [0; 1; 2; 3; 4; 5; 6; 7; 8; 9; 10]%Q 5 9 2 9 5 6
                           eq_refl eq_refl eq_refl))).
    + discriminate.
    + reflexivity.
Defined.

(** C10.  A non-empty boundary list of [calculate_slices] is an
    arithmetic progression with step [2 * n], where [n >= 1] is the
    returned half-slice pixel count; the windows that
    [get_x_slices_data] and [get_y_slices_data] take from it, one per
    adjacent pair within the image size, are [2 * n] pixels wide, each
    ends where the next one starts, and the slice of a row of the image
    has [2 * n] pixels. *)
Theorem calculate_slices_equal_width (axis : list Q)
    (center standard_deviation scaling : Q) (number_of_slices : Z)
    (l : list Z) (n : Z) (slice_length : option Q) :
  calculate_slices axis center standard_deviation scaling number_of_slices
  = Ok (l, n, slice_length) ->
  l <> [] ->
  1 <= n /\
  l = progression (hd 0 l) (2 * n) (length l) /\
  (forall i : nat, (S i < length l)%nat -> nth (S i) l 0 - nth i l 0 = 2 * n) /\
  forall size : Z,
    Forall (fun w => snd w - fst w = 2 * n /\ 0 <= fst w /\ snd w < size)
           (slice_windows size l) /\
    contiguous (slice_windows size l) /\
    forall (A : Type) (row : list A) (w : Z * Z),
      len row = size -> In w (slice_windows size l) ->
      len (pyslice row (fst w) (snd w)) = 2 * n.
Proof.
  intros Hok Hne.
  destruct (calculate_slices_boundaries_shape _ _ _ _ _ _ _ _ Hok)
    as [Hn [-> | [first [j [Hfirst [Hlast ->]]]]]]; [congruence|].
  split; [exact Hn|].
  assert (Hhd : hd 0 (progression first (2 * n) (2 + 2 * j)) = first).
  { change (2 + 2 * j)%nat with (S (S (2 * j))). rewrite progression_cons. reflexivity. }
  rewrite Hhd, progression_length.
  split; [reflexivity|]. split.
  - intros i Hi. rewrite !progression_nth by lia. lia.
  - intros size.
    destruct (slice_windows_progression size (2 * n) ltac:(lia) (2 + 2 * j) first)
      as [Hall [Hcont _]].
    split; [|split; [exact Hcont|]].
    + eapply Forall_impl; [|exact Hall]. cbv beta. intros w Hw. lia.
    + intros A row w Hrow Hw. rewrite Forall_forall in Hall.
      specialize (Hall w Hw). rewrite pyslice_length; lia.
Qed.

Lemma calculate_slices_equal_width_witness :
  1 <= 1 /\
  [0; 2; 4; 6; 8; 10] = progression (hd 0 [0; 2; 4; 6; 8; 10]) (2 * 1) 6 /\
  contiguous (slice_windows 9 [0; 2; 4; 6; 8; 10]).
Proof.
  destruct (calculate_slices_equal_width [0; 1; 2; 3; 4; 5; 6; 7; 8; 9; 10]%Q
              5 9 2 9 [0; 2; 4; 6; 8; 10] 1 (Some 2%Q))
    as [Hn [Hprog [_ Hwin]]].
  - vm_compute. reflexivity.
  - discriminate.
  - split; [exact Hn | split; [exact Hprog | exact (proj1 (proj2 (Hwin 9)))]].
Defined.

(** ** Image preprocessor *)

Lemma map2_nth_error {A B C : Type} (f : A -> B -> C) (l : list A) (m : list B) (i : nat) :
  nth_error (map2 f l m) i =
  match nth_error l i, nth_error m i with
  | Some a, Some b => Some (f a b)
  | _, _ => None
  end.
Proof.
  revert m i. induction l as [|a l IH]; intros m i.
  - destruct i; reflexivity.
  - destruct m as [|b m].
    + destruct i; cbn [map2 nth_error]; [reflexivity|].
      destruct (nth_error l i); reflexivity.
    + destruct i; cbn [map2 nth_error]; [reflexivity | apply IH].
Qed.

Lemma map2_length {A B C : Type} (f : A -> B -> C) (l : list A) (m : list B) :
  length (map2 f l m) = Nat.min (length l) (length m).
Proof.
  revert m. induction l as [|a l IH]; intros [|b m]; cbn [map2 length]; try reflexivity.
  rewrite IH. reflexivity.
Qed.

Lemma pixel_map2 (f : Z -> Z -> Z) (im bg : image) (r c : nat) :
  pixel (map2 (map2 f) im bg) r c =
  match pixel im r c, pixel bg r c with
  | Some a, Some b => Some (f a b)
  | _, _ => None
  end.
Proof.
  unfold pixel. rewrite map2_nth_error.
  destruct (nth_error im r) as [row|]; [|reflexivity].
  destruct (nth_error bg r) as [row'|].
  - apply map2_nth_error.
  - destruct (nth_error row c); reflexivity.
Qed.

Lemma map2_fuse {A B C D E : Type} (h : C -> D -> E) (f : B -> A -> C) (g : A -> B -> D)
    (l : list A) (m : list B) :
  map2 h (map2 f m l) (map2 g l m) = map2 (fun a b => h (f b a) (g a b)) l m.
Proof.
  revert m. induction l as [|a l IH]; intros [|b m]; cbn [map2]; try reflexivity.
  f_equal. apply IH.
Qed.

Lemma wrap_in_range (dt : dtype) (z : Z) : in_range dt (wrap dt z).
Proof.
  unfold in_range, wrap. destruct dt; cbn [signed bits];
    match goal with
    | |- context [?a mod ?m] =>
        pose proof (Z.mod_pos_bound a m ltac:(reflexivity))
    end; lia.
Qed.

Lemma wrap_small (dt : dtype) (z : Z) : in_range dt z -> wrap dt z = z.
Proof.
  unfold in_range, wrap. destruct dt; cbn [signed bits]; intros Hz;
    rewrite Z.mod_small by lia; lia.
Qed.

Lemma wrap_unsigned_nonneg (dt : dtype) (z : Z) : signed dt = false -> 0 <= wrap dt z.
Proof.
  intros Hu. pose proof (wrap_in_range dt z) as Hr.
  unfold in_range in Hr. rewrite Hu in Hr. lia.
Qed.

Lemma uint16_bounds (z : Z) : 0 <= uint16 z < 65536.
Proof. unfold uint16. apply Z.mod_pos_bound. lia. Qed.

Lemma uint16_le (z : Z) : 0 <= z -> uint16 z <= z.
Proof. intros Hz. unfold uint16. apply Z.mod_le; lia. Qed.

Lemma shape_eqb_eq (s t : Z * Z) : shape_eqb s t = true <-> s = t.
Proof.
  destruct s as [a b], t as [c d]. unfold shape_eqb. cbn [fst snd].
  rewrite andb_true_iff, !Z.eqb_eq. split; [intros [-> ->]; reflexivity|].
  intros [= -> ->]. split; reflexivity.
Qed.

Lemma map2_map2_fuse {A B C D E : Type} (h : C -> D -> E) (f : B -> A -> C)
    (g : A -> B -> D) (l : list (list A)) (m : list (list B)) :
  map2 (map2 h) (map2 (map2 f) m l) (map2 (map2 g) l m)
  = map2 (map2 (fun a b => h (f b a) (g a b))) l m.
Proof.
  rewrite map2_fuse.
  revert m. induction l as [|row l IH]; intros [|row' m]; cbn [map2]; try reflexivity.
  f_equal; [apply map2_fuse | apply IH].
Qed.

(** The three array steps of [subtract_background] amount to one rule
    per pixel. *)
Lemma subtract_background_pixelwise (im bg : ndarray) :
  nd_shape im = nd_shape bg ->
  subtract_background im bg
  = Ok {| nd_dtype := nd_dtype im;
          nd_width := nd_width im;
          nd_rows := map2 (map2 (fun a b => if b >? a then 0
                                            else wrap (nd_dtype im) (a - uint16 b)))
                          (nd_rows im) (nd_rows bg) |}.
Proof.
  intros Hshape. unfold subtract_background. rewrite Hshape.
  replace (shape_eqb (nd_shape bg) (nd_shape bg)) with true
    by (symmetry; apply shape_eqb_eq; reflexivity).
  cbn [negb]. rewrite map2_map2_fuse. reflexivity.
Qed.




(** ** Good region *)

Lemma first_below_result (profile : list Q) (threshold_value : Q) (indices : list Z)
    (bound k : Z) :
  first_below profile threshold_value indices bound = Ok k ->
  k = bound \/
  (In k indices /\ exists p, getitem profile k = Ok p /\ (p < threshold_value)%Q).
Proof.
  induction indices as [|i rest IH]; cbn [first_below].
  - intros [= <-]. left. reflexivity.
  - destruct (getitem profile i) as [p|e] eqn:Ep; cbn [bind]; [|discriminate].
    destruct (Qlt_bool p threshold_value) eqn:Elt.
    + intros [= <-]. right. split; [left; reflexivity|].
      exists p. split; [exact Ep | apply Qlt_bool_iff; exact Elt].
    + intros Hk. destruct (IH Hk) as [->|[Hin Hp]]; [left; reflexivity | right].
      split; [right; exact Hin | exact Hp].
Qed.

Lemma range_down_in (start stop k : Z) :
  In k (range_down start stop) <-> stop < k <= start.
Proof.
  unfold range_down. rewrite in_map_iff. split.
  - intros [i [<- Hi]]. apply in_seq in Hi. lia.
  - intros Hk. exists (Z.to_nat (start - k)). split; [lia | apply in_seq; lia].
Qed.

(** The scan to the left runs over [range(index_maximum, 0, -1)], which
    ends at index 1: the start bound is never index 0 unless the maximum
    is there, whatever the value at index 0. *)
Lemma good_region_start_positive (profile : list Q) (threshold threshold_value : Q)
    (index_maximum index_start index_end : Z) :
  good_region_core profile threshold
  = Ok (threshold_value, index_maximum, index_start, index_end) ->
  1 <= index_maximum -> 1 <= index_start.
Proof.
  unfold good_region_core. intros Hcore Hmax.
  destruct (np_min profile) as [mn|]; cbn [bind] in Hcore; [|discriminate].
  destruct (np_max profile) as [mx|]; cbn [bind] in Hcore; [|discriminate].
  destruct (np_argmax profile) as [im|]; cbn [bind] in Hcore; [|discriminate].
  destruct (first_below profile _ (range_down im 0) im) as [s|] eqn:Es;
    cbn [bind] in Hcore; [|discriminate].
  destruct (first_below profile _ (range im (len profile)) im) as [e|];
    cbn [bind] in Hcore; [|discriminate].
  injection Hcore as _ <- <- _.
  destruct (first_below_result _ _ _ _ _ Es) as [->|[Hin _]]; [exact Hmax|].
  apply range_down_in in Hin. lia.
Qed.

(** The part of C6 on profiles without a point below the threshold: both
    bounds keep the index of the maximum. *)
Lemma good_region_no_match (profile : list Q) (threshold threshold_value : Q)
    (index_maximum index_start index_end : Z) :
  good_region_core profile threshold
  = Ok (threshold_value, index_maximum, index_start, index_end) ->
  (forall p, In p profile -> (threshold_value <= p)%Q) ->
  index_start = index_maximum /\ index_end = index_maximum.
Proof.
  unfold good_region_core. intros Hcore Hflat.
  destruct (np_min profile) as [mn|]; cbn [bind] in Hcore; [|discriminate].
  destruct (np_max profile) as [mx|]; cbn [bind] in Hcore; [|discriminate].
  destruct (np_argmax profile) as [im|]; cbn [bind] in Hcore; [|discriminate].
  destruct (first_below profile _ (range_down im 0) im) as [s|] eqn:Es;
    cbn [bind] in Hcore; [|discriminate].
  destruct (first_below profile _ (range im (len profile)) im) as [e|] eqn:Ee;
    cbn [bind] in Hcore; [|discriminate].
  injection Hcore as <- <- <- <-.
  split.
  - destruct (first_below_result _ _ _ _ _ Es) as [->|[_ [p [Hp Hlt]]]]; [reflexivity|].
    exfalso. apply getitem_in in Hp. specialize (Hflat p Hp). lra.
  - destruct (first_below_result _ _ _ _ _ Ee) as [->|[_ [p [Hp Hlt]]]]; [reflexivity|].
    exfalso. apply getitem_in in Hp. specialize (Hflat p Hp). lra.
Qed.

(** C6 at the profile [0, 10] with the default threshold 0.3 and scale
    1.8: the threshold value is 3 and the maximum is at index 1; the
    value at index 0 is below the threshold, so the first index below the
    threshold to the left of the maximum is 0, but the scan stops at
    index 1 and the start bound stays 1; the returned region is (1, 1). *)
Theorem good_region_skips_index_zero :
  exists threshold_value : Q,
    good_region_core [0; 10]%Q (3 # 10) = Ok (threshold_value, 1, 1, 1) /\
    (threshold_value == 3)%Q /\
    getitem [0; 10]%Q 0 = Ok 0%Q /\ (0 < threshold_value)%Q /\
    leftward_first_below [0; 10]%Q threshold_value 1 = Ok 0 /\
    first_below [0; 10]%Q threshold_value (range_down 1 0) 1 = Ok 1 /\
    get_good_region_profile [0; 10]%Q (3 # 10) (18 # 10) = Ok (1, 1).
Proof.
  eexists. split; [vm_compute; reflexivity|].
  repeat split; reflexivity.
Qed.

(** ** Curve fitter *)

Lemma removelast_length {A : Type} (l : list A) :
  length (removelast l) = (length l - 1)%nat.
Proof.
  induction l as [|a l IH]; [reflexivity|].
  destruct l as [|b l]; [reflexivity|].
  change (removelast (a :: b :: l)) with (a :: removelast (b :: l)).
  cbn [length] in *. lia.
Qed.

Lemma broadcast2_same_length {A B C : Type} (f : A -> B -> C) (l : list A) (m : list B) :
  length l = length m -> broadcast2 f l m = Ok (map2 f l m).
Proof.
  intros Hlen. unfold broadcast2. rewrite Hlen, Nat.eqb_refl. reflexivity.
Qed.

Section FitterProperties.

Context {F : Type} `{Float64 F}.

Lemma f_argmax_from_range (l : list F) :
  forall (i best_index : Z) (best : F),
    0 <= best_index < i ->
    0 <= f_argmax_from l i best_index best < i + len l.
Proof.
  induction l as [|y rest IH]; intros i best_index best Hb; cbn [f_argmax_from].
  - unfold len. simpl. lia.
  - assert (Hlen : len (y :: rest) = 1 + len rest) by (unfold len; cbn [length]; lia).
    pose proof (len_nonneg rest) as Hrest.
    destruct (f_isnan best); [lia|].
    destruct (f_isnan y || f_ltb best y).
    + specialize (IH (i + 1) i y ltac:(lia)). lia.
    + specialize (IH (i + 1) best_index best ltac:(lia)). lia.
Qed.

Lemma f_argmax_ok (l : list F) :
  l <> [] -> exists i, f_argmax l = Ok i /\ 0 <= i < len l.
Proof.
  destruct l as [|x rest]; [congruence|]. intros _.
  exists (f_argmax_from rest 1 0 x). split; [reflexivity|].
  pose proof (f_argmax_from_range rest 1 0 x ltac:(lia)).
  unfold len in *. cbn [length]. lia.
Qed.

Lemma np_trapz_ok (y x : list F) :
  length y = length x -> exists surface, np_trapz y x = Ok surface.
Proof.
  intros Hlen. unfold np_trapz.
  rewrite broadcast2_same_length.
  - eexists. reflexivity.
  - rewrite !map2_length, !length_tl, !removelast_length. lia.
Qed.

(** On a non-empty profile with an axis of the same length the start
    values exist and are the moment estimates. *)
Lemma gauss_seed_ok (axis profile : list F) :
  length axis = length profile -> profile <> [] ->
  exists offset profile_max i center surface,
    f_min profile = Ok offset /\
    f_max profile = Ok profile_max /\
    f_argmax profile = Ok i /\
    getitem axis i = Ok center /\
    np_trapz (map (fun p => f_sub p offset) profile) axis = Ok surface /\
    gauss_seed axis profile None
    = Ok (offset, f_sub profile_max offset, center,
          f_div surface (f_mul (f_sub profile_max offset) (f_sqrt (f_mul f_two f_pi)))).
Proof.
  intros Hlen Hne.
  destruct (f_argmax_ok profile Hne) as [i [Hi Hrange]].
  destruct profile as [|p0 rest] eqn:Eprofile; [congruence|]. rewrite <- Eprofile in *.
  assert (Hcenter : exists center, getitem axis i = Ok center).
  { destruct axis as [|a0 arest]; [subst profile; discriminate|].
    exists (nth (Z.to_nat i) (a0 :: arest) a0). apply getitem_nth.
    unfold len in *. rewrite Hlen. lia. }
  destruct Hcenter as [center Hcenter].
  assert (Hmin : exists offset, f_min profile = Ok offset)
    by (subst profile; eexists; reflexivity).
  destruct Hmin as [offset Hmin].
  assert (Hmax : exists profile_max, f_max profile = Ok profile_max)
    by (subst profile; eexists; reflexivity).
  destruct Hmax as [profile_max Hmax].
  destruct (np_trapz_ok (map (fun p => f_sub p offset) profile) axis) as [surface Hs].
  { rewrite length_map. symmetry. exact Hlen. }
  exists offset, profile_max, i, center, surface.
  repeat (split; [assumption|]).
  unfold gauss_seed. rewrite Hmin, Hmax. cbn [bind truthy].
  rewrite Hi. cbn [bind]. rewrite Hcenter. cbn [bind]. rewrite Hs. reflexivity.
Qed.

Lemma gauss_seed_empty (axis : list F) (center_of_mass : option F) :
  gauss_seed axis [] center_of_mass = Raise ValueError.
Proof. reflexivity. Qed.

(** [_gauss_fit] raises exactly when the start values cannot be
    computed; the solver has no part in it. *)
Lemma _gauss_fit_raises (curve_fit : solver F) (axis profile : list F)
    (center_of_mass : option F) :
  raises (_gauss_fit curve_fit axis profile center_of_mass)
  = raises (gauss_seed axis profile center_of_mass).
Proof.
  unfold _gauss_fit.
  destruct (gauss_seed axis profile center_of_mass) as [seed|e]; cbn [bind]; [|reflexivity].
  destruct (curve_fit _ _ _ _); reflexivity.
Qed.

Lemma gauss_fit_mismatch (curve_fit : solver F) (profile axis : list F) :
  length axis <> length profile ->
  gauss_fit curve_fit profile axis = Raise RuntimeError.
Proof.
  intros Hlen. unfold gauss_fit.
  replace (length axis =? length profile)%nat with false
    by (symmetry; apply Nat.eqb_neq; exact Hlen).
  reflexivity.
Qed.

(** With matching lengths [gauss_fit] is its last two lines applied to
    what [_gauss_fit] returns. *)
Lemma gauss_fit_matched (curve_fit : solver F) (profile axis : list F) :
  length axis = length profile ->
  gauss_fit curve_fit profile axis =
  optimal <- _gauss_fit curve_fit axis profile None ;;
  let '(offset, amplitude, center, standard_deviation) := optimal in
  let center_of_mass := f_div (f_sum (map2 f_mul axis profile)) (f_sum profile) in
  let center_of_mass_2 :=
    f_div (f_sum (map2 f_mul (map2 f_mul axis axis) profile)) (f_sum profile) in
  Ok {| gauss_function :=
          map (fun x => _gauss_function x offset amplitude center standard_deviation) axis;
        fit_offset := offset;
        fit_amplitude := amplitude;
        fit_center := center;
        fit_standard_deviation := f_abs standard_deviation;
        fit_center_of_mass := center_of_mass;
        fit_rms := f_sqrt (f_abs (f_sub center_of_mass_2
                                        (f_mul center_of_mass center_of_mass))) |}.
Proof.
  intros Hlen. unfold gauss_fit. rewrite Hlen, Nat.eqb_refl. cbn [negb].
  rewrite (broadcast2_same_length f_mul axis profile) by (rewrite Hlen; reflexivity).
  cbn [bind].
  rewrite (broadcast2_same_length f_mul axis axis) by reflexivity.
  cbn [bind].
  rewrite (broadcast2_same_length f_mul (map2 f_mul axis axis) profile)
    by (rewrite map2_length; lia).
  cbn [bind]. reflexivity.
Qed.

Lemma gauss_fit_raises (curve_fit : solver F) (profile axis : list F) :
  length axis = length profile ->
  raises (gauss_fit curve_fit profile axis) = raises (gauss_seed axis profile None).
Proof.
  intros Hlen. rewrite (gauss_fit_matched curve_fit profile axis Hlen).
  rewrite <- (_gauss_fit_raises curve_fit).
  destruct (_gauss_fit curve_fit axis profile None) as [[[[o a] c] sd]|e]; reflexivity.
Qed.

Lemma fold_fmin_constant (c : F) (n : nat) : fold_left fmin_step (repeat c n) c = c.
Proof.
  induction n as [|n IH]; [reflexivity|]. cbn [repeat fold_left].
  replace (fmin_step c c) with c; [exact IH|].
  unfold fmin_step. destruct (f_isnan c); [reflexivity|]. destruct (f_ltb c c); reflexivity.
Qed.

Lemma fold_fmax_constant (c : F) (n : nat) : fold_left fmax_step (repeat c n) c = c.
Proof.
  induction n as [|n IH]; [reflexivity|]. cbn [repeat fold_left].
  replace (fmax_step c c) with c; [exact IH|].
  unfold fmax_step. destruct (f_isnan c); [reflexivity|]. destruct (f_ltb c c); reflexivity.
Qed.

End FitterProperties.

(** ** The claims on the Gaussian fit *)

(** C1.  With an axis of the length of the profile, whether [gauss_fit]
    raises does not depend on the solver.  On a non-empty profile it
    never raises, and when the solver raises on the start values,
    [_gauss_fit] returns the start values as the optimal parameters:
    offset = profile minimum, amplitude = profile maximum - offset,
    center = axis value at the argmax of the profile, sigma = trapezoid
    integral of (profile - offset) over the axis divided by
    amplitude * sqrt(2 * pi); [gauss_fit] reports them, the sigma as its
    magnitude, with the curve of these parameters.  A constant profile
    has its value as minimum and maximum and is fitted without raising. *)
Theorem gauss_fit_fallback {F : Type} `{Float64 F} (profile axis : list F) :
  length axis = length profile ->
  (forall curve_fit curve_fit' : solver F,
     raises (gauss_fit curve_fit profile axis)
     = raises (gauss_fit curve_fit' profile axis)) /\
  (profile <> [] ->
   exists offset profile_max i center surface,
     f_min profile = Ok offset /\
     f_max profile = Ok profile_max /\
     f_argmax profile = Ok i /\
     getitem axis i = Ok center /\
     np_trapz (map (fun p => f_sub p offset) profile) axis = Ok surface /\
     let amplitude := f_sub profile_max offset in
     let standard_deviation :=
       f_div surface (f_mul amplitude (f_sqrt (f_mul f_two f_pi))) in
     forall curve_fit : solver F,
       raises (gauss_fit curve_fit profile axis) = false /\
       (raises (curve_fit _gauss_function axis (map f_float32 profile)
                  (offset, amplitude, center, standard_deviation)) = true ->
        _gauss_fit curve_fit axis profile None
        = Ok (offset, amplitude, center, standard_deviation) /\
        exists r : fit_result F,
          gauss_fit curve_fit profile axis = Ok r /\
          fit_offset r = offset /\
          fit_amplitude r = amplitude /\
          fit_center r = center /\
          fit_standard_deviation r = f_abs standard_deviation /\
          gauss_function r
          = map (fun x => _gauss_function x offset amplitude center standard_deviation)
                axis)) /\
  (forall (c : F) (n : nat), profile = repeat c (S n) ->
     f_min profile = Ok c /\ f_max profile = Ok c /\
     forall curve_fit : solver F, raises (gauss_fit curve_fit profile axis) = false).
Proof.
  intros Hlen.
  assert (Hnonempty : profile <> [] ->
            forall curve_fit : solver F, raises (gauss_fit curve_fit profile axis) = false).
  { intros Hne curve_fit. rewrite (gauss_fit_raises curve_fit profile axis Hlen).
    destruct (gauss_seed_ok axis profile Hlen Hne)
      as (o & m & i & c & sf & _ & _ & _ & _ & _ & Hseed).
    rewrite Hseed. reflexivity. }
  split; [|split].
  - intros curve_fit curve_fit'.
    rewrite !(gauss_fit_raises _ profile axis Hlen). reflexivity.
  - intros Hne.
    destruct (gauss_seed_ok axis profile Hlen Hne)
      as (o & m & i & c & sf & Hmin & Hmax & Hi & Hc & Hsf & Hseed).
    exists o, m, i, c, sf. repeat (split; [assumption|]).
    intros amplitude standard_deviation curve_fit.
    split; [exact (Hnonempty Hne curve_fit)|].
    intros Hfail.
    assert (Hfit : _gauss_fit curve_fit axis profile None
                   = Ok (o, amplitude, c, standard_deviation)).
    { unfold _gauss_fit. rewrite Hseed. cbn [bind].
      fold amplitude. fold standard_deviation.
      destruct (curve_fit _ _ _ _); [discriminate Hfail | reflexivity]. }
    split; [exact Hfit|].
    rewrite (gauss_fit_matched curve_fit profile axis Hlen), Hfit. cbn [bind].
    eexists. split; [reflexivity|]. repeat split; reflexivity.
  - intros c n Hconst.
    split; [|split].
    + rewrite Hconst. cbn [repeat f_min]. f_equal. apply fold_fmin_constant.
    + rewrite Hconst. cbn [repeat f_max]. f_equal. apply fold_fmax_constant.
    + apply Hnonempty. rewrite Hconst. discriminate.
Qed.

Lemma gauss_fit_fallback_witness :
  _gauss_fit failing_solver [0; 1; 2]%Q [5; 5; 5]%Q None = Ok (5, 5 - 5, 0, 0 / ((5 - 5) * q_sqrt (2 * (355 # 113))))%Q /\
  raises (gauss_fit failing_solver [5; 5; 5]%Q [0; 1; 2]%Q) = false.
Proof.
  destruct (gauss_fit_fallback (F := Q) [5; 5; 5]%Q [0; 1; 2]%Q eq_refl)
    as [_ [Hseed _]].
  destruct (Hseed ltac:(discriminate))
    as (o & m & i & c & sf & Hmin & Hmax & Hi & Hc & Hsf & Hfit).
  injection Hmin as <-. injection Hmax as <-. injection Hi as <-.
  injection Hc as <-. injection Hsf as <-.
  destruct (Hfit failing_solver) as [Hok Hfallback].
  split; [|exact Hok].
  exact (proj1 (Hfallback eq_refl)).
Defined.

(** C7, as the code has it.  [calculate_slices] raises whenever the
    number of slices is even, before anything else, and on an axis of at
    least two elements only then; [gauss_fit] raises whenever the axis
    and the profile differ in length, whatever the solver, and on a
    non-empty profile only then. *)
Theorem contract_violations_raise {F : Type} `{Float64 F}
    (axis : list Q) (center standard_deviation scaling : Q) (number_of_slices : Z)
    (curve_fit : solver F) (profile fit_axis : list F) :
  (Z.odd number_of_slices = false ->
   calculate_slices axis center standard_deviation scaling number_of_slices
   = Raise ValueError) /\
  ((2 <= length axis)%nat ->
   raises (calculate_slices axis center standard_deviation scaling number_of_slices)
   = true ->
   Z.odd number_of_slices = false) /\
  (length fit_axis <> length profile ->
   gauss_fit curve_fit profile fit_axis = Raise RuntimeError) /\
  (profile <> [] ->
   raises (gauss_fit curve_fit profile fit_axis) = true ->
   length fit_axis <> length profile).
Proof.
  split; [|split; [|split]].
  - apply calculate_slices_even.
  - intros Hlen Hraises. destruct (Z.odd number_of_slices) eqn:Hodd; [|reflexivity].
    destruct (calculate_slices_shape axis center standard_deviation scaling
                number_of_slices Hlen (odd_mod2 _ Hodd))
      as [ic [ih [_ [_ Hcases]]]].
    cbv zeta in Hcases.
    destruct Hcases as [[_ Hres] | [_ [_ [j [a_start [a_end [_ [_ [_ Hres]]]]]]]]];
      rewrite Hres in Hraises; discriminate.
  - apply gauss_fit_mismatch.
  - intros Hne Hraises Hlen.
    rewrite (gauss_fit_raises curve_fit profile fit_axis Hlen) in Hraises.
    destruct (gauss_seed_ok fit_axis profile Hlen Hne)
      as (o & m & i & c & sf & _ & _ & _ & _ & _ & Hseed).
    rewrite Hseed in Hraises. discriminate.
Qed.

Lemma contract_violations_raise_witness :
  calculate_slices [0; 1; 2; 3]%Q 1 1 2 4 = Raise ValueError /\
  gauss_fit echo_solver [5; 5; 5]%Q [0; 1]%Q = Raise RuntimeError.
Proof.
  split.
  - apply (proj1 (contract_violations_raise (F := Q) [0; 1; 2; 3]%Q 1 1 2 4
                    echo_solver [5; 5; 5]%Q [0; 1]%Q)).
    reflexivity.
  - apply (proj1 (proj2 (proj2 (contract_violations_raise (F := Q) [0; 1; 2; 3]%Q 1 1 2 4
                                  echo_solver [5; 5; 5]%Q [0; 1]%Q)))).
    discriminate.
Defined.

(** C7, as the claim states it, fails on the empty profile: the axis and
    the profile have the same length, and [gauss_fit] raises all the
    same, from the minimum of an empty array. *)
Lemma gauss_fit_empty_counterexample :
  length ([] : list Q) = length ([] : list Q) /\
  gauss_fit echo_solver ([] : list Q) [] = Raise ValueError /\
  raises (gauss_fit failing_solver ([] : list Q) []) = true.
Proof. repeat split. Qed.

(** ** Tilt estimator *)

Lemma for_each_map {A B : Type} (body : A -> result B) (g : A -> B) (l : list A) :
  (forall a, In a l -> body a = Ok (g a)) -> for_each body l = Ok (map g l).
Proof.
  induction l as [|a rest IH]; intros Hbody; [reflexivity|].
  cbn [for_each map]. rewrite (Hbody a (or_introl eq_refl)). cbn [bind].
  rewrite IH by (intros b Hb; apply Hbody; right; exact Hb). reflexivity.
Qed.

Lemma columns_length (im : image) :
  length (columns im) = Z.to_nat (snd (shape im)).
Proof.
  destruct im as [|row im]; [reflexivity|].
  cbn [columns shape snd]. rewrite length_map, length_seq. unfold len. lia.
Qed.

Lemma columns_column_length (im : image) (column : list Z) :
  In column (columns im) -> length column = length im.
Proof.
  destruct im as [|row im]; [intros []|].
  cbn [columns]. intros Hin. apply in_map_iff in Hin.
  destruct Hin as [j [<- _]]. apply length_map.
Qed.

Lemma fold_min_shift (m : Z) (l : list Z) (x : Z) :
  fold_left Z.min (map (fun p => p - m) l) (x - m) = fold_left Z.min l x - m.
Proof.
  revert x. induction l as [|y rest IH]; intros x; [reflexivity|].
  cbn [map fold_left]. rewrite <- IH. f_equal. lia.
Qed.

(** A profile from which its minimum was subtracted has minimum 0. *)
Lemma z_min_baseline_corrected (profile : list Z) (m : Z) :
  z_min profile = Ok m -> z_min (map (fun p => p - m) profile) = Ok 0.
Proof.
  destruct profile as [|x rest]; [discriminate|].
  cbn [z_min map]. intros [= Hm]. f_equal. rewrite fold_min_shift. lia.
Qed.

Lemma total_z_sum (l : list Z) : z_sum l = total l.
Proof. unfold z_sum, total. apply fold_symmetric; intros; lia. Qed.

Lemma fold_right_max_spec (d : Z) (l : list Z) :
  d <= fold_right Z.max d l /\
  (forall x, In x l -> x <= fold_right Z.max d l) /\
  (fold_right Z.max d l = d \/ In (fold_right Z.max d l) l).
Proof.
  induction l as [|a l IH]; cbn [fold_right In].
  - split; [lia | split; [intros x [] | left; reflexivity]].
  - destruct IH as [Hd [Hle Hin]]. split; [lia | split].
    + intros x [<-|Hx]; [lia | specialize (Hle x Hx); lia].
    + destruct (Z.max_spec a (fold_right Z.max d l)) as [[_ ->]|[_ ->]].
      * destruct Hin as [->|Hin]; [left; reflexivity | right; right; exact Hin].
      * right. left. reflexivity.
Qed.

Lemma fold_right_min_spec (d : Z) (l : list Z) :
  fold_right Z.min d l <= d /\
  (forall x, In x l -> fold_right Z.min d l <= x) /\
  (fold_right Z.min d l = d \/ In (fold_right Z.min d l) l).
Proof.
  induction l as [|a l IH]; cbn [fold_right In].
  - split; [lia | split; [intros x [] | left; reflexivity]].
  - destruct IH as [Hd [Hle Hin]]. split; [lia | split].
    + intros x [<-|Hx]; [lia | specialize (Hle x Hx); lia].
    + destruct (Z.min_spec a (fold_right Z.min d l)) as [[_ ->]|[_ ->]].
      * right. left. reflexivity.
      * destruct Hin as [->|Hin]; [left; reflexivity | right; right; exact Hin].
Qed.

(** The greatest element is an element and bounds the others. *)
Lemma maximum_of_spec (l : list Z) :
  l <> [] -> In (maximum_of l) l /\ forall x, In x l -> x <= maximum_of l.
Proof.
  destruct l as [|a l]; [congruence|]. intros _. unfold maximum_of. cbn [hd].
  destruct (fold_right_max_spec a (a :: l)) as [_ [Hle Hin]].
  split; [|exact Hle]. destruct Hin as [->|Hin]; [left; reflexivity | exact Hin].
Qed.

Lemma minimum_of_spec (l : list Z) :
  l <> [] -> In (minimum_of l) l /\ forall x, In x l -> minimum_of l <= x.
Proof.
  destruct l as [|a l]; [congruence|]. intros _. unfold minimum_of. cbn [hd].
  destruct (fold_right_min_spec a (a :: l)) as [_ [Hle Hin]].
  split; [|exact Hle]. destruct Hin as [->|Hin]; [left; reflexivity | exact Hin].
Qed.

Lemma maximum_of_unique (l : list Z) (m : Z) :
  In m l -> (forall x, In x l -> x <= m) -> maximum_of l = m.
Proof.
  intros Hin Hle. assert (Hne : l <> []) by (destruct l; [destruct Hin | discriminate]).
  destruct (maximum_of_spec l Hne) as [Hin' Hle'].
  specialize (Hle _ Hin'). specialize (Hle' _ Hin). lia.
Qed.

(** [min] of an integer array is its least element. *)
Lemma z_min_minimum_of (l : list Z) : l <> [] -> z_min l = Ok (minimum_of l).
Proof.
  destruct l as [|x rest]; [congruence|]. intros _. cbn [z_min]. f_equal.
  unfold minimum_of. cbn [hd fold_right].
  rewrite (fold_symmetric Z.min) by (intros; lia).
  destruct (fold_right_min_spec x rest) as [Hd _]. lia.
Qed.

Lemma first_index_of_app_in (v : Z) (p q : list Z) :
  In v p -> first_index_of v (p ++ q) = first_index_of v p.
Proof.
  induction p as [|a p IH]; [intros []|]. intros Hin. cbn [app first_index_of].
  destruct (Z.eqb_spec a v) as [_|Hne]; [reflexivity|].
  destruct Hin as [Heq|Hin]; [congruence|]. rewrite (IH Hin). reflexivity.
Qed.

Lemma first_index_of_app_new (v : Z) (p q : list Z) :
  ~ In v p -> first_index_of v (p ++ v :: q) = length p.
Proof.
  induction p as [|a p IH]; intros Hnot; cbn [app first_index_of length].
  - rewrite Z.eqb_refl. reflexivity.
  - destruct (Z.eqb_spec a v) as [Heq|_]; [exfalso; apply Hnot; left; exact Heq|].
    rewrite IH by (intros Hin; apply Hnot; right; exact Hin). reflexivity.
Qed.

Lemma first_index_of_lt (v : Z) (l : list Z) :
  In v l -> (first_index_of v l < length l)%nat.
Proof.
  induction l as [|a l IH]; [intros []|]. intros Hin. cbn [first_index_of length].
  destruct (Z.eqb_spec a v) as [_|Hne]; [lia|].
  destruct Hin as [Heq|Hin]; [congruence|]. specialize (IH Hin). lia.
Qed.

Lemma peak_row_lt (column : list Z) :
  column <> [] -> (peak_row column < length column)%nat.
Proof.
  intros Hne. apply first_index_of_lt. apply maximum_of_spec. exact Hne.
Qed.

(** The scan of [argmax] keeps the first position of the greatest value
    seen so far. *)
Lemma z_argmax_from_first (l p : list Z) :
  p <> [] ->
  z_argmax_from l (len p) (Z.of_nat (peak_row p)) (maximum_of p)
  = Z.of_nat (peak_row (p ++ l)).
Proof.
  revert p. induction l as [|y rest IH]; intros p Hp.
  - rewrite app_nil_r. reflexivity.
  - cbn [z_argmax_from].
    destruct (maximum_of_spec p Hp) as [Hin Hle].
    assert (Hp' : p ++ [y] <> []) by (destruct p; discriminate).
    assert (Hlen : len (p ++ [y]) = len p + 1)
      by (unfold len; rewrite length_app; cbn [length]; lia).
    replace (p ++ y :: rest) with ((p ++ [y]) ++ rest)
      by (rewrite <- app_assoc; reflexivity).
    rewrite <- (IH (p ++ [y]) Hp'), Hlen.
    destruct (Z.ltb_spec (maximum_of p) y) as [Hlt|Hge].
    + assert (Hmax : maximum_of (p ++ [y]) = y).
      { apply maximum_of_unique.
        - apply in_or_app. right. left. reflexivity.
        - intros x Hx. apply in_app_or in Hx.
          destruct Hx as [Hx|[<-|[]]]; [specialize (Hle x Hx); lia | lia]. }
      unfold peak_row. rewrite Hmax, first_index_of_app_new.
      * reflexivity.
      * intros Hy. specialize (Hle y Hy). lia.
    + assert (Hmax : maximum_of (p ++ [y]) = maximum_of p).
      { apply maximum_of_unique.
        - apply in_or_app. left. exact Hin.
        - intros x Hx. apply in_app_or in Hx.
          destruct Hx as [Hx|[<-|[]]]; [exact (Hle x Hx) | exact Hge]. }
      unfold peak_row. rewrite Hmax, (first_index_of_app_in _ _ _ Hin).
      reflexivity.
Qed.

(** [argmax] of an integer array is the first position of its greatest
    element. *)
Lemma z_argmax_peak_row (column : list Z) :
  column <> [] -> z_argmax column = Ok (Z.of_nat (peak_row column)).
Proof.
  destruct column as [|x rest]; [congruence|]. intros _. cbn [z_argmax]. f_equal.
  pose proof (z_argmax_from_first rest [x] ltac:(discriminate)) as Hscan.
  assert (Hmax : maximum_of [x] = x) by (unfold maximum_of; cbn [hd fold_right]; lia).
  assert (Hpeak : peak_row [x] = 0%nat)
    by (unfold peak_row; rewrite Hmax; cbn [first_index_of]; rewrite Z.eqb_refl; reflexivity).
  rewrite Hmax, Hpeak in Hscan. exact Hscan.
Qed.

Lemma map_nth_seq {A : Type} (l : list A) (d : A) :
  map (fun j => nth j l d) (seq 0 (length l)) = l.
Proof.
  induction l as [|a l IH]; [reflexivity|].
  cbn [length seq map nth]. rewrite <- seq_shift, map_map. cbn [nth].
  rewrite IH. reflexivity.
Qed.

Lemma compress_map {A B C : Type} (q : B -> bool) (f : A -> B) (g : A -> C) (js : list A) :
  compress (map q (map f js)) (map g js) = map g (filter (fun j => q (f j)) js).
Proof.
  induction js as [|j js IH]; [reflexivity|].
  cbn [map compress filter]. destruct (q (f j)); cbn [map]; rewrite IH; reflexivity.
Qed.

Lemma columns_by_index (im : image) :
  im <> [] -> columns im = map (column_of im) (seq 0 (column_count im)).
Proof. destruct im as [|row im]; [congruence | reflexivity]. Qed.

Lemma column_sum_profile_length (im : image) :
  length (column_sum_profile im) = column_count im.
Proof. unfold column_sum_profile. rewrite length_map, length_seq. reflexivity. Qed.

Lemma corrected_profile_length (im : image) :
  length (corrected_profile im) = column_count im.
Proof. unfold corrected_profile. rewrite length_map. apply column_sum_profile_length. Qed.

Lemma mask_select_same_length {A : Type} (l : list A) (mask : list bool) :
  length l = length mask -> mask_select l mask = Ok (compress mask l).
Proof. intros Hlen. unfold mask_select. rewrite Hlen, Nat.eqb_refl. reflexivity. Qed.

Lemma column_nonempty (im : image) (column : list Z) :
  im <> [] -> In column (columns im) -> column <> [].
Proof.
  intros Hne Hin. pose proof (columns_column_length im column Hin) as Hlen.
  destruct column; [|discriminate]. destruct im; [congruence | discriminate].
Qed.

(** The rows of the peaks of the columns, as [argmax(image, axis=0)]
    returns them. *)
Lemma tilt_peak_rows (im : image) :
  im <> [] ->
  (match im with [] => Raise ValueError | _ => for_each z_argmax (columns im) end)
  = Ok (map (fun column => Z.of_nat (peak_row column)) (columns im)).
Proof.
  intros Hne.
  assert (Hscan : for_each z_argmax (columns im)
                  = Ok (map (fun column => Z.of_nat (peak_row column)) (columns im))).
  { apply for_each_map. intros column Hin. apply z_argmax_peak_row.
    exact (column_nonempty im column Hne Hin). }
  destruct im; [congruence | exact Hscan].
Qed.

Lemma sum_dtype_exponent (dt : dtype) (w_order : Z) :
  0 <= w_order < 2 ^ 63 ->
  (0 <=? w_order)
  && (w_order <? 2 ^ (if signed (sum_dtype dt) then bits (sum_dtype dt) - 1
                      else bits (sum_dtype dt))) = true.
Proof.
  intros Hw. apply andb_true_iff. split; [apply Z.leb_le; lia|]. apply Z.ltb_lt.
  unfold sum_dtype. destruct (signed dt); cbn [signed bits]; lia.
Qed.

Section TiltProperties.

Context {F : Type} `{Float64 F}.

(** The peak-y values, as [y_axis[max_]] returns them. *)
Lemma tilt_peak_values (im : image) (y_axis : list F) :
  im <> [] -> length y_axis = length im ->
  take y_axis (map (fun column => Z.of_nat (peak_row column)) (columns im))
  = Ok (map (fun column => nth (peak_row column) y_axis f_zero) (columns im)).
Proof.
  intros Hne Hy. unfold take.
  rewrite (for_each_map (getitem y_axis) (fun i => nth (Z.to_nat i) y_axis f_zero)).
  - rewrite map_map. f_equal. apply map_ext. intros column.
    rewrite Nat2Z.id. reflexivity.
  - intros i Hin. apply in_map_iff in Hin.
    destruct Hin as [column [<- Hin]]. apply getitem_nth.
    pose proof (peak_row_lt column (column_nonempty im column Hne Hin)) as Hlt.
    rewrite (columns_column_length im column Hin) in Hlt. unfold len. lia.
Qed.

Lemma columns_count (im : image) : im <> [] -> length (columns im) = column_count im.
Proof.
  intros Hne. rewrite (columns_by_index im Hne), length_map, length_seq. reflexivity.
Qed.

(** Without overflow [get_tilt] computes what section 4.6 specifies. *)
Lemma get_tilt_refines (polyfit : polynomial_fitter F)
    (other_power : list Z -> Z -> result (weights F)) (im : ndarray)
    (x_axis y_axis : list F) (w_order order : Z) :
  nd_rows im <> [] -> (0 < column_count (nd_rows im))%nat ->
  length x_axis = column_count (nd_rows im) -> length y_axis = length (nd_rows im) ->
  0 <= w_order < 2 ^ 63 ->
  no_overflow (nd_dtype im) (nd_rows im) w_order ->
  get_tilt polyfit other_power im x_axis y_axis w_order order
  = get_tilt_spec polyfit (nd_rows im) x_axis y_axis w_order order.
Proof.
  intros Hne Hcols Hx Hy Hw [Hsums [Hcorr [Htotal Hpow]]].
  unfold get_tilt.
  set (rows := nd_rows im) in *. set (dt := nd_dtype im) in *.
  rewrite Forall_forall in Hsums, Hcorr, Hpow.
  rewrite (tilt_peak_rows rows Hne). cbn [bind].
  rewrite (tilt_peak_values rows y_axis Hne Hy). cbn [bind].
  assert (HprojX : map (fun column => wrap (sum_dtype dt) (z_sum column)) (columns rows)
                   = column_sum_profile rows).
  { rewrite (columns_by_index rows Hne), map_map. unfold column_sum_profile.
    apply map_ext_in. intros j Hj. rewrite total_z_sum. apply wrap_small.
    apply Hsums. unfold column_sum_profile.
    apply in_map_iff. exists j. split; [reflexivity | exact Hj]. }
  rewrite HprojX.
  assert (Hprofile : column_sum_profile rows <> []).
  { intros E. pose proof (column_sum_profile_length rows) as Hl.
    rewrite E in Hl. cbn [length] in Hl. lia. }
  rewrite (z_min_minimum_of _ Hprofile). cbn [bind].
  assert (Hcorrected :
            map (fun p => wrap (sum_dtype dt) (p - minimum_of (column_sum_profile rows)))
                (column_sum_profile rows)
            = corrected_profile rows).
  { unfold corrected_profile. apply map_ext_in. intros p Hp. apply wrap_small.
    apply Hcorr. unfold corrected_profile.
    apply in_map_iff. exists p. split; [reflexivity | exact Hp]. }
  rewrite Hcorrected.
  rewrite (broadcast2_same_length _ (corrected_profile rows) x_axis)
    by (rewrite corrected_profile_length; lia).
  cbn [bind].
  rewrite total_z_sum, (wrap_small _ _ Htotal).
  rewrite !mask_select_same_length
    by (rewrite !length_map, ?corrected_profile_length, (columns_count rows Hne); lia).
  cbn [bind].
  assert (Hzero : z_min (corrected_profile rows) = Ok 0)
    by (apply (z_min_baseline_corrected (column_sum_profile rows)), z_min_minimum_of, Hprofile).
  rewrite Hzero. cbn [bind].
  unfold integer_power. rewrite (sum_dtype_exponent dt w_order Hw). cbn [bind].
  unfold get_tilt_spec, tilt_samples.
  fold (weighted_mean_position (corrected_profile rows) x_axis).
  set (mean_image := weighted_mean_position (corrected_profile rows) x_axis).
  set (js := seq 0 (column_count rows)).
  set (peak_y := fun j => nth (peak_row (column_of rows j)) y_axis f_zero).
  set (kept := filter (fun j => negb (f_isnan (peak_y j))) js).
  rewrite (columns_by_index rows Hne). fold js.
  rewrite (map_map (column_of rows) _ js). fold peak_y.
  assert (Ex : compress (map (fun y => negb (f_isnan y)) (map peak_y js)) x_axis
               = map (fun j => nth j x_axis f_zero) kept).
  { unfold kept. rewrite <- (compress_map (fun y => negb (f_isnan y)) peak_y).
    f_equal. unfold js.
    rewrite <- Hx. symmetry. apply map_nth_seq. }
  assert (Ey : compress (map (fun y => negb (f_isnan y)) (map peak_y js)) (map peak_y js)
               = map peak_y kept)
    by (unfold kept; apply (compress_map (fun y => negb (f_isnan y)) peak_y peak_y)).
  assert (Ec : compress (map (fun y => negb (f_isnan y)) (map peak_y js))
                        (corrected_profile rows)
               = map (fun j => nth j (corrected_profile rows) 0) kept).
  { unfold kept. rewrite <- (compress_map (fun y => negb (f_isnan y)) peak_y).
    f_equal. unfold js.
    rewrite <- (corrected_profile_length rows). symmetry. apply map_nth_seq. }
  rewrite Ex, Ey, Ec, filter_map_swap, !map_map.
  cbn [sample_x sample_peak_y sample_intensity]. fold kept.
  erewrite (map_ext_in _ (fun j => nth j (corrected_profile rows) 0 ^ w_order) kept).
  - reflexivity.
  - intros j Hj. apply filter_In in Hj. destruct Hj as [Hj _]. apply in_seq in Hj.
    assert (Hin : In (nth j (corrected_profile rows) 0) (corrected_profile rows))
      by (apply nth_In; rewrite corrected_profile_length; lia).
    rewrite Z.sub_0_r, (wrap_small _ _ (Hcorr _ Hin)).
    apply wrap_small. exact (Hpow _ Hin).
Qed.

End TiltProperties.

Lemma well_formed_column_count (im : ndarray) :
  well_formed_array im -> 0 < len (nd_rows im) ->
  nd_rows im <> [] /\ Z.of_nat (column_count (nd_rows im)) = nd_width im.
Proof.
  intros [Hwidth _] Hrows. destruct (nd_rows im) as [|row rest].
  - cbn in Hrows. lia.
  - split; [discriminate|]. apply Forall_inv in Hwidth. exact Hwidth.
Qed.




(** * Further properties *)

(** ** Index locator *)

Lemma monotonic_nth_inj (axis : list Q) (i k : nat) :
  monotonic axis -> (i < length axis)%nat -> (k < length axis)%nat ->
  (nth i axis 0 == nth k axis 0)%Q -> i = k.
Proof.
  intros Hmono Hi Hk Heq.
  destruct (Nat.lt_trichotomy i k) as [Hlt|[Heq'|Hgt]]; [exfalso | exact Heq' | exfalso].
  - destruct Hmono as [Ha|Hd].
    + pose proof (ascending_nth axis Ha i k ltac:(lia)). lra.
    + pose proof (descending_nth axis Hd i k ltac:(lia)). lra.
  - destruct Hmono as [Ha|Hd].
    + pose proof (ascending_nth axis Ha k i ltac:(lia)). lra.
    + pose proof (descending_nth axis Hd k i ltac:(lia)). lra.
Qed.

Lemma floor_index_nth (axis : list Q) (item : Q) (k : Z) :
  floor_index axis item k ->
  (Z.to_nat k < length axis)%nat /\
  (nth (Z.to_nat k) axis 0 <= item)%Q /\
  forall j, (j < length axis)%nat -> (nth j axis 0 <= item)%Q ->
            (nth j axis 0 <= nth (Z.to_nat k) axis 0)%Q.
Proof.
  intros [Hk [x [Hx [Hle Hmax]]]].
  rewrite (getitem_nth axis k 0%Q Hk) in Hx. injection Hx as <-.
  split; [unfold len in Hk; lia | split; [exact Hle|]].
  intros j Hj Hjle. apply Hmax; [apply nth_In; exact Hj | exact Hjle].
Qed.

(** What [find_index] returns on an ascending axis, for every value. *)
Lemma find_index_ascending_cases (axis : list Q) (item : Q) :
  ascending axis -> (2 <= length axis)%nat ->
  exists k, find_index axis item = Ok k /\ 0 <= k < len axis /\
    (((item < hd 0 axis)%Q /\ k = 0) \/
     ((last axis 0 < item)%Q /\ k = len axis - 1) \/
     ((hd 0 axis <= item)%Q /\ (item <= last axis 0)%Q /\ floor_index axis item k)).
Proof.
  intros Ha Hlen.
  assert (Hne : axis <> []) by (destruct axis; [simpl in Hlen; lia | discriminate]).
  assert (Hl : 2 <= len axis) by (unfold len; lia).
  destruct (Qlt_le_dec item (hd 0%Q axis)) as [Hlow|Hlow].
  - exists 0. split; [|split; [lia | left; split; [exact Hlow | reflexivity]]].
    rewrite (find_index_unfold axis item Hlen), (ascending_direction axis Ha Hlen).
    apply Qlt_bool_iff in Hlow. rewrite Hlow. reflexivity.
  - destruct (Qlt_le_dec (last axis 0%Q) item) as [Hhigh|Hhigh].
    + exists (len axis - 1).
      split; [|split; [lia | right; left; split; [exact Hhigh | reflexivity]]].
      rewrite (find_index_unfold axis item Hlen), (ascending_direction axis Ha Hlen).
      replace (Qlt_bool item (hd 0%Q axis)) with false
        by (symmetry; apply Qlt_bool_false_iff; exact Hlow).
      apply Qlt_bool_iff in Hhigh. rewrite Hhigh. reflexivity.
    + destruct (find_index_ascending_in_range axis item Ha Hlen Hlow Hhigh)
        as [k [Hk [Hfloor _]]].
      exists k. split; [exact Hk | split; [exact (proj1 Hfloor)|]].
      right. right. split; [exact Hlow | split; [exact Hhigh | exact Hfloor]].
Qed.

(** What [find_index] returns on a descending axis, for every value. *)
Lemma find_index_descending_cases (axis : list Q) (item : Q) :
  descending axis -> (2 <= length axis)%nat ->
  exists k, find_index axis item = Ok k /\ 0 <= k < len axis /\
    (((hd 0 axis < item)%Q /\ k = 0) \/
     ((item < last axis 0)%Q /\ k = len axis - 1) \/
     ((last axis 0 <= item)%Q /\ (item <= hd 0 axis)%Q /\ floor_index axis item k)).
Proof.
  intros Hd Hlen.
  assert (Hne : axis <> []) by (destruct axis; [simpl in Hlen; lia | discriminate]).
  assert (Hl : 2 <= len axis) by (unfold len; lia).
  destruct (Qlt_le_dec (hd 0%Q axis) item) as [Hhigh|Hhigh].
  - exists 0. split; [|split; [lia | left; split; [exact Hhigh | reflexivity]]].
    rewrite (find_index_unfold axis item Hlen), (descending_direction axis Hd Hlen).
    apply Qlt_bool_iff in Hhigh. rewrite Hhigh. reflexivity.
  - destruct (Qlt_le_dec item (last axis 0%Q)) as [Hlow|Hlow].
    + exists (len axis - 1).
      split; [|split; [lia | right; left; split; [exact Hlow | reflexivity]]].
      rewrite (find_index_unfold axis item Hlen), (descending_direction axis Hd Hlen).
      replace (Qlt_bool (hd 0%Q axis) item) with false
        by (symmetry; apply Qlt_bool_false_iff; exact Hhigh).
      apply Qlt_bool_iff in Hlow. rewrite Hlow. reflexivity.
    + destruct (find_index_descending_in_range axis item Hd Hlen Hlow Hhigh)
        as [Hk Hfloor].
      exists (searchsorted (map Qopp axis) (- item)%Q).
      split; [exact Hk | split; [exact (proj1 Hfloor)|]].
      right. right. split; [exact Hlow | split; [exact Hhigh | exact Hfloor]].
Qed.

(** X1.  An axis value is found at its own index: on a monotonic axis of
    at least two elements [find_index(axis, axis[i])] is [i]. *)
Theorem find_index_of_axis_value (axis : list Q) (i : nat) :
  monotonic axis -> (2 <= length axis)%nat -> (i < length axis)%nat ->
  find_index axis (nth i axis 0%Q) = Ok (Z.of_nat i).
Proof.
  intros Hmono Hlen Hi.
  assert (Hne : axis <> []) by (destruct axis; [simpl in Hlen; lia | discriminate]).
  assert (Hfloor : forall k, floor_index axis (nth i axis 0%Q) k -> k = Z.of_nat i).
  { intros k Hk. pose proof (proj1 Hk) as Hrange.
    destruct (floor_index_nth axis _ k Hk) as [Hklt [Hkle Hkmax]].
    specialize (Hkmax i Hi (Qle_refl _)).
    assert (Heq : (nth i axis 0 == nth (Z.to_nat k) axis 0)%Q) by lra.
    pose proof (monotonic_nth_inj axis i (Z.to_nat k) Hmono Hi Hklt Heq). lia. }
  destruct Hmono as [Ha|Hd].
  - destruct (find_index_ascending_cases axis (nth i axis 0%Q) Ha Hlen)
      as [k [Hk [Hrange [[Hlow _]|[[Hhigh _]|[_ [_ Hfl]]]]]]].
    + exfalso. rewrite hd_nth in Hlow.
      pose proof (ascending_nth_le axis Ha 0 i ltac:(lia)). lra.
    + exfalso. rewrite last_nth in Hhigh.
      pose proof (ascending_nth_le axis Ha i (length axis - 1) ltac:(lia)). lra.
    + rewrite Hk. f_equal. apply Hfloor. exact Hfl.
  - destruct (find_index_descending_cases axis (nth i axis 0%Q) Hd Hlen)
      as [k [Hk [Hrange [[Hhigh _]|[[Hlow _]|[_ [_ Hfl]]]]]]].
    + exfalso. rewrite hd_nth in Hhigh.
      destruct (Nat.eq_dec i 0) as [->|Hpos]; [lra|].
      pose proof (descending_nth axis Hd 0 i ltac:(lia)). lra.
    + exfalso. rewrite last_nth in Hlow.
      destruct (Nat.eq_dec i (length axis - 1)) as [->|Hnot]; [lra|].
      pose proof (descending_nth axis Hd i (length axis - 1) ltac:(lia)). lra.
    + rewrite Hk. f_equal. apply Hfloor. exact Hfl.
Qed.

Lemma find_index_of_axis_value_witness :
  find_index [9; 8; 7; 6]%Q 7 = Ok 2 /\ find_index [6; 7; 8; 9]%Q 9 = Ok 3.
Proof.
  split.
  - exact (find_index_of_axis_value [9; 8; 7; 6]%Q 2 (or_intror descending_9876)
             ltac:(simpl; lia) ltac:(simpl; lia)).
  - exact (find_index_of_axis_value [6; 7; 8; 9]%Q 3 (or_introl ascending_6789)
             ltac:(simpl; lia) ltac:(simpl; lia)).
Defined.

(** X2.  On a monotonic axis of at least two elements [find_index]
    returns, for every finite value, an index of the axis.  (A
    not-a-number value is no [Q] and is not covered.) *)
Theorem find_index_within_axis (axis : list Q) (item : Q) :
  monotonic axis -> (2 <= length axis)%nat ->
  exists k, find_index axis item = Ok k /\ 0 <= k <= len axis - 1.
Proof.
  intros [Ha|Hd] Hlen.
  - destruct (find_index_ascending_cases axis item Ha Hlen) as [k [Hk [Hrange _]]].
    exists k. split; [exact Hk | lia].
  - destruct (find_index_descending_cases axis item Hd Hlen) as [k [Hk [Hrange _]]].
    exists k. split; [exact Hk | lia].
Qed.

Lemma find_index_within_axis_witness :
  exists k, find_index [9; 8; 7; 6]%Q (-3) = Ok k /\ 0 <= k <= len [9; 8; 7; 6]%Q - 1.
Proof.
  exact (find_index_within_axis [9; 8; 7; 6]%Q (-3) (or_intror descending_9876)
           ltac:(simpl; lia)).
Defined.

(** X3.  [find_index] raises exactly on an axis of fewer than two
    elements, whatever the order of the axis and whatever the value: the
    direction test reads the first two elements. *)
Theorem find_index_raises_iff_short (axis : list Q) (item : Q) :
  raises (find_index axis item) = true <-> (length axis < 2)%nat.
Proof.
  split.
  - intros Hraises. destruct (Nat.lt_ge_cases (length axis) 2) as [Hshort|Hlong];
      [exact Hshort|].
    destruct (find_index_returns axis item Hlong) as [k Hk].
    rewrite Hk in Hraises. discriminate.
  - intros Hshort. rewrite (find_index_raises axis item Hshort). reflexivity.
Qed.

(** X4.  [find_index] is monotone in the value: on an ascending axis a
    larger value never gets a smaller index, on a descending axis it
    never gets a larger one. *)
Theorem find_index_monotone (axis : list Q) (item item' : Q) (k k' : Z) :
  (2 <= length axis)%nat -> (item <= item')%Q ->
  find_index axis item = Ok k -> find_index axis item' = Ok k' ->
  (ascending axis -> k <= k') /\ (descending axis -> k' <= k).
Proof.
  intros Hlen Hle Hk Hk'.
  assert (Hne : axis <> []) by (destruct axis; [simpl in Hlen; lia | discriminate]).
  split.
  - intros Ha.
    destruct (find_index_ascending_cases axis item Ha Hlen) as [j [Hj [Hr Hc]]].
    destruct (find_index_ascending_cases axis item' Ha Hlen) as [j' [Hj' [Hr' Hc']]].
    rewrite Hk in Hj. injection Hj as <-. rewrite Hk' in Hj'. injection Hj' as <-.
    pose proof (ascending_hd_le_last axis Ha Hne) as Hends.
    destruct Hc as [[Hlow ->]|[[Hhigh ->]|[Hlo [Hhi Hfl]]]]; [lia | |].
    + destruct Hc' as [[Hlow' _]|[[_ ->]|[_ [Hhi' _]]]]; [lra | lia | lra].
    + destruct Hc' as [[Hlow' _]|[[_ ->]|[_ [_ Hfl']]]]; [lra | lia |].
      destruct (floor_index_nth axis item k Hfl) as [Hklt [Hkle _]].
      destruct (floor_index_nth axis item' k' Hfl') as [Hklt' [_ Hmax']].
      specialize (Hmax' (Z.to_nat k) Hklt ltac:(lra)).
      destruct (Z.le_gt_cases k k') as [|Hgt]; [assumption|]. exfalso.
      pose proof (ascending_nth axis Ha (Z.to_nat k') (Z.to_nat k) ltac:(lia)). lra.
  - intros Hd.
    destruct (find_index_descending_cases axis item Hd Hlen) as [j [Hj [Hr Hc]]].
    destruct (find_index_descending_cases axis item' Hd Hlen) as [j' [Hj' [Hr' Hc']]].
    rewrite Hk in Hj. injection Hj as <-. rewrite Hk' in Hj'. injection Hj' as <-.
    pose proof (descending_last_le_hd axis Hd Hne) as Hends.
    destruct Hc' as [[Hhigh' ->]|[[Hlow' ->]|[Hlo' [Hhi' Hfl']]]]; [lia | |].
    + destruct Hc as [[Hhigh _]|[[_ ->]|[Hlo _]]]; [lra | lia | lra].
    + destruct Hc as [[Hhigh _]|[[_ ->]|[_ [_ Hfl]]]]; [lra | lia |].
      destruct (floor_index_nth axis item k Hfl) as [Hklt [Hkle _]].
      destruct (floor_index_nth axis item' k' Hfl') as [Hklt' [_ Hmax']].
      specialize (Hmax' (Z.to_nat k) Hklt ltac:(lra)).
      destruct (Z.le_gt_cases k' k) as [|Hgt]; [assumption|]. exfalso.
      pose proof (descending_nth axis Hd (Z.to_nat k) (Z.to_nat k') ltac:(lia)). lra.
Qed.

Lemma find_index_monotone_witness :
  (ascending [6; 7; 8; 9]%Q -> 0 <= 2) /\ (descending [6; 7; 8; 9]%Q -> 2 <= 0).
Proof.
  exact (find_index_monotone [6; 7; 8; 9]%Q (13 # 2) (17 # 2) 0 2
           ltac:(simpl; lia) ltac:(discriminate) eq_refl eq_refl).
Defined.

(** ** Slicer *)

Lemma progression_last (a d : Z) (m : nat) :
  last (progression a d (S m)) 0 = a + d * Z.of_nat m.
Proof.
  rewrite progression_snoc. apply last_last.
Qed.

(** X5.  The boundaries of [calculate_slices] are symmetric about the
    index of the center: with every boundary its mirror image is a
    boundary, the first and the last boundary add up to twice that index;
    the boundaries delimit at most [number_of_slices] slices (one slice
    when that number is negative), and the slice length is missing
    exactly when there is no boundary. *)
Theorem calculate_slices_symmetric (axis : list Q)
    (center standard_deviation scaling : Q) (number_of_slices : Z)
    (index_center : Z) (l : list Z) (n : Z) (slice_length : option Q) :
  find_index axis center = Ok index_center ->
  calculate_slices axis center standard_deviation scaling number_of_slices
  = Ok (l, n, slice_length) ->
  (forall b, In b l -> In (2 * index_center - b) l) /\
  (l <> [] -> hd 0 l + last l 0 = 2 * index_center) /\
  Z.of_nat (length l) - 1 <= Z.max 1 number_of_slices /\
  (slice_length = None <-> l = []).
Proof.
  intros Hic Hok.
  destruct (calculate_slices_ok_inv _ _ _ _ _ _ Hok) as [Hodd Hlen].
  destruct (calculate_slices_shape axis center standard_deviation scaling
              number_of_slices Hlen (odd_mod2 _ Hodd))
    as [ic [ih [Hic' [_ Hcases]]]].
  rewrite Hic in Hic'. injection Hic' as <-.
  cbv zeta in Hcases.
  assert (Hn : 1 <= half_slice index_center ih) by (unfold half_slice; lia).
  set (m := half_slice index_center ih) in *.
  destruct Hcases as [[_ Hres] | [Hlo [Hhi [j [a_start [a_end [_ [_ [Hacc Hres]]]]]]]]];
    rewrite Hres in Hok.
  - assert (El : l = []) by congruence.
    assert (Es : slice_length = None) by congruence. subst l slice_length.
    split; [intros b [] | split; [congruence | split; [simpl; lia|]]].
    split; reflexivity.
  - assert (El : l = progression (index_center - m - 2 * m * Z.of_nat j) (2 * m)
                       (2 + 2 * j)) by congruence.
    assert (Es : slice_length = Some (Qabs (a_start - a_end))) by congruence.
    subst l slice_length.
    split; [|split; [|split]].
    + intros b Hb. apply progression_in in Hb. destruct Hb as [i [Hi ->]].
      apply progression_in. exists (1 + 2 * j - i)%nat. split; [lia|].
      replace (Z.of_nat (1 + 2 * j - i)) with (1 + 2 * Z.of_nat j - Z.of_nat i) by lia.
      ring.
    + intros _. change (2 + 2 * j)%nat with (S (S (2 * j))).
      rewrite progression_last. rewrite progression_cons. cbn [hd].
      replace (Z.of_nat (S (2 * j))) with (1 + 2 * Z.of_nat j) by lia. ring.
    + rewrite progression_length. destruct Hacc as [_ [Hran _]]. lia.
    + split; [discriminate|]. intros Hnil.
      apply (f_equal (@length Z)) in Hnil. rewrite progression_length in Hnil.
      simpl in Hnil. lia.
Qed.

Lemma calculate_slices_symmetric_witness :
  hd 0 [0; 2; 4; 6; 8; 10] + last [0; 2; 4; 6; 8; 10] 0 = 2 * 5.
Proof.
  apply (calculate_slices_symmetric [0; 1; 2; 3; 4; 5; 6; 7; 8; 9; 10]%Q 5 9 2 9
           5 [0; 2; 4; 6; 8; 10] 1 (Some 2%Q) eq_refl).
  - vm_compute. reflexivity.
  - discriminate.
Defined.

(** X6.  When all the slices fit on the axis, [calculate_slices] returns
    all of them: for an odd positive [number_of_slices] with
    [index_center - n * number_of_slices] and
    [index_center + n * number_of_slices] on the axis, the boundaries are
    the [number_of_slices + 1] indices from the first of these to the
    second, [2 * n] apart. *)
Theorem calculate_slices_complete (axis : list Q)
    (center standard_deviation scaling : Q) (number_of_slices : Z)
    (index_center index_half_slice : Z) :
  Z.odd number_of_slices = true -> 1 <= number_of_slices ->
  find_index axis center = Ok index_center ->
  find_index axis
    (center + scaling * standard_deviation / inject_Z number_of_slices / 2)%Q
    = Ok index_half_slice ->
  let n := half_slice index_center index_half_slice in
  0 <= index_center - n * number_of_slices ->
  index_center + n * number_of_slices < len axis ->
  exists slice_length : Q,
    calculate_slices axis center standard_deviation scaling number_of_slices
    = Ok (progression (index_center - n * number_of_slices) (2 * n)
            (Z.to_nat (number_of_slices + 1)),
          n, Some slice_length).
Proof.
  intros Hodd Hpos Hic Hih n Hfirst Hlast.
  assert (Hlen : (2 <= length axis)%nat).
  { destruct (Nat.lt_ge_cases (length axis) 2) as [Hshort|Hlong]; [|exact Hlong].
    rewrite (find_index_raises axis center Hshort) in Hic. discriminate. }
  destruct (calculate_slices_shape axis center standard_deviation scaling
              number_of_slices Hlen (odd_mod2 _ Hodd))
    as [ic [ih [Hic' [Hih' Hcases]]]].
  rewrite Hic in Hic'. injection Hic' as <-.
  rewrite Hih in Hih'. injection Hih' as <-.
  cbv zeta in Hcases. fold n in Hcases.
  assert (Hn : 1 <= n) by (unfold n, half_slice; lia).
  destruct Hcases as [[Hout _] | [_ [_ [j [a_start [a_end [_ [_ [Hacc Hres]]]]]]]]];
    [nia|].
  exists (Qabs (a_start - a_end)). rewrite Hres.
  destruct Hacc as [_ [Hran Hstop]].
  assert (Hmod := odd_mod2 _ Hodd).
  assert (Hbound := Z.mod_pos_bound number_of_slices 2 ltac:(lia)).
  assert (Hdiv := Z.div_mod number_of_slices 2 ltac:(lia)).
  assert (Hj : 2 * Z.of_nat j = number_of_slices - 1).
  { destruct (Z.le_gt_cases (number_of_slices - 1) (2 * Z.of_nat j)) as [Hge|Hlt].
    - destruct Hran as [->|Hran]; lia.
    - exfalso.
      assert (Hnext : 2 * Z.of_nat (S j) <= number_of_slices - 1) by lia.
      destruct Hstop as [Hs|[Hs|Hs]]; [lia | nia | nia]. }
  replace (index_center - n - 2 * n * Z.of_nat j)
    with (index_center - n * number_of_slices) by nia.
  replace (2 + 2 * j)%nat with (Z.to_nat (number_of_slices + 1)) by lia.
  reflexivity.
Qed.

Lemma calculate_slices_complete_witness :
  exists slice_length : Q,
    calculate_slices [0; 1; 2; 3; 4; 5; 6; 7; 8; 9; 10]%Q 5 3 2 3
    = Ok (progression (5 - 1 * 3) (2 * 1) (Z.to_nat (3 + 1)), 1, Some slice_length).
Proof.
  apply (calculate_slices_complete [0; 1; 2; 3; 4; 5; 6; 7; 8; 9; 10]%Q 5 3 2 3 5 6
           eq_refl ltac:(lia) eq_refl eq_refl).
  - discriminate.
  - reflexivity.
Defined.

Lemma adjacent_pairs_length (l : list Z) :
  length (adjacent_pairs l) = (length l - 1)%nat.
Proof.
  induction l as [|a l IH]; [reflexivity|].
  destruct l as [|b l]; [reflexivity|].
  change (adjacent_pairs (a :: b :: l)) with ((a, b) :: adjacent_pairs (b :: l)).
  cbn [length] in *. lia.
Qed.

Lemma adjacent_pairs_in (l : list Z) (w : Z * Z) :
  In w (adjacent_pairs l) -> In (fst w) l /\ In (snd w) l.
Proof.
  induction l as [|a l IH]; [intros []|].
  destruct l as [|b l]; [intros []|].
  change (adjacent_pairs (a :: b :: l)) with ((a, b) :: adjacent_pairs (b :: l)).
  intros [<-|Hin].
  - split; [left; reflexivity | right; left; reflexivity].
  - destruct (IH Hin) as [H1 H2]. split; right; assumption.
Qed.

Lemma for_each_length {A B : Type} (body : A -> result B) (l : list A) :
  (forall a, In a l -> raises (body a) = false) ->
  exists bs, for_each body l = Ok bs /\ length bs = length l.
Proof.
  induction l as [|a rest IH]; intros Hbody.
  - exists []. split; reflexivity.
  - cbn [for_each]. pose proof (Hbody a (or_introl eq_refl)) as Ha.
    destruct (body a) as [b|e]; [|discriminate]. cbn [bind].
    destruct IH as [bs [Hbs Hlen]]; [intros x Hx; apply Hbody; right; exact Hx|].
    rewrite Hbs. cbn [bind]. exists (b :: bs). split; [reflexivity | simpl; lia].
Qed.

(** No window is dropped when the image is as large as the axis. *)
Lemma slice_windows_all (size : Z) (l : list Z) :
  Forall (fun b => b < size) l -> slice_windows size l = adjacent_pairs l.
Proof.
  intros Hall. unfold slice_windows. apply forallb_filter_id.
  apply forallb_forall. intros w Hw. destruct (adjacent_pairs_in l w Hw) as [H1 H2].
  rewrite Forall_forall in Hall.
  apply andb_true_iff. split; apply Z.ltb_lt; apply Hall; assumption.
Qed.



(** ** Image preprocessor *)

Lemma map2_map_r {A B C : Type} (f : A -> B -> C) (g : A -> B) (l : list A) :
  map2 f l (map g l) = map (fun a => f a (g a)) l.
Proof.
  induction l as [|a l IH]; [reflexivity|]. cbn [map map2]. rewrite IH. reflexivity.
Qed.

Lemma map2_diag {A C : Type} (f : A -> A -> C) (l : list A) :
  map2 f l l = map (fun a => f a a) l.
Proof.
  induction l as [|a l IH]; [reflexivity|]. cbn [map map2]. rewrite IH. reflexivity.
Qed.

Lemma full_like_length (im : image) (v : Z) : len (full_like im v) = len im.
Proof. unfold full_like, len. rewrite length_map. reflexivity. Qed.

(** X9.  Subtracting an all-zero background of the same shape leaves an
    image without negative entries unchanged.  Subtracting an image from
    itself leaves at every pixel the pixel minus its value cast to
    [uint16]: the all-zero image when every pixel is a [uint16] value,
    and not in general, since the second operand is cast. *)
Theorem subtract_background_zero_and_self (im : ndarray) :
  well_formed_array im ->
  (Forall (Forall (fun v => 0 <= v)) (nd_rows im) ->
   subtract_background im (zeros_like im) = Ok im) /\
  subtract_background im im
  = Ok {| nd_dtype := nd_dtype im; nd_width := nd_width im;
          nd_rows := map (map (fun a => wrap (nd_dtype im) (a - uint16 a))) (nd_rows im) |} /\
  (uint16_image (nd_rows im) -> subtract_background im im = Ok (zeros_like im)).
Proof.
  intros [_ Hrange].
  assert (Hself : subtract_background im im
            = Ok {| nd_dtype := nd_dtype im; nd_width := nd_width im;
                    nd_rows := map (map (fun a => wrap (nd_dtype im) (a - uint16 a)))
                                   (nd_rows im) |}).
  { rewrite subtract_background_pixelwise by reflexivity.
    do 2 f_equal. rewrite map2_diag. apply map_ext. intros row.
    rewrite map2_diag. apply map_ext. intros v.
    destruct (Z.gtb_spec v v); [lia | reflexivity]. }
  split; [|split; [exact Hself|]].
  - intros Hnonneg. rewrite subtract_background_pixelwise
      by (unfold nd_shape, zeros_like; cbn [nd_rows nd_width];
          rewrite full_like_length; reflexivity).
    destruct im as [dt width rows]. cbn [nd_dtype nd_width nd_rows zeros_like] in *.
    do 2 f_equal. unfold full_like. rewrite map2_map_r.
    rewrite <- (map_id rows) at 2. apply map_ext_Forall.
    rewrite Forall_forall in *. intros row Hrow.
    specialize (Hrange row Hrow). specialize (Hnonneg row Hrow).
    rewrite map2_map_r. rewrite <- (map_id row) at 2. apply map_ext_Forall.
    rewrite Forall_forall in *. intros v Hv.
    specialize (Hrange v Hv). specialize (Hnonneg v Hv). cbv beta in *.
    replace (0 >? v) with false
      by (symmetry; destruct (Z.gtb_spec 0 v); [lia | reflexivity]).
    change (uint16 0) with 0. rewrite Z.sub_0_r. apply wrap_small. exact Hrange.
  - intros Hu. rewrite Hself. unfold zeros_like, full_like. do 2 f_equal.
    apply map_ext_Forall. eapply Forall_impl; [|exact Hu]. cbv beta. intros row Hrow.
    apply map_ext_Forall. eapply Forall_impl; [|exact Hrow]. cbv beta. intros v Hv.
    unfold uint16. rewrite (Z.mod_small v) by lia. rewrite Z.sub_diag.
    apply wrap_small. unfold in_range. destruct (nd_dtype im); cbn; lia.
Qed.

Lemma subtract_background_zero_and_self_witness :
  subtract_background
    {| nd_dtype := I32; nd_width := 1; nd_rows := [[70000]] |}
    {| nd_dtype := I32; nd_width := 1; nd_rows := [[70000]] |}
  = Ok {| nd_dtype := I32; nd_width := 1; nd_rows := [[65536]] |} /\
  subtract_background
    {| nd_dtype := U16; nd_width := 2; nd_rows := [[5; 3]; [0; 65535]] |}
    (zeros_like {| nd_dtype := U16; nd_width := 2; nd_rows := [[5; 3]; [0; 65535]] |})
  = Ok {| nd_dtype := U16; nd_width := 2; nd_rows := [[5; 3]; [0; 65535]] |}.
Proof.
  split.
  - apply (proj1 (proj2 (subtract_background_zero_and_self
                           {| nd_dtype := I32; nd_width := 1; nd_rows := [[70000]] |}
                           ltac:(split; repeat constructor; cbn; lia)))).
  - apply (proj1 (subtract_background_zero_and_self
                    {| nd_dtype := U16; nd_width := 2; nd_rows := [[5; 3]; [0; 65535]] |}
                    ltac:(split; repeat constructor; cbn; lia))).
    repeat constructor; lia.
Defined.

Lemma pyslice_in {A : Type} (l : list A) (a b : Z) (x : A) :
  In x (pyslice l a b) -> In x l.
Proof.
  unfold pyslice. intros Hin.
  rewrite <- (firstn_skipn (slice_bound l a) l). apply in_or_app. right.
  rewrite <- (firstn_skipn (slice_bound l b - slice_bound l a)
                           (skipn (slice_bound l a) l)).
  apply in_or_app. left. exact Hin.
Qed.

Lemma pyslice_nth_error {A : Type} (l : list A) (a b : Z) (i : nat) :
  0 <= a <= b -> b <= len l ->
  nth_error (pyslice l a b) i
  = if (Z.of_nat i <? b - a) then nth_error l (Z.to_nat a + i) else None.
Proof.
  intros Hab Hb. unfold pyslice, slice_bound.
  replace (a <? 0) with false by (symmetry; apply Z.ltb_ge; lia).
  replace (b <? 0) with false by (symmetry; apply Z.ltb_ge; lia).
  rewrite !Z.max_r, !Z.min_r by lia.
  rewrite nth_error_firstn, nth_error_skipn.
  destruct (Nat.ltb_spec i (Z.to_nat b - Z.to_nat a));
    destruct (Z.ltb_spec (Z.of_nat i) (b - a)); try reflexivity; lia.
Qed.

(** X10.  A region of interest that lies within a rectangular image has
    [size_y] rows of [size_x] pixels, and its pixel at row [r] and column
    [c] is the pixel of the image at row [offset_y + r] and column
    [offset_x + c]. *)
Theorem get_region_of_interest_pixels (im : image) (offset_x size_x offset_y size_y : Z) :
  rectangular im ->
  0 <= offset_x -> 0 <= size_x -> offset_x + size_x <= snd (shape im) ->
  0 <= offset_y -> 0 <= size_y -> offset_y + size_y <= fst (shape im) ->
  let roi := get_region_of_interest im offset_x size_x offset_y size_y in
  len roi = size_y /\
  Forall (fun row => len row = size_x) roi /\
  forall r c : nat,
    Z.of_nat r < size_y -> Z.of_nat c < size_x ->
    pixel roi r c = pixel im (Z.to_nat offset_y + r) (Z.to_nat offset_x + c).
Proof.
  intros Hrect Hox Hsx Hx Hoy Hsy Hy roi. unfold roi, get_region_of_interest.
  cbn [shape fst] in Hy.
  assert (Hrows : forall row, In row (pyslice im offset_y (offset_y + size_y)) ->
                              len row = snd (shape im)).
  { intros row Hin. unfold rectangular in Hrect. rewrite Forall_forall in Hrect.
    apply Hrect. exact (pyslice_in im _ _ row Hin). }
  split; [|split].
  - unfold len. rewrite length_map. fold (len (pyslice im offset_y (offset_y + size_y))).
    rewrite pyslice_length; lia.
  - apply Forall_forall. intros row Hin. apply in_map_iff in Hin.
    destruct Hin as [row' [<- Hin']]. specialize (Hrows row' Hin').
    rewrite pyslice_length; lia.
  - intros r c Hr Hc. unfold pixel. rewrite nth_error_map.
    rewrite pyslice_nth_error by lia.
    replace (Z.of_nat r <? offset_y + size_y - offset_y) with true
      by (symmetry; apply Z.ltb_lt; lia).
    destruct (nth_error im (Z.to_nat offset_y + r)) as [row|] eqn:Erow;
      cbn [option_map]; [|reflexivity].
    assert (Hlen : len row = snd (shape im)).
    { unfold rectangular in Hrect. rewrite Forall_forall in Hrect.
      apply Hrect. eapply nth_error_In, Erow. }
    rewrite pyslice_nth_error by lia.
    replace (Z.of_nat c <? offset_x + size_x - offset_x) with true
      by (symmetry; apply Z.ltb_lt; lia).
    reflexivity.
Qed.

Lemma get_region_of_interest_pixels_witness :
  get_region_of_interest [[1; 2; 3]; [4; 5; 6]; [7; 8; 9]] 1 2 1 1 = [[5; 6]] /\
  pixel (get_region_of_interest [[1; 2; 3]; [4; 5; 6]; [7; 8; 9]] 1 2 1 1) 0 1
  = pixel [[1; 2; 3]; [4; 5; 6]; [7; 8; 9]] (Z.to_nat 1 + 0) (Z.to_nat 1 + 1).
Proof.
  split; [reflexivity|].
  apply (get_region_of_interest_pixels [[1; 2; 3]; [4; 5; 6]; [7; 8; 9]] 1 2 1 1
           ltac:(repeat constructor) ltac:(lia) ltac:(lia) ltac:(discriminate)
           ltac:(lia) ltac:(lia) ltac:(discriminate)); reflexivity.
Defined.

(** X11.  [apply_threshold] leaves an image in which every pixel is 0 or
    at least the truncated threshold and in which the pixels that were at
    least the truncated threshold are unchanged; applying it a second
    time changes nothing. *)
Theorem apply_threshold_idempotent (im : image) (threshold : Q) :
  apply_threshold (apply_threshold im threshold) threshold
  = apply_threshold im threshold /\
  (forall r c v, pixel (apply_threshold im threshold) r c = Some v ->
     v = 0 \/ Qtrunc threshold <= v) /\
  (forall r c v, pixel im r c = Some v -> Qtrunc threshold <= v ->
     pixel (apply_threshold im threshold) r c = Some v).
Proof.
  unfold apply_threshold. split; [|split].
  - rewrite map_map. apply map_ext. intros row. rewrite map_map. apply map_ext.
    intros v. destruct (Z.ltb_spec v (Qtrunc threshold)) as [Hlt|Hge].
    + destruct (Z.ltb_spec 0 (Qtrunc threshold)); reflexivity.
    + destruct (Z.ltb_spec v (Qtrunc threshold)); [lia | reflexivity].
  - intros r c v. unfold pixel. rewrite nth_error_map.
    destruct (nth_error im r) as [row|]; cbn [option_map]; [|discriminate].
    rewrite nth_error_map. destruct (nth_error row c) as [u|]; cbn [option_map];
      [|discriminate].
    intros [= <-]. destruct (Z.ltb_spec u (Qtrunc threshold)); [left | right]; lia.
  - intros r c v. unfold pixel. rewrite nth_error_map.
    destruct (nth_error im r) as [row|]; cbn [option_map]; [|discriminate].
    rewrite nth_error_map. intros -> Hge. cbn [option_map].
    destruct (Z.ltb_spec v (Qtrunc threshold)); [lia | reflexivity].
Qed.

Lemma fold_min_spec (l : list Z) (x : Z) :
  (forall v, In v (x :: l) -> fold_left Z.min l x <= v) /\ In (fold_left Z.min l x) (x :: l).
Proof.
  revert x. induction l as [|y l IH]; intros x.
  - split; [intros v [<-|[]]; cbn; lia | left; reflexivity].
  - cbn [fold_left]. destruct (IH (Z.min x y)) as [Hle Hin]. split.
    + intros v [<-|[<-|Hv]].
      * specialize (Hle (Z.min x y) (or_introl eq_refl)). lia.
      * specialize (Hle (Z.min x y) (or_introl eq_refl)). lia.
      * apply Hle. right. exact Hv.
    + destruct Hin as [Hin|Hin].
      * rewrite <- Hin. destruct (Z.min_spec x y) as [[_ ->]|[_ ->]];
          [left | right; left]; reflexivity.
      * right. right. exact Hin.
Qed.

Lemma fold_max_spec (l : list Z) (x : Z) :
  (forall v, In v (x :: l) -> v <= fold_left Z.max l x) /\ In (fold_left Z.max l x) (x :: l).
Proof.
  revert x. induction l as [|y l IH]; intros x.
  - split; [intros v [<-|[]]; cbn; lia | left; reflexivity].
  - cbn [fold_left]. destruct (IH (Z.max x y)) as [Hle Hin]. split.
    + intros v [<-|[<-|Hv]].
      * specialize (Hle (Z.max x y) (or_introl eq_refl)). lia.
      * specialize (Hle (Z.max x y) (or_introl eq_refl)). lia.
      * apply Hle. right. exact Hv.
    + destruct Hin as [Hin|Hin].
      * rewrite <- Hin. destruct (Z.max_spec x y) as [[_ ->]|[_ ->]];
          [right; left | left]; reflexivity.
      * right. right. exact Hin.
Qed.

Lemma pixel_in_concat (im : image) (v : Z) :
  In v (concat im) <-> exists r c, pixel im r c = Some v.
Proof.
  rewrite in_concat. unfold pixel. split.
  - intros [row [Hrow Hv]].
    destruct (In_nth_error im row Hrow) as [r Hr].
    destruct (In_nth_error row v Hv) as [c Hc].
    exists r, c. rewrite Hr. exact Hc.
  - intros [r [c Hrc]]. destruct (nth_error im r) as [row|] eqn:Er; [|discriminate].
    exists row. split; [eapply nth_error_In, Er | eapply nth_error_In, Hrc].
Qed.

(** X12.  [get_min_max] raises exactly on an image without pixels;
    otherwise the two values it returns are pixels of the image and
    bound every pixel from below and from above. *)
Theorem get_min_max_bounds (im : image) :
  (raises (get_min_max im) = true <-> concat im = []) /\
  forall image_min image_max,
    get_min_max im = Ok (image_min, image_max) ->
    (forall r c v, pixel im r c = Some v -> image_min <= v <= image_max) /\
    (exists r c, pixel im r c = Some image_min) /\
    (exists r c, pixel im r c = Some image_max).
Proof.
  unfold get_min_max. destruct (concat im) as [|x rest] eqn:Epix.
  - split; [split; reflexivity | discriminate].
  - cbn [z_min z_max bind]. split; [split; discriminate|].
    intros image_min image_max [= <- <-].
    destruct (fold_min_spec rest x) as [Hmin Hmin_in].
    destruct (fold_max_spec rest x) as [Hmax Hmax_in].
    rewrite <- Epix in *.
    split; [|split].
    + intros r c v Hv.
      assert (Hin : In v (concat im)) by (apply pixel_in_concat; exists r, c; exact Hv).
      split; [apply Hmin | apply Hmax]; exact Hin.
    + apply pixel_in_concat. exact Hmin_in.
    + apply pixel_in_concat. exact Hmax_in.
Qed.

(** ** Profile extractor *)

Lemma z_sum_acc (l : list Z) (a : Z) : fold_left Z.add l a = a + z_sum l.
Proof.
  unfold z_sum. revert a. induction l as [|x l IH]; intros a; cbn [fold_left]; [lia|].
  rewrite (IH (a + x)), (IH (0 + x)). lia.
Qed.

Lemma z_sum_cons (x : Z) (l : list Z) : z_sum (x :: l) = x + z_sum l.
Proof. unfold z_sum at 1. cbn [fold_left]. rewrite z_sum_acc. lia. Qed.

Lemma z_sum_app (l m : list Z) : z_sum (l ++ m) = z_sum l + z_sum m.
Proof.
  induction l as [|x l IH]; [reflexivity|].
  cbn [app]. rewrite !z_sum_cons, IH. lia.
Qed.

Lemma z_sum_map_add {A : Type} (f g : A -> Z) (l : list A) :
  z_sum (map (fun a => f a + g a) l) = z_sum (map f l) + z_sum (map g l).
Proof.
  induction l as [|a l IH]; [reflexivity|].
  cbn [map]. rewrite !z_sum_cons, IH. lia.
Qed.

Lemma z_sum_map_zero {A : Type} (l : list A) : z_sum (map (fun _ => 0) l) = 0.
Proof.
  induction l as [|a l IH]; [reflexivity|]. cbn [map]. rewrite z_sum_cons, IH. lia.
Qed.

(** The sum of a row is the sum of its entries by position. *)
Lemma z_sum_by_index (row : list Z) :
  z_sum (map (fun j => nth j row 0) (seq 0 (length row))) = z_sum row.
Proof.
  induction row as [|x row IH]; [reflexivity|].
  cbn [length seq map nth]. rewrite !z_sum_cons. f_equal.
  rewrite <- seq_shift, map_map. exact IH.
Qed.

(** Summing the column sums of [w] columns. *)
Lemma z_sum_columns (im : image) (w : nat) :
  Forall (fun row => length row = w) im ->
  z_sum (map (fun j => z_sum (map (fun row => nth j row 0) im)) (seq 0 w))
  = z_sum (map z_sum im).
Proof.
  induction im as [|row im IH]; intros Hall.
  - cbn [map]. rewrite z_sum_map_zero. reflexivity.
  - inversion Hall as [|? ? Hrow Hrest]; subst.
    cbn [map]. rewrite z_sum_cons.
    rewrite (map_ext (fun j => z_sum (nth j row 0 :: map (fun r => nth j r 0) im))
                     (fun j => nth j row 0 + z_sum (map (fun r => nth j r 0) im)))
      by (intros j; apply z_sum_cons).
    rewrite z_sum_map_add, z_sum_by_index, (IH Hrest). reflexivity.
Qed.

(** X13.  The two profiles of a rectangular image carry the same
    intensity, the sum of all pixels, and have the lengths of the two
    dimensions of the image. *)
Theorem profiles_share_intensity (im : image) :
  rectangular im ->
  let '(x_profile, y_profile) := get_x_y_profile im in
  get_intensity x_profile = get_intensity y_profile /\
  get_intensity y_profile = z_sum (concat im) /\
  len x_profile = snd (shape im) /\
  len y_profile = fst (shape im).
Proof.
  intros Hrect. unfold get_x_y_profile, get_intensity. cbv zeta.
  split; [|split; [|split]].
  - destruct im as [|row0 im']; [reflexivity|].
    unfold columns. rewrite map_map. apply z_sum_columns.
    unfold rectangular in Hrect. cbn [shape snd] in Hrect.
    eapply Forall_impl; [|exact Hrect]. cbv beta. unfold len. intros row Hrow. lia.
  - clear Hrect. induction im as [|row im IH]; [reflexivity|].
    cbn [map concat]. rewrite z_sum_cons, IH, z_sum_app. reflexivity.
  - unfold len. rewrite length_map, columns_length.
    destruct im; cbn [shape snd]; unfold len; lia.
  - unfold len. rewrite length_map. reflexivity.
Qed.

Lemma profiles_share_intensity_witness :
  get_intensity (fst (get_x_y_profile [[1; 2; 3]; [4; 5; 6]]))
  = get_intensity (snd (get_x_y_profile [[1; 2; 3]; [4; 5; 6]])).
Proof.
  exact (proj1 (profiles_share_intensity [[1; 2; 3]; [4; 5; 6]]
                  ltac:(repeat constructor))).
Defined.

(** ** Good region *)

Lemma argmax_from_range (l : list Q) :
  forall (i best_index : Z) (best : Q),
    0 <= best_index < i ->
    0 <= argmax_from l i best_index best < i + len l.
Proof.
  induction l as [|y rest IH]; intros i best_index best Hb; cbn [argmax_from].
  - unfold len. simpl. lia.
  - assert (Hlen : len (y :: rest) = 1 + len rest) by (unfold len; cbn [length]; lia).
    pose proof (len_nonneg rest) as Hrest.
    destruct (Qlt_bool best y).
    + specialize (IH (i + 1) i y ltac:(lia)). lia.
    + specialize (IH (i + 1) best_index best ltac:(lia)). lia.
Qed.

Lemma np_argmax_ok (profile : list Q) :
  profile <> [] -> exists i, np_argmax profile = Ok i /\ 0 <= i < len profile.
Proof.
  destruct profile as [|x rest]; [congruence|]. intros _.
  exists (argmax_from rest 1 0 x). split; [reflexivity|].
  pose proof (argmax_from_range rest 1 0 x ltac:(lia)).
  unfold len in *. cbn [length]. lia.
Qed.

Lemma range_in (start stop k : Z) : In k (range start stop) <-> start <= k < stop.
Proof.
  unfold range. rewrite in_map_iff. split.
  - intros [i [<- Hi]]. apply in_seq in Hi. lia.
  - intros Hk. exists (Z.to_nat (k - start)). split; [lia | apply in_seq; lia].
Qed.

Lemma first_below_upwards (profile : list Q) (threshold_value : Q) (bound : Z) :
  forall (count : nat) (start k : Z),
    first_below profile threshold_value
      (map (fun j => start + Z.of_nat j) (seq 0 count)) bound = Ok k ->
    (k = bound /\
     forall i, start <= i < start + Z.of_nat count -> not_below profile threshold_value i)
    \/
    (start <= k < start + Z.of_nat count /\ below profile threshold_value k /\
     forall i, start <= i < k -> not_below profile threshold_value i).
Proof.
  induction count as [|count IH]; intros start k; cbn [seq map first_below].
  - intros [= <-]. left. split; [reflexivity | intros i Hi; lia].
  - replace (start + Z.of_nat 0) with start by lia.
    destruct (getitem profile start) as [p|e] eqn:Ep; cbn [bind]; [|discriminate].
    destruct (Qlt_bool p threshold_value) eqn:Elt.
    + intros [= <-]. right. split; [lia | split; [|intros i Hi; lia]].
      exists p. split; [exact Ep | apply Qlt_bool_iff; exact Elt].
    + rewrite <- seq_shift, map_map.
      rewrite (map_ext (fun j => start + Z.of_nat (S j)) (fun j => start + 1 + Z.of_nat j))
        by (intros j; lia).
      intros Hk. apply Qlt_bool_false_iff in Elt.
      assert (Hstart : not_below profile threshold_value start)
        by (exists p; split; assumption).
      destruct (IH (start + 1) k Hk) as [[-> Hall]|[Hr [Hb Hall]]].
      * left. split; [reflexivity|]. intros i Hi.
        destruct (Z.eq_dec i start) as [->|Hne]; [exact Hstart | apply Hall; lia].
      * right. split; [lia | split; [exact Hb|]]. intros i Hi.
        destruct (Z.eq_dec i start) as [->|Hne]; [exact Hstart | apply Hall; lia].
Qed.

Lemma first_below_downwards (profile : list Q) (threshold_value : Q) (bound : Z) :
  forall (count : nat) (start k : Z),
    first_below profile threshold_value
      (map (fun j => start - Z.of_nat j) (seq 0 count)) bound = Ok k ->
    (k = bound /\
     forall i, start - Z.of_nat count < i <= start -> not_below profile threshold_value i)
    \/
    (start - Z.of_nat count < k <= start /\ below profile threshold_value k /\
     forall i, k < i <= start -> not_below profile threshold_value i).
Proof.
  induction count as [|count IH]; intros start k; cbn [seq map first_below].
  - intros [= <-]. left. split; [reflexivity | intros i Hi; lia].
  - replace (start - Z.of_nat 0) with start by lia.
    destruct (getitem profile start) as [p|e] eqn:Ep; cbn [bind]; [|discriminate].
    destruct (Qlt_bool p threshold_value) eqn:Elt.
    + intros [= <-]. right. split; [lia | split; [|intros i Hi; lia]].
      exists p. split; [exact Ep | apply Qlt_bool_iff; exact Elt].
    + rewrite <- seq_shift, map_map.
      rewrite (map_ext (fun j => start - Z.of_nat (S j)) (fun j => start - 1 - Z.of_nat j))
        by (intros j; lia).
      intros Hk. apply Qlt_bool_false_iff in Elt.
      assert (Hstart : not_below profile threshold_value start)
        by (exists p; split; assumption).
      destruct (IH (start - 1) k Hk) as [[-> Hall]|[Hr [Hb Hall]]].
      * left. split; [reflexivity|]. intros i Hi.
        destruct (Z.eq_dec i start) as [->|Hne]; [exact Hstart | apply Hall; lia].
      * right. split; [lia | split; [exact Hb|]]. intros i Hi.
        destruct (Z.eq_dec i start) as [->|Hne]; [exact Hstart | apply Hall; lia].
Qed.

Lemma first_below_ok (profile : list Q) (threshold_value : Q) (indices : list Z)
    (bound : Z) :
  (forall i, In i indices -> 0 <= i < len profile) ->
  exists k, first_below profile threshold_value indices bound = Ok k.
Proof.
  induction indices as [|i rest IH]; intros Hall; cbn [first_below].
  - eexists. reflexivity.
  - rewrite (getitem_nth profile i 0%Q) by (apply Hall; left; reflexivity).
    cbn [bind]. destruct (Qlt_bool _ threshold_value); [eexists; reflexivity|].
    apply IH. intros j Hj. apply Hall. right. exact Hj.
Qed.

(** On a non-empty profile the scans return bounds around the maximum. *)
Lemma good_region_core_ok (profile : list Q) (threshold : Q) :
  profile <> [] ->
  exists threshold_value index_maximum index_start index_end,
    good_region_core profile threshold
    = Ok (threshold_value, index_maximum, index_start, index_end) /\
    np_argmax profile = Ok index_maximum /\
    0 <= index_start <= index_maximum /\
    index_maximum <= index_end < len profile.
Proof.
  intros Hne. destruct (np_argmax_ok profile Hne) as [im [Him Hrange]].
  unfold good_region_core.
  destruct profile as [|p0 rest] eqn:Eprofile; [congruence|]. rewrite <- Eprofile in *.
  assert (Hmin : exists mn, np_min profile = Ok mn) by (subst; eexists; reflexivity).
  assert (Hmax : exists mx, np_max profile = Ok mx) by (subst; eexists; reflexivity).
  destruct Hmin as [mn ->]. destruct Hmax as [mx ->]. rewrite Him. cbn [bind].
  set (thr := ((mx - mn) * threshold + mn)%Q).
  destruct (first_below_ok profile thr (range_down im 0) im) as [s Hs].
  { intros i Hi. apply range_down_in in Hi. lia. }
  destruct (first_below_ok profile thr (range im (len profile)) im) as [e He].
  { intros i Hi. apply range_in in Hi. lia. }
  rewrite Hs, He. cbn [bind]. exists thr, im, s, e.
  split; [reflexivity | split; [reflexivity|]].
  split.
  - destruct (first_below_result _ _ _ _ _ Hs) as [->|[Hin _]]; [lia|].
    apply range_down_in in Hin. lia.
  - destruct (first_below_result _ _ _ _ _ He) as [->|[Hin _]]; [lia|].
    apply range_in in Hin. lia.
Qed.

Lemma Qtrunc_between (x : Q) (a b : Z) :
  0 <= a -> (inject_Z a <= x)%Q -> (x <= inject_Z b)%Q -> a <= Qtrunc x <= b.
Proof.
  intros Ha Hlo Hhi. destruct x as [num den]. unfold Qtrunc, Qle in *.
  cbn [Qnum Qden inject_Z] in *.
  assert (Hnum : 0 <= num) by nia.
  rewrite Z.quot_div_nonneg by lia. split.
  - apply Z.div_le_lower_bound; lia.
  - apply Z.div_le_upper_bound; lia.
Qed.

Lemma Q_half_extension (x ext : Q) :
  (0 <= ext)%Q -> (x - ext / 2 <= x)%Q /\ (x <= x + ext / 2)%Q.
Proof.
  intros Hext. unfold Qdiv.
  setoid_replace (/ 2)%Q with (1 # 2)%Q by reflexivity.
  split; lra.
Qed.

(** X14.  For a non-empty profile and a scale of at least 1,
    [get_good_region_profile] returns a region of the profile that holds
    the index of the maximum: [0 <= start <= argmax <= end <= size - 1]. *)
Theorem good_region_holds_maximum (profile : list Q) (threshold gfscale : Q) :
  profile <> [] -> (1 <= gfscale)%Q ->
  exists index_start index_end index_maximum,
    get_good_region_profile profile threshold gfscale = Ok (index_start, index_end) /\
    np_argmax profile = Ok index_maximum /\
    0 <= index_start <= index_maximum /\
    index_maximum <= index_end <= len profile - 1.
Proof.
  intros Hne Hscale.
  destruct (good_region_core_ok profile threshold Hne)
    as [thr [im [s [e [Hcore [Him [Hs He]]]]]]].
  unfold get_good_region_profile. rewrite Hcore. cbn [bind]. cbv zeta.
  eexists _, _, im. split; [reflexivity | split; [exact Him|]].
  assert (Hd : (0 <= inject_Z (e - s))%Q)
    by (change 0%Q with (inject_Z 0); rewrite <- Zle_Qle; lia).
  generalize dependent (inject_Z (e - s)). intros d Hd.
  assert (Hext : (0 <= d * gfscale - d)%Q) by nra.
  generalize dependent (d * gfscale - d)%Q. intros ext Hext.
  assert (Hsq : (0 <= inject_Z s)%Q)
    by (change 0%Q with (inject_Z 0); rewrite <- Zle_Qle; lia).
  split.
  - destruct (Qlt_bool 0 (inject_Z s - ext / 2)) eqn:E.
    + apply Qlt_bool_iff in E.
      assert (Hlo : (inject_Z 0 <= inject_Z s - ext / 2)%Q)
        by (change (inject_Z 0) with 0%Q; apply Qlt_le_weak; exact E).
      pose proof (proj1 (Q_half_extension (inject_Z s) ext Hext)) as Hhi.
      pose proof (Qtrunc_between _ 0 s ltac:(lia) Hlo Hhi). lia.
    + change (Qtrunc 0%Q) with 0. lia.
  - destruct (Qlt_bool (inject_Z e + ext / 2) (inject_Z (len profile - 1))) eqn:E.
    + apply Qlt_bool_iff in E.
      pose proof (proj2 (Q_half_extension (inject_Z e) ext Hext)) as Hlo.
      pose proof (Qlt_le_weak _ _ E) as Hhi.
      pose proof (Qtrunc_between _ e (len profile - 1) ltac:(lia) Hlo Hhi). lia.
    + unfold Qtrunc. cbn [inject_Z Qnum Qden]. rewrite Z.quot_1_r. lia.
Qed.

Lemma good_region_holds_maximum_witness :
  exists index_start index_end index_maximum,
    get_good_region_profile [0; 1; 10; 8; 2; 0]%Q (3 # 10) (18 # 10)
    = Ok (index_start, index_end) /\
    np_argmax [0; 1; 10; 8; 2; 0]%Q = Ok index_maximum /\
    0 <= index_start <= index_maximum /\
    index_maximum <= index_end <= len [0; 1; 10; 8; 2; 0]%Q - 1.
Proof.
  exact (good_region_holds_maximum [0; 1; 10; 8; 2; 0]%Q (3 # 10) (18 # 10)
           ltac:(discriminate) ltac:(discriminate)).
Defined.


(** X16.  What the two scans of [get_good_region_profile] find.  The end
    bound is the first index from the maximum to the last index at which
    the profile is below the threshold, and the index of the maximum when
    there is none.  The start bound is the first such index going down
    from the maximum to index 1, and the index of the maximum when there
    is none among these; index 0 is not looked at. *)
Theorem good_region_scans (profile : list Q) (threshold threshold_value : Q)
    (index_maximum index_start index_end : Z) :
  good_region_core profile threshold
  = Ok (threshold_value, index_maximum, index_start, index_end) ->
  ((index_maximum <= index_end < len profile /\
    below profile threshold_value index_end /\
    forall i, index_maximum <= i < index_end -> not_below profile threshold_value i)
   \/
   (index_end = index_maximum /\
    forall i, index_maximum <= i < len profile -> not_below profile threshold_value i))
  /\
  ((1 <= index_start <= index_maximum /\
    below profile threshold_value index_start /\
    forall i, index_start < i <= index_maximum -> not_below profile threshold_value i)
   \/
   (index_start = index_maximum /\
    forall i, 1 <= i <= index_maximum -> not_below profile threshold_value i)).
Proof.
  unfold good_region_core. intros Hcore.
  destruct (np_min profile) as [mn|]; cbn [bind] in Hcore; [|discriminate].
  destruct (np_max profile) as [mx|]; cbn [bind] in Hcore; [|discriminate].
  destruct (np_argmax profile) as [im|]; cbn [bind] in Hcore; [|discriminate].
  destruct (first_below profile _ (range_down im 0) im) as [s|] eqn:Es;
    cbn [bind] in Hcore; [|discriminate].
  destruct (first_below profile _ (range im (len profile)) im) as [e|] eqn:Ee;
    cbn [bind] in Hcore; [|discriminate].
  injection Hcore as <- <- <- <-.
  pose proof (len_nonneg profile) as Hlen.
  split.
  - destruct (first_below_upwards _ _ _ _ _ _ Ee) as [[-> Hall]|[Hr [Hb Hall]]].
    + right. split; [reflexivity|]. intros i Hi. apply Hall. lia.
    + left. split; [lia | split; [exact Hb | exact Hall]].
  - destruct (first_below_downwards _ _ _ _ _ _ Es) as [[-> Hall]|[Hr [Hb Hall]]].
    + right. split; [reflexivity|]. intros i Hi. apply Hall. lia.
    + left. split; [lia | split; [exact Hb | exact Hall]].
Qed.

Lemma good_region_scans_witness :
  (2 <= 4 < len [0; 1; 10; 8; 2; 0]%Q /\
   below [0; 1; 10; 8; 2; 0]%Q ((10 - 0) * (3 # 10) + 0)%Q 4 /\
   forall i, 2 <= i < 4 -> not_below [0; 1; 10; 8; 2; 0]%Q ((10 - 0) * (3 # 10) + 0)%Q i)
  \/
  (4 = 2 /\
   forall i, 2 <= i < len [0; 1; 10; 8; 2; 0]%Q ->
             not_below [0; 1; 10; 8; 2; 0]%Q ((10 - 0) * (3 # 10) + 0)%Q i).
Proof.
  exact (proj1 (good_region_scans [0; 1; 10; 8; 2; 0]%Q (3 # 10)
                  ((10 - 0) * (3 # 10) + 0)%Q 2 1 4 eq_refl)).
Defined.

(** ** Tilt estimator *)

Lemma compress_length_le {A : Type} (mask : list bool) (l : list A) :
  (length (compress mask l) <= length l)%nat.
Proof.
  revert l. induction mask as [|m mask IH]; intros [|a l]; cbn [compress length]; try lia.
  specialize (IH l). destruct m; cbn [length]; lia.
Qed.

Lemma compress_length_eq {A B : Type} (mask : list bool) (l : list A) (m : list B) :
  length l = length m -> length (compress mask l) = length (compress mask m).
Proof.
  revert l m. induction mask as [|b mask IH]; intros [|a l] [|c m] Hlen;
    cbn [compress length] in *; try lia.
  specialize (IH l m ltac:(lia)). destruct b; cbn [length]; lia.
Qed.

Lemma compress_self {A : Type} (q : A -> bool) (l : list A) :
  Forall (fun a => q a = true) (compress (map q l) l).
Proof.
  induction l as [|a l IH]; cbn [map compress]; [constructor|].
  destruct (q a) eqn:Ea; [constructor; assumption | exact IH].
Qed.

Lemma in_range_one (dt : dtype) : in_range dt 1.
Proof. unfold in_range. destruct dt; cbn [signed bits]; lia. Qed.

Section TiltArguments.

Context {F : Type} `{Float64 F}.

(** What [get_tilt] hands to the polynomial fit. *)
Lemma get_tilt_fit_arguments (other_power : list Z -> Z -> result (weights F))
    (im : ndarray) (x_axis y_axis : list F) (w_order order : Z) :
  nd_rows im <> [] -> (0 < column_count (nd_rows im))%nat ->
  length x_axis = column_count (nd_rows im) -> length y_axis = length (nd_rows im) ->
  0 <= w_order < 2 ^ 63 ->
  exists (xs ys : list F) (ws : list Z) (mean_image : F),
    (forall polyfit : polynomial_fitter F,
       get_tilt polyfit other_power im x_axis y_axis w_order order
       = fit <- polyfit xs ys order (int_weights ws) ;;
         Ok ({| coefficients := fit |}, mean_image)) /\
    length xs = length ys /\ length ws = length ys /\
    (length ys <= length x_axis)%nat /\
    Forall (fun y => f_isnan y = false) ys /\
    Forall (in_range (sum_dtype (nd_dtype im))) ws /\
    (w_order = 0 -> Forall (fun w => w = 1) ws).
Proof.
  intros Hne Hcols Hx Hy Hw.
  set (rows := nd_rows im) in *. set (acc := sum_dtype (nd_dtype im)).
  pose proof (columns_count rows Hne) as Hcount.
  set (peak_y := map (fun column => nth (peak_row column) y_axis f_zero) (columns rows)).
  set (mask := map (fun y => negb (f_isnan y)) peak_y).
  set (projX := map (fun column => wrap acc (z_sum column)) (columns rows)).
  set (corrected := map (fun p => wrap acc (p - minimum_of projX)) projX).
  set (mean_image :=
         f_div (f_sum (map2 (fun c x => f_mul (f_of_Z c) x) corrected x_axis))
               (f_of_Z (wrap acc (z_sum corrected)))).
  assert (HlprojX : length projX = column_count rows)
    by (unfold projX; rewrite length_map; exact Hcount).
  assert (Hlcorrected : length corrected = column_count rows)
    by (unfold corrected; rewrite length_map; exact HlprojX).
  assert (Hlpeak : length peak_y = column_count rows)
    by (unfold peak_y; rewrite length_map; exact Hcount).
  assert (Hlmask : length mask = column_count rows)
    by (unfold mask; rewrite length_map; exact Hlpeak).
  assert (HprojX : projX <> []) by (destruct projX; [cbn [length] in HlprojX; lia | discriminate]).
  assert (Hcorrected : corrected <> [])
    by (destruct corrected; [cbn [length] in Hlcorrected; lia | discriminate]).
  exists (map (fun x => f_sub x mean_image) (compress mask x_axis)),
         (compress mask peak_y),
         (map (fun c => wrap acc (c ^ w_order))
              (map (fun c => wrap acc (c - minimum_of corrected)) (compress mask corrected))),
         mean_image.
  split; [|split; [|split; [|split; [|split; [|split]]]]].
  - intros polyfit. unfold get_tilt. fold rows. fold acc.
    rewrite (tilt_peak_rows rows Hne). cbn [bind].
    rewrite (tilt_peak_values rows y_axis Hne Hy). cbn [bind].
    fold peak_y. fold mask. fold projX.
    rewrite (z_min_minimum_of projX HprojX). cbn [bind]. fold corrected.
    rewrite (broadcast2_same_length _ corrected x_axis) by lia. cbn [bind].
    fold mean_image.
    rewrite !mask_select_same_length by lia. cbn [bind].
    rewrite (z_min_minimum_of corrected Hcorrected). cbn [bind].
    unfold integer_power, acc. rewrite (sum_dtype_exponent (nd_dtype im) w_order Hw).
    reflexivity.
  - rewrite length_map. apply compress_length_eq. lia.
  - rewrite !length_map. apply compress_length_eq. lia.
  - pose proof (compress_length_le mask peak_y). lia.
  - unfold mask. eapply Forall_impl; [|apply (compress_self (fun y => negb (f_isnan y)))].
    cbv beta. intros y Hy'. apply negb_true_iff. exact Hy'.
  - apply Forall_forall. intros w Hin. apply in_map_iff in Hin.
    destruct Hin as [c [<- _]]. apply wrap_in_range.
  - intros ->. apply Forall_forall. intros w Hin. apply in_map_iff in Hin.
    destruct Hin as [c [<- _]]. rewrite Z.pow_0_r. apply wrap_small, in_range_one.
Qed.

End TiltArguments.

(** X18.  On an integer image with at least one row and one column, an
    x axis of the number of columns, a y axis of the number of rows and
    a weight order from 0 to below 2^63, [get_tilt] calls the polynomial
    fit with abscissas, ordinates and integer weights of one common
    length, at most the number of columns; no ordinate is
    not-a-number, every weight is a value of the 64-bit type in which
    the sums are taken, whatever overflowed on the way, and with
    [w_order = 0] every weight is 1.  The result is the fit and the mean
    position, or the error of the fit. *)
Theorem get_tilt_calls_fit {F : Type} `{Float64 F}
    (other_power : list Z -> Z -> result (weights F)) (im : ndarray)
    (x_axis y_axis : list F) (w_order order : Z) :
  well_formed_array im -> 0 < len (nd_rows im) -> 0 < nd_width im ->
  len x_axis = nd_width im -> len y_axis = len (nd_rows im) ->
  0 <= w_order < 2 ^ 63 ->
  exists (xs ys : list F) (ws : list Z) (mean_image : F),
    (forall polyfit : polynomial_fitter F,
       get_tilt polyfit other_power im x_axis y_axis w_order order
       = fit <- polyfit xs ys order (int_weights ws) ;;
         Ok ({| coefficients := fit |}, mean_image)) /\
    length xs = length ys /\ length ws = length ys /\
    (length ys <= length x_axis)%nat /\
    Forall (fun y => f_isnan y = false) ys /\
    Forall (in_range (sum_dtype (nd_dtype im))) ws /\
    (w_order = 0 -> Forall (fun w => w = 1) ws).
Proof.
  intros Hwf Hrows Hcols Hx Hy Hw.
  destruct (well_formed_column_count im Hwf Hrows) as [Hne Hcount].
  apply get_tilt_fit_arguments; try assumption; unfold len in *; lia.
Qed.

Lemma get_tilt_calls_fit_witness :
  exists (xs ys : list Q) (ws : list Z) (mean_image : Q),
    (forall polyfit : polynomial_fitter Q,
       get_tilt polyfit no_other_power
         {| nd_dtype := U16; nd_width := 3; nd_rows := [[0; 1; 0]; [0; 5; 1]; [3; 1; 0]] |}
         [0; 1; 2]%Q [0; 1; 2]%Q 0 1
       = fit <- polyfit xs ys 1 (int_weights ws) ;;
         Ok ({| coefficients := fit |}, mean_image)) /\
    Forall (fun w => w = 1) ws.
Proof.
  destruct (get_tilt_calls_fit (F := Q) no_other_power
              {| nd_dtype := U16; nd_width := 3;
                 nd_rows := [[0; 1; 0]; [0; 5; 1]; [3; 1; 0]] |}
              [0; 1; 2]%Q [0; 1; 2]%Q 0 1
              ltac:(split; repeat constructor; cbn; lia)
              ltac:(reflexivity) ltac:(reflexivity) eq_refl eq_refl ltac:(lia))
    as (xs & ys & ws & mean_image & Hcall & _ & _ & _ & _ & _ & Hws).
  exists xs, ys, ws, mean_image. split; [exact Hcall | exact (Hws eq_refl)].
Defined.

(** ** The mock configuration storage *)

Section StorageProperties.

Import MockConfigStorage.

Variable config : Type.

Lemma dict_get_set_same (d : list (String.string * config)) (key : String.string) (value : config) :
  dict_get (dict_set d key value) key = Some value.
Proof.
  induction d as [|[k v] d IH]; cbn [dict_set dict_get].
  - rewrite String.eqb_refl. reflexivity.
  - destruct (String.eqb k key) eqn:E; cbn [dict_get]; rewrite E; [reflexivity | exact IH].
Qed.

Lemma dict_get_set_other (d : list (String.string * config)) (key key' : String.string) (value : config) :
  key' <> key -> dict_get (dict_set d key value) key' = dict_get d key'.
Proof.
  intros Hne. induction d as [|[k v] d IH]; cbn [dict_set dict_get].
  - replace (String.eqb key key') with false; [reflexivity|].
    symmetry. apply String.eqb_neq. congruence.
  - destruct (String.eqb k key) eqn:E; cbn [dict_get].
    + apply String.eqb_eq in E. subst k.
      replace (String.eqb key key') with false; [reflexivity|].
      symmetry. apply String.eqb_neq. congruence.
    + rewrite IH. reflexivity.
Qed.

Lemma dict_get_none (d : list (String.string * config)) (key : String.string) :
  dict_get d key = None <-> ~ In key (map fst d).
Proof.
  induction d as [|[k v] d IH]; cbn [dict_get map fst In].
  - split; [intros _ [] | reflexivity].
  - destruct (String.eqb k key) eqn:E.
    + apply String.eqb_eq in E. split; [discriminate | intros Hno; exfalso; auto].
    + apply String.eqb_neq in E. rewrite IH. split.
      * intros Hno [Heq|Hin]; [congruence | exact (Hno Hin)].
      * intros Hno Hin. apply Hno. right. exact Hin.
Qed.

Lemma dict_set_keys (d : list (String.string * config)) (key : String.string) (value : config) :
  (In key (map fst d) -> map fst (dict_set d key value) = map fst d) /\
  (~ In key (map fst d) -> map fst (dict_set d key value) = map fst d ++ [key]).
Proof.
  induction d as [|[k v] d [IHin IHout]]; cbn [dict_set map fst In app].
  - split; [intros [] | reflexivity].
  - destruct (String.eqb k key) eqn:E; cbn [map fst].
    + apply String.eqb_eq in E. split; [reflexivity | intros Hno; exfalso; auto].
    + apply String.eqb_neq in E. split.
      * intros [Heq|Hin]; [congruence | rewrite (IHin Hin); reflexivity].
      * intros Hno. rewrite IHout by (intros Hin; apply Hno; right; exact Hin).
        reflexivity.
Qed.

Lemma dict_del_missing (d : list (String.string * config)) (key : String.string) :
  dict_del d key = None <-> ~ In key (map fst d).
Proof.
  induction d as [|[k v] d IH]; cbn [dict_del map fst In].
  - split; [intros _ [] | reflexivity].
  - destruct (String.eqb k key) eqn:E.
    + apply String.eqb_eq in E. split; [discriminate | intros Hno; exfalso; auto].
    + apply String.eqb_neq in E.
      destruct (dict_del d key) as [d'|].
      * split; [discriminate|]. intros Hno. exfalso.
        assert (Hnone : @None (list (String.string * config)) = None) by reflexivity.
        destruct IH as [_ IH]. 
        assert (Hd : ~ In key (map fst d)) by (intros Hin; apply Hno; right; exact Hin).
        specialize (IH Hd). discriminate.
      * split; [|reflexivity]. intros _ [Heq|Hin]; [congruence|].
        destruct IH as [IH _]. exact (IH eq_refl Hin).
Qed.

Lemma dict_del_present (d d' : list (String.string * config)) (key : String.string) :
  NoDup (map fst d) -> dict_del d key = Some d' ->
  NoDup (map fst d') /\ ~ In key (map fst d') /\
  (forall k, In k (map fst d') -> In k (map fst d)) /\
  (forall key', key' <> key -> dict_get d' key' = dict_get d key').
Proof.
  revert d'. induction d as [|[k v] d IH]; intros d' Hnodup; cbn [dict_del];
    [discriminate|].
  cbn [map fst] in Hnodup. inversion Hnodup as [|? ? Hk Hrest]; subst.
  destruct (String.eqb k key) eqn:E.
  - apply String.eqb_eq in E. subst k. intros [= <-].
    split; [exact Hrest | split; [exact Hk | split]].
    + intros k Hin. right. exact Hin.
    + intros key' Hne. cbn [dict_get].
      replace (String.eqb key key') with false; [reflexivity|].
      symmetry. apply String.eqb_neq. congruence.
  - apply String.eqb_neq in E.
    destruct (dict_del d key) as [rest'|] eqn:Edel; [|discriminate].
    intros [= <-]. destruct (IH rest' Hrest eq_refl) as [Hnd [Hno [Hsub Hget]]].
    cbn [map fst]. split; [|split; [|split]].
    + constructor; [|exact Hnd]. intros Hin. apply Hk. exact (Hsub k Hin).
    + intros [Heq|Hin]; [congruence | exact (Hno Hin)].
    + intros k' [<-|Hin]; [left; reflexivity | right; exact (Hsub k' Hin)].
    + intros key' Hne. cbn [dict_get]. rewrite (Hget key' Hne). reflexivity.
Qed.

End StorageProperties.

(** X20.  A saved configuration is the one that is read back under its
    name, and saving under one name changes no configuration under
    another name. *)
Theorem storage_save_then_get (config : Type) (self : MockConfigStorage.t config)
    (config_name : String.string) (configuration : config) :
  MockConfigStorage.get_config
    (MockConfigStorage.save_config self config_name configuration) config_name
  = MockConfigStorage.Return configuration /\
  forall other : String.string, other <> config_name ->
    MockConfigStorage.get_config
      (MockConfigStorage.save_config self config_name configuration) other
    = MockConfigStorage.get_config self other.
Proof.
  unfold MockConfigStorage.get_config, MockConfigStorage.save_config.
  cbn [MockConfigStorage.configs]. split.
  - rewrite dict_get_set_same. reflexivity.
  - intros other Hne. rewrite dict_get_set_other by exact Hne. reflexivity.
Qed.

(** X21.  [get_config] returns a configuration for every available name
    and raises the [ValueError] "Config '<name>' does not exist." for
    every other name. *)
Theorem storage_get_missing (config : Type) (self : MockConfigStorage.t config)
    (config_name : String.string) :
  (In config_name (MockConfigStorage.get_available_configs self) ->
   exists configuration,
     MockConfigStorage.get_config self config_name
     = MockConfigStorage.Return configuration) /\
  (~ In config_name (MockConfigStorage.get_available_configs self) ->
   MockConfigStorage.get_config self config_name
   = MockConfigStorage.Throw
       (MockConfigStorage.ValueError
          (MockConfigStorage.missing_message config_name))).
Proof.
  unfold MockConfigStorage.get_config, MockConfigStorage.get_available_configs.
  split.
  - intros Hin.
    destruct (MockConfigStorage.dict_get (MockConfigStorage.configs self) config_name)
      as [c|] eqn:E; [exists c; reflexivity|].
    apply dict_get_none in E. contradiction.
  - intros Hno. apply dict_get_none in Hno. rewrite Hno. reflexivity.
Qed.

Lemma storage_get_missing_witness :
  MockConfigStorage.get_config (MockConfigStorage.init (config := nat)) MockConfigStorage.camera
  = MockConfigStorage.Throw
      (MockConfigStorage.ValueError
         (MockConfigStorage.missing_message MockConfigStorage.camera)).
Proof.
  apply (proj2 (storage_get_missing nat MockConfigStorage.init MockConfigStorage.camera)).
  intros [].
Defined.

(** X22.  [delete_config] raises [KeyError] for a name that is not
    available.  For an available name of a storage with distinct names
    it returns a storage with distinct names in which the name is no
    longer available, [get_config] of the name raises, and every other
    name has the configuration it had. *)
Theorem storage_delete (config : Type) (self : MockConfigStorage.t config)
    (config_name : String.string) :
  (~ In config_name (MockConfigStorage.get_available_configs self) ->
   MockConfigStorage.delete_config self config_name
   = MockConfigStorage.Throw (MockConfigStorage.KeyError config_name)) /\
  (MockConfigStorage.well_formed self ->
   In config_name (MockConfigStorage.get_available_configs self) ->
   exists self' : MockConfigStorage.t config,
     MockConfigStorage.delete_config self config_name = MockConfigStorage.Return self' /\
     MockConfigStorage.well_formed self' /\
     ~ In config_name (MockConfigStorage.get_available_configs self') /\
     MockConfigStorage.get_config self' config_name
     = MockConfigStorage.Throw
         (MockConfigStorage.ValueError
            (MockConfigStorage.missing_message config_name)) /\
     forall other : String.string, other <> config_name ->
       MockConfigStorage.get_config self' other
       = MockConfigStorage.get_config self other).
Proof.
  unfold MockConfigStorage.delete_config, MockConfigStorage.get_available_configs,
    MockConfigStorage.well_formed, MockConfigStorage.get_config.
  split.
  - intros Hno. apply dict_del_missing in Hno. rewrite Hno. reflexivity.
  - intros Hwf Hin.
    destruct (MockConfigStorage.dict_del (MockConfigStorage.configs self) config_name)
      as [d'|] eqn:Edel.
    + destruct (dict_del_present config _ d' config_name Hwf Edel)
        as [Hnd [Hno [_ Hget]]].
      eexists. split; [reflexivity|]. cbn [MockConfigStorage.configs].
      split; [exact Hnd | split; [exact Hno | split]].
      * apply dict_get_none in Hno. rewrite Hno. reflexivity.
      * intros other Hne. rewrite (Hget other Hne). reflexivity.
    + apply dict_del_missing in Edel. contradiction.
Qed.

Lemma storage_delete_witness :
  MockConfigStorage.delete_config (MockConfigStorage.init (config := nat)) MockConfigStorage.camera
  = MockConfigStorage.Throw (MockConfigStorage.KeyError MockConfigStorage.camera) /\
  exists self' : MockConfigStorage.t nat,
    MockConfigStorage.delete_config
      (MockConfigStorage.save_config MockConfigStorage.init MockConfigStorage.camera 7%nat) MockConfigStorage.camera
    = MockConfigStorage.Return self' /\
    MockConfigStorage.get_available_configs self' = [].
Proof.
  split.
  - apply (proj1 (storage_delete nat MockConfigStorage.init MockConfigStorage.camera)). intros [].
  - destruct (proj2 (storage_delete nat
                       (MockConfigStorage.save_config MockConfigStorage.init
                          MockConfigStorage.camera 7%nat) MockConfigStorage.camera)
                ltac:(repeat constructor; intros [])
                ltac:(left; reflexivity))
      as [self' [Hdel _]].
    exists self'. split; [exact Hdel|].
    injection Hdel as <-. reflexivity.
Defined.

(** X23.  The names that [get_available_configs] lists stay distinct: a
    new storage lists none; saving under an available name leaves the
    list as it is, saving under a new name puts the name at its end. *)
Theorem storage_available_configs (config : Type) (self : MockConfigStorage.t config)
    (config_name : String.string) (configuration : config) :
  MockConfigStorage.get_available_configs (MockConfigStorage.init (config := config)) = []
  /\
  (In config_name (MockConfigStorage.get_available_configs self) ->
   MockConfigStorage.get_available_configs
     (MockConfigStorage.save_config self config_name configuration)
   = MockConfigStorage.get_available_configs self) /\
  (~ In config_name (MockConfigStorage.get_available_configs self) ->
   MockConfigStorage.get_available_configs
     (MockConfigStorage.save_config self config_name configuration)
   = MockConfigStorage.get_available_configs self ++ [config_name]) /\
  (MockConfigStorage.well_formed self ->
   MockConfigStorage.well_formed
     (MockConfigStorage.save_config self config_name configuration)).
Proof.
  unfold MockConfigStorage.get_available_configs, MockConfigStorage.well_formed,
    MockConfigStorage.save_config. cbn [MockConfigStorage.configs].
  destruct (dict_set_keys config (MockConfigStorage.configs self) config_name
              configuration) as [Hin Hout].
  split; [reflexivity | split; [exact Hin | split; [exact Hout|]]].
  intros Hwf.
  destruct (in_dec String.string_dec config_name
              (map fst (MockConfigStorage.configs self))) as [Hpresent|Habsent].
  - unfold MockConfigStorage.get_available_configs. cbn [MockConfigStorage.configs].
    rewrite (Hin Hpresent). exact Hwf.
  - unfold MockConfigStorage.get_available_configs. cbn [MockConfigStorage.configs].
    rewrite (Hout Habsent). apply NoDup_app; [exact Hwf | repeat constructor; intros [] |].
    intros k Hk [<-|[]]. exact (Habsent Hk).
Qed.

Lemma storage_available_configs_witness :
  MockConfigStorage.get_available_configs
    (MockConfigStorage.save_config
       (MockConfigStorage.save_config
          (MockConfigStorage.save_config MockConfigStorage.init MockConfigStorage.name_a 1%nat) MockConfigStorage.name_b 2%nat)
       MockConfigStorage.name_a 3%nat)
  = [MockConfigStorage.name_a; MockConfigStorage.name_b].
Proof.
  rewrite (proj1 (proj2 (storage_available_configs nat
                           (MockConfigStorage.save_config
                              (MockConfigStorage.save_config MockConfigStorage.init
                                 MockConfigStorage.name_a 1%nat) MockConfigStorage.name_b 2%nat)
                           MockConfigStorage.name_a 3%nat))) by (left; reflexivity).
  reflexivity.
Defined.
